(** * anycable-elements: the cursors widget and the logs element

    A shallow embedding of [AnyCableCursorsElement], the pointer-presence
    widget, and of the address codec it relies on ([indexedSelector],
    [pathSelector], [pathLocator]), with the properties the
    specification states about them and further properties of the
    code; and of the records and lines of [AnyCableLogsElement].

    Layout:
    - JavaScript values: strings and [split], numbers with [NaN],
      exceptions;
    - the DOM: trees of text and element nodes with open shadow roots,
      node references, [querySelector];
    - the codec, statement by statement;
    - the widget: presence store, reaper timer, session callbacks,
      pointer reporter, and an event loop to run timelines;
    - the vocabulary of the statements;
    - the data side of [AnyCableLogsElement]: flattened records and
      numbered lines;
    - the theorems.

    What the model fixes about the platform:
    - a node object is identified by its position in the tree, and the
      tree does not change between the calls a statement relates;
    - elements are HTML elements of an HTML document: [tagName] is the
      local name in upper case, a type selector is put in lower case
      and compared with the local name as it is, and [:nth-of-type]
      counts the siblings of the same local name;
    - an element's [shadowRoot] is its open shadow root; a closed one
      is invisible to the code and is not modelled;
    - [querySelector] understands the selectors the encoder writes and
      raises a syntax error on any other string;
    - [event.composedPath()] is the propagation path while the event is
      dispatched and the empty array afterwards;
    - coordinates are integers, times are milliseconds;
    - the store is a plain object used as a map: reading it under a
      name also finds what every object inherits ([constructor],
      [toString], ...);
    - the widget's template is rendered before the first message
      arrives. *)

From Stdlib Require Import ZArith Ascii String List Lia Bool.
From Stdlib Require Import Decimal DecimalNat DecimalString.
From stdpp Require Import base option list strings gmap fin_maps.

Local Open Scope Z_scope.
Local Open Scope nat_scope.

(* ===================================================================== *)
(** * JavaScript values                                                    *)
(* ===================================================================== *)

Module JS.

(** Exceptions the modelled code can raise. *)
Inductive error : Type :=
| TypeError      (* property access on null or undefined *)
| SyntaxError.   (* querySelector on a selector it cannot parse *)

Inductive result (A : Type) : Type :=
| Ok (a : A)
| Throw (e : error).
Arguments Ok {A} a.
Arguments Throw {A} e.

(** [String(v)] for a value that is a string or [undefined]. *)
Definition to_string (v : option string) : string :=
  match v with Some s => s | None => "undefined" end.

(** Truthiness of a string-or-undefined value: the empty string and
    [undefined] are falsy. *)
Definition truthy (v : option string) : bool :=
  match v with
  | Some s => negb (String.eqb s "")
  | None => false
  end.

Definition lower_ascii (c : ascii) : ascii :=
  let n := nat_of_ascii c in
  if (65 <=? n) && (n <=? 90) then ascii_of_nat (n + 32) else c.

Definition upper_ascii (c : ascii) : ascii :=
  let n := nat_of_ascii c in
  if (97 <=? n) && (n <=? 122) then ascii_of_nat (n - 32) else c.

Fixpoint toLowerCase (s : string) : string :=
  match s with
  | EmptyString => EmptyString
  | String c s' => String (lower_ascii c) (toLowerCase s')
  end.

Fixpoint toUpperCase (s : string) : string :=
  match s with
  | EmptyString => EmptyString
  | String c s' => String (upper_ascii c) (toUpperCase s')
  end.

(** [s.split(sep)] for a non-empty separator. The first component of the
    result is the piece being read; [skip] counts the characters of a
    separator occurrence still to be passed over. *)
Fixpoint split_go (sep : string) (skip : nat) (s : string) : list string :=
  match s with
  | EmptyString => [EmptyString]
  | String c s' =>
      match skip with
      | S k => split_go sep k s'
      | O =>
          if String.prefix sep s
          then EmptyString :: split_go sep (String.length sep - 1) s'
          else match split_go sep 0 s' with
               | piece :: pieces => String c piece :: pieces
               | [] => [String c EmptyString]
               end
      end
  end.

Definition split (s sep : string) : list string := split_go sep 0 s.

(** Template-literal rendering of a non-negative integer. *)
Definition of_nat (n : nat) : string :=
  NilEmpty.string_of_uint (Nat.to_uint n).

(** Numbers: the integers the widget computes with, and [NaN]. *)
Inductive number : Type :=
| Num (z : Z)
| NaN.

(** [ToNumber] of a value that is a number or [undefined]. *)
Definition to_number (v : option Z) : number :=
  match v with Some z => Num z | None => NaN end.

Definition sub (a b : number) : number :=
  match a, b with
  | Num x, Num y => Num (x - y)
  | _, _ => NaN
  end.

(** [a > b]: every comparison with [NaN] is false. *)
Definition gt (a b : number) : bool :=
  match a, b with
  | Num x, Num y => (y <? x)%Z
  | _, _ => false
  end.

End JS.

Import JS.

(* ===================================================================== *)
(** * The DOM                                                              *)
(* ===================================================================== *)

(** A node is a text-like node (text, comment, doctype: anything whose
    [nodeType] is not 1) or an element with its child nodes and, when it
    is a host with an open shadow root, the child nodes of that root. *)
#[local] Unset Elimination Schemes.
Inductive node : Type :=
| Text (data : string)
| Element (localName : string) (childNodes : list node)
          (shadow : option (list node)).
#[local] Set Elimination Schemes.

(** A document is the list of child nodes of the [document] object. *)
Definition document : Type := list node.

(** Node objects are identified by their position. A position is read
    from the node outwards: [Child 2 :: Shadow :: Child 0 :: []] is
    [document.childNodes[0].shadowRoot.childNodes[2]]. *)
Inductive step : Type :=
| Child (i : nat)
| Shadow.

Inductive ref : Type :=
| Window
| Node (p : list step).

Global Instance step_eq_dec : EqDecision step.
Proof. solve_decision. Defined.

Global Instance ref_eq_dec : EqDecision ref.
Proof. solve_decision. Defined.

(** What a position resolves to: a container (the document or a shadow
    root) or a node. *)
Inductive view : Type :=
| Container (kids : list node)
| Item (n : node).

Definition children (v : view) : list node :=
  match v with
  | Container kids => kids
  | Item (Element _ kids _) => kids
  | Item (Text _) => []
  end.

Definition enter (v : view) (s : step) : option view :=
  match s with
  | Child i => Item <$> (children v !! i)
  | Shadow =>
      match v with
      | Item (Element _ _ (Some kids)) => Some (Container kids)
      | _ => None
      end
  end.

Fixpoint resolve (doc : document) (p : list step) : option view :=
  match p with
  | [] => Some (Container doc)
  | s :: q =>
      match resolve doc q with
      | Some v => enter v s
      | None => None
      end
  end.

Section DomApi.
Variable doc : document.

Definition lookup_ref (r : ref) : option view :=
  match r with
  | Window => None
  | Node p => resolve doc p
  end.

(** [node.localName]: defined on elements only. *)
Definition localName_of (r : ref) : option string :=
  match lookup_ref r with
  | Some (Item (Element tag _ _)) => Some tag
  | _ => None
  end.

(** [node.nodeType]: 1 element, 3 text-like, 9 document, 11 shadow root. *)
Definition nodeType (r : ref) : nat :=
  match r with
  | Window => 0
  | Node [] => 9
  | Node (Shadow :: _) => 11
  | Node (Child _ :: _) =>
      match lookup_ref r with
      | Some (Item (Element _ _ _)) => 1
      | _ => 3
      end
  end.

(** [element.tagName] of an HTML element: its local name in upper case. *)
Definition tagName_of (r : ref) : string :=
  match localName_of r with
  | Some tag => toUpperCase tag
  | None => EmptyString
  end.

Definition previousSibling (r : ref) : option ref :=
  match r with
  | Node (Child (S j) :: q) => Some (Node (Child j :: q))
  | _ => None
  end.

(** [element.shadowRoot]: the open shadow root, or null. *)
Definition shadowRoot (r : ref) : option ref :=
  match r with
  | Node p =>
      match resolve doc p with
      | Some (Item (Element _ _ (Some _))) => Some (Node (Shadow :: p))
      | _ => None
      end
  | Window => None
  end.

(** [node.getRootNode()]: the document or the shadow root whose tree
    holds the node. *)
Fixpoint root_of (p : list step) : list step :=
  match p with
  | [] => []
  | Shadow :: _ => p
  | Child _ :: q => root_of q
  end.

Definition getRootNode (r : ref) : ref :=
  match r with
  | Node p => Node (root_of p)
  | Window => Window
  end.

End DomApi.

(* ===================================================================== *)
(** * Selectors                                                            *)
(* ===================================================================== *)

(** The fragment of CSS the encoder emits: compound selectors [tag] and
    [tag:nth-of-type(n)] joined by the child combinator [" > "]. Strings
    outside the fragment are reported as a syntax error, as the platform
    does for a selector it cannot parse. Against an HTML element a type
    selector is put in lower case and compared with the local name as
    it is, so a selector in any case matches a lower-case name and no
    selector matches a name with an upper-case letter. *)
Module Css.

Inductive compound : Type :=
| TypeSel (tag : string)
| NthOfType (tag : string) (n : nat).

Definition is_alpha (c : ascii) : bool :=
  let n := nat_of_ascii c in
  ((65 <=? n) && (n <=? 90)) || ((97 <=? n) && (n <=? 122)).

Definition is_name_char (c : ascii) : bool :=
  let n := nat_of_ascii c in
  is_alpha c || ((48 <=? n) && (n <=? 57)) || (n =? 45) || (n =? 95).

Fixpoint all_chars (f : ascii -> bool) (s : string) : bool :=
  match s with
  | EmptyString => true
  | String c s' => f c && all_chars f s'
  end.

(** An identifier: a letter followed by letters, digits, [-] or [_]. *)
Definition is_ident (s : string) : bool :=
  match s with
  | EmptyString => false
  | String c s' => is_alpha c && all_chars is_name_char s'
  end.

(** [cut c s]: the text before the first [c], and the text after it
    when there is one. *)
Fixpoint cut (c : ascii) (s : string) : string * option string :=
  match s with
  | EmptyString => (EmptyString, None)
  | String d s' =>
      if Ascii.eqb c d then (EmptyString, Some s')
      else let (a, b) := cut c s' in (String d a, b)
  end.

Fixpoint strip_prefix (p s : string) : option string :=
  match p, s with
  | EmptyString, _ => Some s
  | String a p', String b s' =>
      if Ascii.eqb a b then strip_prefix p' s' else None
  | String _ _, EmptyString => None
  end.

Definition parse_ordinal (s : string) : option nat :=
  match strip_prefix "nth-of-type(" s with
  | Some r =>
      match cut ")" r with
      | (digits, Some EmptyString) =>
          match digits with
          | EmptyString => None
          | _ => Nat.of_uint <$> NilEmpty.uint_of_string digits
          end
      | _ => None
      end
  | None => None
  end.

Definition parse_compound (s : string) : option compound :=
  match cut ":" s with
  | (tag, None) => if is_ident tag then Some (TypeSel tag) else None
  | (tag, Some r) =>
      if is_ident tag then NthOfType tag <$> parse_ordinal r else None
  end.

Fixpoint parse_all (l : list string) : option (list compound) :=
  match l with
  | [] => Some []
  | s :: l' =>
      match parse_compound s, parse_all l' with
      | Some c, Some cs => Some (c :: cs)
      | _, _ => None
      end
  end.

(** Outermost compound first. *)
Definition parse (s : string) : option (list compound) :=
  parse_all (split s " > ").

(** What a compound selector looks at: the element's local name and
    its 1-based position among the siblings of its type, which are the
    sibling elements of the same local name. *)
Definition signature : Type := string * nat.

Definition same_name (tag : string) (n : node) : bool :=
  match n with
  | Element tag' _ _ => String.eqb tag tag'
  | Text _ => false
  end.

Definition count_named (tag : string) (l : list node) : nat :=
  length (List.filter (same_name tag) l).

Definition signature_at (tag : string) (sibs : list node) (idx : nat)
  : signature :=
  (tag, S (count_named tag (take idx sibs))).

(** The coarser comparison that [indexedSelector] makes between a
    [localName] and the [tagName] of a sibling: the same name up to
    case. *)
Definition same_type (tag : string) (n : node) : bool :=
  match n with
  | Element tag' _ _ => String.eqb (toLowerCase tag) (toLowerCase tag')
  | Text _ => false
  end.

Definition count_same (tag : string) (l : list node) : nat :=
  length (List.filter (same_type tag) l).

Definition matches_compound (c : compound) (s : signature) : bool :=
  match c with
  | TypeSel tag => String.eqb (toLowerCase tag) (fst s)
  | NthOfType tag n => String.eqb (toLowerCase tag) (fst s) && (n =? snd s)
  end.

(** [matches sel chain]: [sel] is the selector innermost compound first,
    [chain] the signatures of an element and of its ancestor elements,
    innermost first. Each [>] steps to the parent element. *)
Fixpoint matches (sel : list compound) (chain : list signature) : bool :=
  match sel, chain with
  | [], _ => true
  | c :: sel', s :: chain' => matches_compound c s && matches sel' chain'
  | _ :: _, [] => false
  end.

(** First match in tree order among [n] and its descendants. [sibs] is
    the sibling list of [n], [idx] its index there and [stack] the
    signatures of its ancestors. The result is the list of child
    indices leading from the search root to the match. Shadow trees of
    descendants are not entered. *)
Fixpoint find_node (sel : list compound) (stack : list signature)
    (sibs : list node) (idx : nat) (n : node) {struct n}
  : option (list nat) :=
  match n with
  | Text _ => None
  | Element tag kids _ =>
      let chain := signature_at tag sibs idx :: stack in
      if matches sel chain then Some [idx]
      else
        (fix scan (i : nat) (rest : list node) {struct rest}
           : option (list nat) :=
           match rest with
           | [] => None
           | k :: rest' =>
               match find_node sel chain kids i k with
               | Some p => Some p
               | None => scan (S i) rest'
               end
           end) 0 kids
        ≫= fun p => Some (idx :: p)
  end.

Fixpoint find_nodes (sel : list compound) (stack : list signature)
    (sibs : list node) (i : nat) (rest : list node)
  : option (list nat) :=
  match rest with
  | [] => None
  | k :: rest' =>
      match find_node sel stack sibs i k with
      | Some p => Some p
      | None => find_nodes sel stack sibs (S i) rest'
      end
  end.

End Css.

Section Query.
Variable doc : document.

(** [root.querySelector(selector)] for [root] the document or a shadow
    root, the only receivers in the widget. *)
Definition querySelector (root : ref) (selector : string)
  : result (option ref) :=
  match root with
  | Node p =>
      match resolve doc p with
      | Some (Container kids) =>
          match Css.parse selector with
          | Some sel =>
              Ok ((fun ix => Node (rev (Child <$> ix) ++ p))
                    <$> Css.find_nodes (rev sel) [] kids 0 kids)
          | None => Throw SyntaxError
          end
      | _ => Throw TypeError
      end
  | Window => Throw TypeError
  end.

End Query.

(* ===================================================================== *)
(** * The address codec                                                    *)
(* ===================================================================== *)

(** The [__path_selector] expando property that [pathSelector] leaves on
    the elements it has encoded. *)
Definition selector_cache : Type := ref -> option string.

Definition no_cache : selector_cache := fun _ => None.

Definition cache_set (c : selector_cache) (el : ref) (v : option string)
  : selector_cache :=
  fun r => if decide (r = el) then v else c r.

Section Codec.
Variable doc : document.

(** The [while (node.previousSibling)] loop of [indexedSelector], with
    [node] at [Child idx :: q]: it visits [Child (idx - 1) :: q] down to
    [Child 0 :: q]. *)
Fixpoint indexedSelector_loop (q : list step) (idx : nat)
    (tagName : string) (i : nat) (hasSiblingsOfType : bool)
  : nat * bool :=
  match idx with
  | O => (i, hasSiblingsOfType)
  | S j =>
      let node := Node (Child j :: q) in
      if (nodeType doc node =? 1)
         && String.eqb (toLowerCase tagName)
                       (toLowerCase (tagName_of doc node))
      then indexedSelector_loop q j tagName (S i) true
      else indexedSelector_loop q j tagName i hasSiblingsOfType
  end.

Definition indexedSelector (node : ref) : string :=
  let tagName := default EmptyString (localName_of doc node) in
  let '(i, hasSiblingsOfType) :=
    match node with
    | Node (Child idx :: q) => indexedSelector_loop q idx tagName 1 false
    | _ => (1, false)
    end in
  if hasSiblingsOfType
  then tagName +:+ ":nth-of-type(" +:+ of_nat i +:+ ")"
  else tagName.

(** One turn of the [while (context)] loop of [pathSelector]. *)
Definition pathSelector_step (context : ref) (pathSelector : option string)
  : option string :=
  if truthy (localName_of doc context) then
    let indexSelector := indexedSelector context in
    let delimiter :=
      if truthy pathSelector then " > " +:+ to_string pathSelector
      else EmptyString in
    let delimiter :=
      match shadowRoot doc context with
      | Some sr =>
          if bool_decide (sr ≠ getRootNode context)
          then "::shadow " +:+ to_string pathSelector
          else delimiter
      | None => delimiter
      end in
    Some (indexSelector +:+ delimiter)
  else pathSelector.

Fixpoint pathSelector_loop (context : ref) (path : list ref)
    (pathSelector : option string) : option string :=
  let pathSelector := pathSelector_step context pathSelector in
  match path with
  | [] => pathSelector
  | context' :: path' => pathSelector_loop context' path' pathSelector
  end.

(** [pathSelector(path)]: the address (or [undefined]) and the cache
    afterwards. On an empty array [el] is [undefined] and reading its
    property raises. *)
Definition pathSelector (cache : selector_cache) (path : list ref)
  : result (option string) * selector_cache :=
  match path with
  | [] => (Throw TypeError, cache)
  | el :: path' =>
      if truthy (cache el) then (Ok (cache el), cache)
      else
        let pathSelector := pathSelector_loop el path' None in
        (Ok pathSelector, cache_set cache el pathSelector)
  end.

(** The [while (parts.length)] loop of [pathLocator]. [root] is [None]
    when the last element found has no open shadow root. *)
Fixpoint pathLocator_loop (parts : list string) (root : option ref)
    (el : option ref) : result (option ref) :=
  match parts with
  | [] => Ok el
  | part :: parts' =>
      match root with
      | None => Throw TypeError
      | Some r =>
          match querySelector doc r part with
          | Throw e => Throw e
          | Ok None => Ok None
          | Ok (Some found) =>
              pathLocator_loop parts' (shadowRoot doc found) (Some found)
          end
      end
  end.

Definition pathLocator (path : string) : result (option ref) :=
  pathLocator_loop (split path "::shadow ") (Some (Node [])) None.

(** [event.composedPath()] during dispatch, for an event whose target
    is the node at [p] and which no slot redistributes: the node, its
    ancestors through every shadow root, the document, the window. *)
Fixpoint ancestors (p : list step) : list ref :=
  match p with
  | [] => [Node []]
  | _ :: q => Node p :: ancestors q
  end.

Definition composedPath_of (p : list step) : list ref :=
  ancestors p ++ [Window].

End Codec.

Module Samples.
Definition leaf (tag : string) : node := Element tag [] None.

(** <!doctype><html><head/><body><div/> <div><span/></div><p/></body></html> *)
Definition page : document :=
  [ Text "doctype";
    Element "html"
      [ Element "head" [] None;
        Element "body"
          [ leaf "div"; Text " "; Element "div" [leaf "span"] None; leaf "p" ]
          None ]
      None ].

(** A page whose body holds a host; the host's shadow tree is
    <section><div><span/></div></section><div><span/></div>. *)
Definition shadowed : document :=
  [ Element "html"
      [ Element "body"
          [ Element "x-host" []
              (Some [ Element "section" [Element "div" [leaf "span"] None]
                        None;
                      Element "div" [leaf "span"] None ]) ]
          None ]
      None ].

(** The span of the second top-level node of the shadow tree, and the
    span inside the section. *)
Definition outer_span : list step :=
  [Child 0; Child 1; Shadow; Child 0; Child 0; Child 0].
Definition section_span : list step :=
  [Child 0; Child 0; Child 0; Shadow; Child 0; Child 0; Child 0].

(** A page whose body holds a host with a paragraph in its shadow
    tree, next to a plain list. *)
Definition hosted : document :=
  [ Text "doctype";
    Element "html"
      [ Element "head" [] None;
        Element "body"
          [ Element "ul" [leaf "li"; leaf "li"; leaf "li"] None;
            Element "x-card" []
              (Some [ leaf "h2"; Element "div" [leaf "p"; leaf "p"] None ]) ]
          None ]
      None ].

Definition card_paragraph : list step :=
  [Child 1; Child 1; Shadow; Child 1; Child 1; Child 1].

(** A page whose body holds a host with the shadow tree
    <style/><div><div><h2/></div><div><p/><p/></div></div>: its [div]
    elements are nested in one another. *)
Definition nested : document :=
  [ Element "html"
      [ Element "body"
          [ Element "x-card" []
              (Some [ leaf "style";
                      Element "div"
                        [ Element "div" [leaf "h2"] None;
                          Element "div" [leaf "p"; leaf "p"] None ]
                        None ]) ]
          None ]
      None ].

(** The elements of the shadow tree of [nested], in tree order. *)
Definition nested_elements : list (list step) :=
  (fun ix => ix ++ [Shadow; Child 0; Child 0; Child 0])
  <$> [ [Child 0]; [Child 1]; [Child 0; Child 1];
        [Child 0; Child 0; Child 1]; [Child 1; Child 1];
        [Child 0; Child 1; Child 1]; [Child 1; Child 1; Child 1] ].

Definition nested_paragraph : list step :=
  [Child 1; Child 1; Child 1; Shadow; Child 0; Child 0; Child 0].
End Samples.

(* ===================================================================== *)
(** * The cursors widget                                                   *)
(* ===================================================================== *)

(** ** Data *)

(** A marker element cloned from the widget's template: its [id]
    attribute, [style.color], and [style.transform], which is unset or
    [translate(x px, y px)] (pixel coordinates as integers). *)
Record Marker : Type := {
  marker_id : string;
  marker_color : string;
  transform : option (Z * Z)
}.

(** An instance of [class Cursor]. [el] is the handle of its marker
    element; [deadline] is [undefined] until [keepalive] sets it. *)
Record Cursor : Type := {
  cursor_id : string;
  el : nat;
  deadline : option Z
}.

Record Location : Type := {
  loc_path : string;
  loc_x : Z;
  loc_y : Z
}.

(** An inbound message, well-formed: [{event, id, color, location}]. *)
Record Message : Type := {
  msg_event : string;
  msg_id : string;
  msg_color : string;
  msg_location : Location
}.

(** An argument of [channel.whisper]. *)
Record Whisper : Type := {
  w_event : string;
  w_id : string;
  w_color : string;
  w_path : option string;
  w_x : Z;
  w_y : Z
}.

Record MouseEvent : Type := {
  clientX : Z;
  clientY : Z;
  event_path : list ref   (* the propagation path, target first *)
}.

(** What a pending timer runs: the reaper's callback, or the trailing
    call of the debounced pointer handler. *)
Inductive callback : Type :=
| Reap
| Trailing (e : MouseEvent).

Record timer : Type := {
  timer_id : nat;
  due : Z;
  job : callback
}.

(** The widget's attributes, read once by the constructor. [throttle] is
    the result of [parseInt]: [None] stands for [NaN]. *)
Record Config : Type := {
  userId : string;
  color : string;
  throttle : option Z
}.

(** The page around the widget: the document tree, element geometry
    ([getBoundingClientRect()]: left and top) and the scroll offsets of
    the document element. *)
Record Page : Type := {
  page_doc : document;
  bounding : list step -> Z * Z;
  scrollLeft : Z;
  scrollTop : Z
}.

(** The mutable state: the fields of [this], the render root, the
    listener registration on [document], the timer queue, and what has
    been whispered to the channel. *)
Record State : Type := {
  connected : bool;
  cursors : gmap string Cursor;
  _tid : option nat;
  markers : gmap nat Marker;     (* every marker element, by handle *)
  renderRoot : list nat;         (* the markers attached, in tree order *)
  listening : bool;              (* [_handleMove] registered for mousemove *)
  timers : list timer;
  next_timer : nat;
  debounce_timer : option nat;   (* the [timer] variable of the debouncer *)
  whispers : list Whisper;
  cache : selector_cache
}.

Definition set_connected (v : bool) (st : State) : State :=
  {| connected := v; cursors := cursors st; _tid := _tid st;
     markers := markers st; renderRoot := renderRoot st;
     listening := listening st; timers := timers st;
     next_timer := next_timer st; debounce_timer := debounce_timer st;
     whispers := whispers st; cache := cache st |}.

Definition set_cursors (v : gmap string Cursor) (st : State) : State :=
  {| connected := connected st; cursors := v; _tid := _tid st;
     markers := markers st; renderRoot := renderRoot st;
     listening := listening st; timers := timers st;
     next_timer := next_timer st; debounce_timer := debounce_timer st;
     whispers := whispers st; cache := cache st |}.

Definition set_tid (v : option nat) (st : State) : State :=
  {| connected := connected st; cursors := cursors st; _tid := v;
     markers := markers st; renderRoot := renderRoot st;
     listening := listening st; timers := timers st;
     next_timer := next_timer st; debounce_timer := debounce_timer st;
     whispers := whispers st; cache := cache st |}.

Definition set_markers (v : gmap nat Marker) (st : State) : State :=
  {| connected := connected st; cursors := cursors st; _tid := _tid st;
     markers := v; renderRoot := renderRoot st;
     listening := listening st; timers := timers st;
     next_timer := next_timer st; debounce_timer := debounce_timer st;
     whispers := whispers st; cache := cache st |}.

Definition set_renderRoot (v : list nat) (st : State) : State :=
  {| connected := connected st; cursors := cursors st; _tid := _tid st;
     markers := markers st; renderRoot := v;
     listening := listening st; timers := timers st;
     next_timer := next_timer st; debounce_timer := debounce_timer st;
     whispers := whispers st; cache := cache st |}.

Definition set_listening (v : bool) (st : State) : State :=
  {| connected := connected st; cursors := cursors st; _tid := _tid st;
     markers := markers st; renderRoot := renderRoot st;
     listening := v; timers := timers st;
     next_timer := next_timer st; debounce_timer := debounce_timer st;
     whispers := whispers st; cache := cache st |}.

Definition set_timers (v : list timer) (n : nat) (st : State) : State :=
  {| connected := connected st; cursors := cursors st; _tid := _tid st;
     markers := markers st; renderRoot := renderRoot st;
     listening := listening st; timers := v;
     next_timer := n; debounce_timer := debounce_timer st;
     whispers := whispers st; cache := cache st |}.

Definition set_debounce_timer (v : option nat) (st : State) : State :=
  {| connected := connected st; cursors := cursors st; _tid := _tid st;
     markers := markers st; renderRoot := renderRoot st;
     listening := listening st; timers := timers st;
     next_timer := next_timer st; debounce_timer := v;
     whispers := whispers st; cache := cache st |}.

Definition set_whispers (v : list Whisper) (c : selector_cache) (st : State)
  : State :=
  {| connected := connected st; cursors := cursors st; _tid := _tid st;
     markers := markers st; renderRoot := renderRoot st;
     listening := listening st; timers := timers st;
     next_timer := next_timer st; debounce_timer := debounce_timer st;
     whispers := v; cache := c |}.

(** The state the constructor leaves: [connected = false], [cursors = {}],
    nothing rendered but the template, no timer. Timer ids start at 1,
    as in browsers. *)
Definition initial : State :=
  {| connected := false; cursors := ∅; _tid := None;
     markers := ∅; renderRoot := []; listening := false; timers := [];
     next_timer := 1; debounce_timer := None; whispers := [];
     cache := no_cache |}.

(** ** The store as a plain object *)

(** The names of the members every plain object inherits from
    [Object.prototype]. *)
Definition Object_prototype : list string :=
  [ "constructor"; "__defineGetter__"; "__defineSetter__";
    "hasOwnProperty"; "__lookupGetter__"; "__lookupSetter__";
    "isPrototypeOf"; "propertyIsEnumerable"; "toString"; "valueOf";
    "__proto__"; "toLocaleString" ].

Definition inherited (id : string) : bool :=
  existsb (String.eqb id) Object_prototype.

(** What [this.cursors[id]] reads: the cursor stored under [id]; else,
    under an inherited name, a function or (for [__proto__]) the
    prototype, which are truthy and have no [keepalive]; else
    [undefined]. *)
Inductive member : Type :=
| Own (c : Cursor)
| Inherited
| Undefined.

Definition get (o : gmap string Cursor) (id : string) : member :=
  match o !! id with
  | Some c => Own c
  | None => if inherited id then Inherited else Undefined
  end.

(** ** Timers *)

Definition setTimeout (j : callback) (delay now : Z) (st : State) : nat * State :=
  let id := next_timer st in
  (id, set_timers (timers st ++ [{| timer_id := id; due := now + delay;
                                    job := j |}]) (S id) st).

Definition clearTimeout (id : option nat) (st : State) : State :=
  match id with
  | Some n =>
      set_timers (List.filter (fun t => negb (timer_id t =? n)) (timers st))
                 (next_timer st) st
  | None => st
  end.

(** Truthiness of a timer id: a number other than 0. *)
Definition truthy_id (v : option nat) : bool :=
  match v with
  | Some (S _) => true
  | _ => false
  end.

(** ** class Cursor *)

Section Widget.
Variable cfg : Config.
Variable page : Page.

(** [keepalive(location)] on a cursor: the cursor and the marker
    elements afterwards. When [pathLocator] gives nothing it returns
    at once; an exception of [pathLocator] propagates. *)
Definition keepalive (now : Z) (location : Location) (c : Cursor)
    (ms : gmap nat Marker) : result (Cursor * gmap nat Marker) :=
  match pathLocator (page_doc page) (loc_path location) with
  | Throw e => Throw e
  | Ok None => Ok (c, ms)
  | Ok (Some Window) => Throw TypeError
  | Ok (Some (Node p)) =>
      let rect := bounding page p in
      let newX := (scrollLeft page + rect.1 + loc_x location)%Z in
      let newY := (scrollTop page + rect.2 + loc_y location)%Z in
      Ok ({| cursor_id := cursor_id c; el := el c; deadline := Some now |},
          alter (fun m => {| marker_id := marker_id m;
                             marker_color := marker_color m;
                             transform := Some (newX, newY) |})
                (el c) ms)
  end.

(** [get expired()]: [Date.now() - this.deadline > 2000]. *)
Definition expired (now : Z) (c : Cursor) : bool :=
  gt (sub (Num now) (to_number (deadline c))) (Num 2000).

(** [die()]: [this.el.remove()]. *)
Definition die (c : Cursor) (st : State) : State :=
  set_renderRoot (List.filter (fun h => negb (h =? el c)) (renderRoot st)) st.

(** ** AnyCableCursorsElement *)

Definition getElementById (st : State) (name : string) : option nat :=
  List.find (fun h => match markers st !! h with
                      | Some m => String.eqb (marker_id m) name
                      | None => false
                      end) (renderRoot st).

(** [_createCursor(id, color)]: clone the template, label and colour the
    clone, append it to the render root, and wrap the element that
    [getElementById] then finds under that label. *)
Definition _createCursor (id color : string) (st : State) : Cursor * State :=
  let h := fresh (dom (markers st)) in
  let name := "cursor-" +:+ id in
  let st := set_markers (<[h := {| marker_id := name; marker_color := color;
                                   transform := None |}]> (markers st)) st in
  let st := set_renderRoot (renderRoot st ++ [h]) st in
  ({| cursor_id := id; el := default h (getElementById st name);
      deadline := None |}, st).

(** The body of the [for (const id in this.cursors)] loop. *)
Definition sweep_one (now : Z) (st : State) (id : string) : State :=
  match cursors st !! id with
  | Some cursor =>
      if expired now cursor
      then set_cursors (delete id (cursors st)) (die cursor st)
      else st
  | None => st
  end.

(** [_invalidateCursors()]. The loop runs over the keys present when it
    starts; then a timer is armed unless [_tid] holds one. *)
Definition _invalidateCursors (now : Z) (st : State) : State :=
  let st := foldl (sweep_one now) st (map_to_list (cursors st)).*1 in
  if truthy_id (_tid st) then st
  else
    let '(id, st) := setTimeout Reap 500 now st in
    set_tid (Some id) st.

(** [_handleMessage(msg)]. The cursor object stored under [id] is the
    one [keepalive] updates. Under an inherited name nothing is created,
    since what is read is truthy, and the call of its [keepalive], which
    is [undefined], raises. *)
Definition _handleMessage (now : Z) (msg : Message) (st : State)
  : State * option error :=
  if String.eqb (msg_event msg) "move" then
    let id := msg_id msg in
    let st :=
      match get (cursors st) id with
      | Undefined =>
          let '(c, st) := _createCursor id (msg_color msg) st in
          set_cursors (<[id := c]> (cursors st)) st
      | _ => st
      end in
    match get (cursors st) id with
    | Own cursor =>
        match keepalive now (msg_location msg) cursor (markers st) with
        | Throw e => (st, Some e)
        | Ok (cursor, ms) =>
            let st := set_cursors (<[id := cursor]> (cursors st))
                                  (set_markers ms st) in
            (_invalidateCursors now st, None)
        end
    | _ => (st, Some TypeError)
    end
  else (st, None).

(** [_handleMove(e)] itself. [dispatching] tells whether the event is
    still being dispatched: once dispatch is over [e.composedPath()] is
    the empty array. *)
Definition _handleMove (dispatching : bool) (e : MouseEvent) (st : State)
  : State * option error :=
  let composedPath := if dispatching then event_path e else [] in
  match composedPath with
  | Node p :: _ =>
      match resolve (page_doc page) p with
      | Some (Item (Element _ _ _)) =>
          let rect := bounding page p in
          let x := (clientX e - rect.1)%Z in
          let y := (clientY e - rect.2)%Z in
          match pathSelector (page_doc page) (cache st) composedPath with
          | (Ok path, c) =>
              (set_whispers
                 (whispers st ++ [{| w_event := "move"; w_id := userId cfg;
                                     w_color := color cfg; w_path := path;
                                     w_x := x; w_y := y |}]) c st, None)
          | (Throw err, c) => (set_whispers (whispers st) c st, Some err)
          end
      | _ => (st, Some TypeError)
      end
  | _ => (st, Some TypeError)
  end.

(** Modelled from the spec: [debounce] is imported from a package that
    is not part of the sources. The spec describes it as coalescing a
    burst of events into a single trailing emission, sent after the
    interval of quiet with the last event of the burst: every call
    cancels the pending trailing call and schedules a new one. *)
Definition debounced (wait now : Z) (e : MouseEvent) (st : State) : State :=
  let st := clearTimeout (debounce_timer st) st in
  let '(id, st) := setTimeout (Trailing e) wait now st in
  set_debounce_timer (Some id) st.

(** The listener the constructor installs as [this._handleMove]:
    debounced when [this.throttle] is truthy. *)
Definition mousemove_listener (now : Z) (e : MouseEvent) (st : State)
  : State * option error :=
  match throttle cfg with
  | Some wait =>
      if (wait =? 0)%Z then _handleMove true e st
      else (debounced wait now e st, None)
  | None => _handleMove true e st
  end.

Definition _start (st : State) : State := set_listening true st.

(** [_stop()]: the listener is removed, then [this._cursor.die()] is
    evaluated; no code assigns [_cursor]. *)
Definition _stop (st : State) : State * option error :=
  (set_listening false st, Some TypeError).

(** [disconnectedCallback()], with [this.cable] set. *)
Definition disconnectedCallback (st : State) : State :=
  set_connected false (set_cursors ∅ st).

(** ** Reactions *)

Inductive input : Type :=
| ChannelConnect
| ChannelDisconnect
| ChannelMessage (msg : Message)
| MouseMove (e : MouseEvent)
| TimerFires (id : nat)
| Detach.

Definition fire (now : Z) (id : nat) (st : State) : State * option error :=
  match List.find (fun t => timer_id t =? id) (timers st) with
  | None => (st, None)
  | Some t =>
      let st := clearTimeout (Some id) st in
      match job t with
      | Reap => (_invalidateCursors now (set_tid None st), None)
      | Trailing e => _handleMove false e st
      end
  end.

(** One reaction of the widget at time [now]: the state afterwards and
    the exception the callback ended with, if any. *)
Definition react (now : Z) (i : input) (st : State) : State * option error :=
  match i with
  | ChannelConnect => (_start (set_connected true st), None)
  | ChannelDisconnect => _stop (set_connected false st)
  | ChannelMessage msg => _handleMessage now msg st
  | MouseMove e =>
      if listening st then mousemove_listener now e st else (st, None)
  | TimerFires id => fire now id st
  | Detach => (disconnectedCallback st, None)
  end.

(** The timer that fires next at or before [now]: the earliest due,
    the oldest among equals. *)
Fixpoint earliest (best : option timer) (l : list timer) : option timer :=
  match l with
  | [] => best
  | t :: l' =>
      match best with
      | Some b => earliest (if (due t <? due b)%Z then Some t else best) l'
      | None => earliest (Some t) l'
      end
  end.

Definition next_due (now : Z) (st : State) : option timer :=
  match earliest None (timers st) with
  | Some t => if (due t <=? now)%Z then Some t else None
  | None => None
  end.

(** Run the timers due up to [now], at most [fuel] of them, collecting
    the exceptions their callbacks end with. *)
Fixpoint run_timers (fuel : nat) (now : Z) (st : State)
  : State * list error :=
  match fuel with
  | O => (st, [])
  | S fuel' =>
      match next_due now st with
      | None => (st, [])
      | Some t =>
          let '(st, err) := fire (due t) (timer_id t) st in
          let '(st, errs) := run_timers fuel' now st in
          (st, option_list err ++ errs)
      end
  end.

(** A timeline of inputs, each with its time; before each input the
    timers due by then run. *)
Fixpoint run (fuel : nat) (events : list (Z * input)) (st : State)
  : State * list error :=
  match events with
  | [] => (st, [])
  | (t, i) :: events' =>
      let '(st, errs1) := run_timers fuel t st in
      let '(st, err) := react t i st in
      let '(st, errs2) := run fuel events' st in
      (st, errs1 ++ option_list err ++ errs2)
  end.

End Widget.

(** ** Sample pages, messages and timelines *)

Module Scenario.
Import Samples.

Definition pg : Page :=
  {| page_doc := page; bounding := fun _ => (10, 20)%Z;
     scrollLeft := 0%Z; scrollTop := 0%Z |}.

Definition unthrottled : Config :=
  {| userId := "me"; color := "red"; throttle := None |}.

Definition throttled : Config :=
  {| userId := "me"; color := "red"; throttle := Some 100%Z |}.

(** A move message whose address names no element of [page]. *)
Definition lost : Message :=
  {| msg_event := "move"; msg_id := "bob"; msg_color := "blue";
     msg_location := {| loc_path := "html > body > h1";
                        loc_x := 1%Z; loc_y := 2%Z |} |}.

(** A move message whose address resolves to the paragraph. *)
Definition found : Message :=
  {| msg_event := "move"; msg_id := "ann"; msg_color := "green";
     msg_location := {| loc_path := "html > body > p";
                        loc_x := 1%Z; loc_y := 2%Z |} |}.

(** A move message, with an address that resolves, from a participant
    whose id is the name of a member that objects inherit. *)
Definition namesake : Message :=
  {| msg_event := "move"; msg_id := "constructor"; msg_color := "blue";
     msg_location := {| loc_path := "html > body > p";
                        loc_x := 1%Z; loc_y := 2%Z |} |}.

(** After [lost] at time 0: one cursor that was never located. *)
Definition after_lost : State := (_handleMessage pg 0%Z lost initial).1.

(** After [found] at time 0: one cursor with deadline 0. *)
Definition after_found : State := (_handleMessage pg 0%Z found initial).1.

(** A pointer event over the span of [page], and a burst of them: one
    every 10 ms from 0 to 500 ms. *)
Definition over_span (k : nat) : MouseEvent :=
  {| clientX := Z.of_nat k; clientY := 5%Z;
     event_path := composedPath_of [Child 0; Child 2; Child 1; Child 1] |}.

Definition burst : list (Z * input) :=
  (fun k => ((10 * Z.of_nat k)%Z, MouseMove (over_span k))) <$> seq 0 51.

Definition active : State := _start (set_connected true initial).

End Scenario.

(* ===================================================================== *)
(** * Vocabulary of the statements                                         *)
(* ===================================================================== *)

(** What a sweep at [now] does to an entry. *)
Definition survives (now : Z) (c : Cursor) : option Cursor :=
  if expired now c then None else Some c.

(** Every stored cursor wraps a marker labelled with its key. *)
Definition labelled (st : State) : Prop :=
  forall k c, cursors st !! k = Some c ->
    exists m, markers st !! el c = Some m /\ marker_id m = "cursor-" +:+ k.

(** When [_tid] holds a timer id, that timer is pending and runs the
    reaper. *)
Definition armed (st : State) : Prop :=
  forall id, _tid st = Some id -> truthy_id (Some id) = true ->
    exists t, t ∈ timers st /\ timer_id t = id /\ job t = Reap.

(** The reaper timers that are pending. *)
Definition pending_reaps (st : State) : list timer :=
  List.filter (fun t => match job t with Reap => true | _ => false end)
              (timers st).

(** ** The structure of an address *)

(** An address read back as signatures: the segment a signature is
    written as, the compound selector it is parsed to, and a part (the
    text between two boundary markers) as the list of its segments,
    outermost first. *)
Definition render_segment (s : Css.signature) : string :=
  if snd s =? 1 then fst s
  else fst s +:+ ":nth-of-type(" +:+ of_nat (snd s) +:+ ")".

Definition compound_of (s : Css.signature) : Css.compound :=
  if snd s =? 1 then Css.TypeSel (fst s) else Css.NthOfType (fst s) (snd s).

Fixpoint render_part (sigs : list Css.signature) : string :=
  match sigs with
  | [] => EmptyString
  | [s] => render_segment s
  | s :: rest => render_segment s +:+ " > " +:+ render_part rest
  end.

Definition not_space (c : ascii) : bool := negb (Ascii.eqb " " c).
Definition not_colon (c : ascii) : bool := negb (Ascii.eqb ":" c).
Definition not_paren (c : ascii) : bool := negb (Ascii.eqb ")" c).
Definition is_digit (c : ascii) : bool :=
  (48 <=? nat_of_ascii c) && (nat_of_ascii c <=? 57).

(** The characters of segments: no space, and no colon or closing
    parenthesis but those the encoder writes itself. *)
Definition plain_char (c : ascii) : bool :=
  not_space c && not_colon c && not_paren c.

(** Every colon is followed by the letter n. *)
Fixpoint colon_n (s : string) : bool :=
  match s with
  | EmptyString => true
  | String c s' =>
      (if Ascii.eqb ":" c
       then match s' with
            | String d _ => Ascii.eqb "n" d
            | EmptyString => false
            end
       else true) && colon_n s'
  end.

(** ** Tree order *)

(** A name as the HTML parser leaves it: without upper-case letters. *)
Definition lower_name (tag : string) : bool :=
  String.eqb (toLowerCase tag) tag.

(** The elements of the subtree of [n] that [sel] matches, in tree
    order, each as the child indices leading to it. [sibs], [idx] and
    [stack] are as for [Css.find_node]. *)
Fixpoint matched (sel : list Css.compound) (stack : list Css.signature)
    (sibs : list node) (idx : nat) (n : node) {struct n}
  : list (list nat) :=
  match n with
  | Text _ => []
  | Element tag kids _ =>
      let chain := Css.signature_at tag sibs idx :: stack in
      (if Css.matches sel chain then [[idx]] else [])
      ++ (cons idx <$>
            (fix scan (i : nat) (rest : list node) {struct rest}
               : list (list nat) :=
               match rest with
               | [] => []
               | k :: rest' => matched sel chain kids i k ++ scan (S i) rest'
               end) 0 kids)
  end.

Fixpoint matched_in (sel : list Css.compound) (stack : list Css.signature)
    (sibs : list node) (i : nat) (rest : list node) : list (list nat) :=
  match rest with
  | [] => []
  | k :: rest' =>
      matched sel stack sibs i k ++ matched_in sel stack sibs (S i) rest'
  end.

(** The elements that [sel] matches among those that come before the
    element at [ix] in tree order, its ancestors apart: the matches in
    the subtrees of the earlier siblings of the element and of each of
    its ancestors. *)
Fixpoint rivals (sel : list Css.compound) (stack : list Css.signature)
    (sibs : list node) (ix : list nat) : list (list nat) :=
  match ix with
  | [] => []
  | i :: rest =>
      matched_in sel stack sibs 0 (take i sibs)
      ++ match sibs !! i with
         | Some (Element tag kids _) =>
             cons i <$> rivals sel (Css.signature_at tag sibs i :: stack)
                          kids rest
         | _ => []
         end
  end.

(** The signatures met when descending from the sibling list [sibs]
    along the child indices [path], outermost first. *)
Fixpoint walk (sibs : list node) (path : list nat)
  : option (list Css.signature) :=
  match path with
  | [] => Some []
  | i :: rest =>
      match sibs !! i with
      | Some (Element tag kids _) =>
          cons (Css.signature_at tag sibs i) <$> walk kids rest
      | _ => None
      end
  end.

(** The child nodes reached by descending from [sibs] along [path]. *)
Fixpoint descend (sibs : list node) (path : list nat) : option (list node) :=
  match path with
  | [] => Some sibs
  | i :: rest =>
      match sibs !! i with
      | Some (Element _ kids _) => descend kids rest
      | _ => None
      end
  end.

(** ** The chain of a target *)

Section Chain.
Variable doc : document.

(** The node at [p] is an element with an open shadow root. *)
Definition is_host (p : list step) : bool :=
  match resolve doc p with
  | Some (Item (Element _ _ (Some _))) => true
  | _ => false
  end.

Definition signature_of (p : list step) : option Css.signature :=
  match p with
  | Child i :: q =>
      match resolve doc q, resolve doc p with
      | Some v, Some (Item (Element tag _ _)) =>
          Some (Css.signature_at tag (children v) i)
      | _, _ => None
      end
  | _ => None
  end.

(** The child indices and the signatures from [p] out to the root of its
    tree (the document or a shadow root), innermost first. *)
Fixpoint scope_ix (p : list step) : list nat :=
  match p with
  | Child i :: q => i :: scope_ix q
  | _ => []
  end.

Fixpoint scope_sigs (p : list step) : list Css.signature :=
  match p with
  | Child i :: q =>
      match signature_of p with
      | Some s => s :: scope_sigs q
      | None => scope_sigs q
      end
  | _ => []
  end.

(** The parts of the address that lie outside the tree of [p]: one for
    each shadow root crossed, innermost first; each part lists its
    signatures outermost first. *)
Fixpoint closed_parts (p : list step) : list (list Css.signature) :=
  match p with
  | [] => []
  | Shadow :: q => rev (scope_sigs q) :: closed_parts q
  | Child _ :: q => closed_parts q
  end.

Fixpoint closed_str (parts : list (list Css.signature)) : string :=
  match parts with
  | [] => EmptyString
  | part :: rest => closed_str rest +:+ render_part part +:+ "::shadow "
  end.

Fixpoint open_str (sigs : list Css.signature) : string :=
  match sigs with
  | [] => EmptyString
  | s :: rest => open_str rest +:+ render_segment s +:+ " > "
  end.

(** What the loop of [pathSelector] writes in front of the address of
    the inner elements while it passes [p] and its ancestors. *)
Fixpoint prefix_str (p : list step) : string :=
  match p with
  | [] => EmptyString
  | Shadow :: q => prefix_str q
  | Child _ :: q =>
      prefix_str q +:+
      (if truthy (localName_of doc (Node p))
       then indexedSelector doc (Node p) +:+
            (if is_host p then "::shadow " else " > ")
       else EmptyString)
  end.

(** The chain from [p] outwards is plain: every step is an element
    whose name is an identifier without upper-case letters; no sibling
    element before it has that name in another case; and it lies in
    the document, in a shadow tree, or under an element that is not a
    host. *)
Fixpoint chain_plain (p : list step) : bool :=
  match p with
  | [] => true
  | Shadow :: q => chain_plain q
  | Child i :: q =>
      chain_plain q &&
      match resolve doc q, resolve doc p with
      | Some v, Some (Item (Element tag _ _)) =>
          Css.is_ident tag && lower_name tag
          && (Css.count_same tag (take i (children v))
              =? Css.count_named tag (take i (children v)))
          && match v with
             | Container _ => true
             | Item (Element _ _ None) => true
             | Item _ => false
             end
      | _, _ => false
      end
  end.

(** The selector that the part written for the element at [p] parses
    to, innermost compound first. *)
Definition part_selector (p : list step) : list Css.compound :=
  compound_of <$> scope_sigs p.

(** In the tree of [p], nothing that comes before the element at [p] in
    tree order is matched by the part written for it. *)
Definition part_unrivalled (p : list step) : bool :=
  match resolve doc (root_of p) with
  | Some (Container kids) =>
      match rivals (part_selector p) [] kids (rev (scope_ix p)) with
      | [] => true
      | _ :: _ => false
      end
  | _ => false
  end.

(** The same of every host the chain leaves a shadow tree through. *)
Fixpoint hosts_unrivalled (p : list step) : bool :=
  match p with
  | [] => true
  | Shadow :: q => part_unrivalled q && hosts_unrivalled q
  | Child _ :: q => hosts_unrivalled q
  end.

(** In each tree the chain crosses, the element of the chain that a
    part is written for is the first in tree order that the part
    matches. *)
Definition unrivalled (p : list step) : bool :=
  part_unrivalled p && hosts_unrivalled p.

(** The address cached on the node at [p], if any, is the one computed
    on this tree. *)
Definition cache_current (cache : selector_cache) (p : list step) : Prop :=
  truthy (cache (Node p)) = true ->
  Ok (cache (Node p)) = (pathSelector doc no_cache (composedPath_of p)).1.

End Chain.

(** The propagation path above the node at [p]. *)
Definition above (p : list step) : list ref :=
  match p with
  | [] => []
  | _ :: q => ancestors q
  end.

(** ** Invariants of the widget's state *)

(** Timer ids are positive, distinct and below the next id; the timer
    [_tid] names is pending and runs the reaper; the timer the debouncer
    holds, if still pending, does not. *)
Definition timers_ok (st : State) : Prop :=
  NoDup (timer_id <$> timers st)
  /\ (forall t, t ∈ timers st -> 0 < timer_id t < next_timer st)
  /\ 0 < next_timer st
  /\ (forall id, _tid st = Some id ->
        exists t, t ∈ timers st /\ timer_id t = id /\ job t = Reap)
  /\ (forall d, debounce_timer st = Some d ->
        d < next_timer st
        /\ forall t, t ∈ timers st -> timer_id t = d -> job t <> Reap).

Definition invariant (st : State) : Prop := labelled st /\ timers_ok st.

(** Splits [timers_ok] into its five clauses. *)
Ltac split_timers_ok :=
  unfold timers_ok; split; [|split; [|split; [|split]]].

(** ** Further vocabulary: positions, reaper timers, delivery *)

(** The number of shadow roots a position lies inside. *)
Definition shadow_depth (p : list step) : nat :=
  length (List.filter (fun s => match s with
                                | Shadow => true
                                | Child _ => false
                                end) p).

(** Every pending reaper timer is the one [_tid] names. *)
Definition sole_reaper (st : State) : Prop :=
  forall t, t ∈ timers st -> job t = Reap -> _tid st = Some (timer_id t).

(** Every stored cursor carries the key it is stored under. *)
Definition keyed (st : State) : Prop :=
  forall k c, cursors st !! k = Some c -> cursor_id c = k.

(** Every marker attached to the render root is a marker element. *)
Definition attached (st : State) : Prop :=
  forall h, h ∈ renderRoot st -> is_Some (markers st !! h).

(** What every reaction of the widget preserves, taken together. *)
Definition sound (st : State) : Prop :=
  invariant st /\ sole_reaper st /\ keyed st /\ attached st.

(** Where [keepalive] puts a marker for a location inside the element
    at [p]. *)
Definition placement (page : Page) (p : list step) (x y : Z) : Z * Z :=
  ((scrollLeft page + (bounding page p).1 + x)%Z,
   (scrollTop page + (bounding page p).2 + y)%Z).

(** The message that carries the fields of a whisper whose address is
    defined: the same event, id, colour and location. *)
Definition as_message (w : Whisper) : option Message :=
  match w_path w with
  | Some address =>
      Some {| msg_event := w_event w; msg_id := w_id w;
              msg_color := w_color w;
              msg_location := {| loc_path := address; loc_x := w_x w;
                                 loc_y := w_y w |} |}
  | None => None
  end.

(** When the store holds a cursor that was located, a reaper timer is
    pending. *)
Definition watched (st : State) : Prop :=
  (exists k c, cursors st !! k = Some c /\ deadline c <> None) ->
  exists r, r ∈ timers st /\ job r = Reap.

(** How many timer callbacks a pending timer stands for up to time [T]:
    one for a trailing call, one for each 500 ms step of a reaper. *)
Definition weight (T : Z) (t : timer) : nat :=
  if (due t <=? T)%Z
  then match job t with
       | Reap => S (Z.to_nat ((T - due t) / 500))
       | Trailing _ => 1
       end
  else 0.

Fixpoint load (T : Z) (l : list timer) : nat :=
  match l with
  | [] => 0
  | t :: rest => weight T t + load T rest
  end.

(** A whisper the widget sends in its own name. *)
Definition own_move (cfg : Config) (w : Whisper) : Prop :=
  w_event w = "move" /\ w_id w = userId cfg /\ w_color w = color cfg.

(** The render root mirrors the store: each attached marker is wrapped
    by a stored cursor, and the marker of each stored cursor is
    attached. *)
Definition mirrored (st : State) : Prop :=
  (forall h, h ∈ renderRoot st ->
     exists k c, cursors st !! k = Some c /\ el c = h)
  /\ (forall k c, cursors st !! k = Some c -> el c ∈ renderRoot st).

(** No entry is stored under a name that objects inherit. *)
Definition plain_keys (st : State) : Prop :=
  forall k, inherited k = true -> cursors st !! k = None.

(* ===================================================================== *)
(** * The logs element: records and lines                                  *)
(* ===================================================================== *)

(** The data side of [AnyCableLogsElement]: [flatten], [_compileLog],
    [_append], the reset of [disconnectedCallback], and the filter
    ([_filter], [_matchFilter], [_filteredLines]). Rendering and the
    event source are not modelled.

    What the model fixes about the platform:
    - a parsed record is a JSON value; numbers are integers, rendered in
      decimal notation, and strings are sequences of code units;
    - the fields of an object are listed in the order [for ... in] visits
      them: array indices in ascending order, then the other keys in
      the order they were created;
    - assigning a primitive to the key [__proto__] of a plain object
      does nothing (the inherited setter ignores it);
    - [JSON.parse], [JSON.stringify] and the matching of regular
      expressions are left abstract; a regular expression with the
      global flag keeps its [lastIndex] between calls of [test]. *)
Module Logs.

#[local] Unset Elimination Schemes.
Inductive json : Type :=
| JNull
| JBool (b : bool)
| JNum (n : Z)
| JStr (s : string)
| JArr (items : list json)
| JObj (fields : list (string * json)).
#[local] Set Elimination Schemes.

(** A plain object: its own properties in enumeration order. *)
Definition obj : Type := list (string * json).

(** [typeof v === "object"]: objects, arrays and [null]. *)
Definition typeof_object (v : json) : bool :=
  match v with
  | JNull | JArr _ | JObj _ => true
  | JBool _ | JNum _ | JStr _ => false
  end.

(** [!v]. *)
Definition falsy (v : json) : bool :=
  match v with
  | JNull => true
  | JBool b => negb b
  | JNum n => (n =? 0)%Z
  | JStr s => String.eqb s ""
  | JArr _ | JObj _ => false
  end.

(** The array index a property key denotes, if any: a canonical decimal
    numeral below 2^32 - 1. *)
Definition array_index (k : string) : option N :=
  match NilEmpty.uint_of_string k with
  | Some d =>
      let n := N.of_uint d in
      if String.eqb (NilEmpty.string_of_uint (N.to_uint n)) k
         && (n <? 4294967295)%N
      then Some n else None
  | None => None
  end.

(** Whether [o] has the property [k]. *)
Definition has_key (k : string) (o : obj) : bool :=
  existsb (fun kv => String.eqb kv.1 k) o.

(** Overwrite the value of the property [k], where it is. *)
Fixpoint replace (k : string) (v : json) (o : obj) : obj :=
  match o with
  | [] => []
  | (k', v') :: rest =>
      if String.eqb k' k then (k, v) :: rest
      else (k', v') :: replace k v rest
  end.

(** Create the property [k], an array index [n], at its place among the
    array indices. *)
Fixpoint insert_index (n : N) (k : string) (v : json) (o : obj) : obj :=
  match o with
  | [] => [(k, v)]
  | (k', v') :: rest =>
      match array_index k' with
      | Some n' =>
          if (n' <? n)%N then (k', v') :: insert_index n k v rest
          else (k, v) :: o
      | None => (k, v) :: o
      end
  end.

(** [o[k] = v] for a primitive [v]. *)
Definition obj_set (k : string) (v : json) (o : obj) : obj :=
  if String.eqb k "__proto__" then o
  else if has_key k o then replace k v o
  else match array_index k with
       | Some n => insert_index n k v o
       | None => o ++ [(k, v)]
       end.

(** [data[k]] for an own property [k] of a plain object. *)
Definition obj_get (k : string) (o : obj) : option json :=
  snd <$> List.find (fun kv => String.eqb kv.1 k) o.

(** [keyPrefix] of [flatten]. *)
Definition keyPrefix (prefix : string) : string :=
  if truthy (Some prefix) then prefix +:+ "." else "".

(** The effect of [flatten(data, acc, prefix)] on [acc] for [data] an
    object, an array or [null]: the [for ... in] loop (on [null] it has
    nothing to visit). The keys of an array are its indices. *)
Fixpoint flatten_loop (data : json) (acc : obj) (prefix : string)
    {struct data} : obj :=
  match data with
  | JObj fields =>
      (fix each (fs : list (string * json)) (acc : obj) {struct fs} : obj :=
         match fs with
         | [] => acc
         | (key, val) :: rest =>
             each rest
               (if falsy val then acc
                else if typeof_object val
                     then flatten_loop val acc (keyPrefix prefix +:+ key)
                     else obj_set (keyPrefix prefix +:+ key) val acc)
         end) fields acc
  | JArr items =>
      (fix each (i : nat) (l : list json) (acc : obj) {struct l} : obj :=
         match l with
         | [] => acc
         | val :: rest =>
             each (S i) rest
               (if falsy val then acc
                else if typeof_object val
                     then flatten_loop val acc (keyPrefix prefix +:+ of_nat i)
                     else obj_set (keyPrefix prefix +:+ of_nat i) val acc)
         end) 0 items acc
  | JNull | JBool _ | JNum _ | JStr _ => acc
  end.

(** [flatten(data, acc, prefix)]: what it returns. The call from
    [_append] is [flatten data [] EmptyString], the default arguments. *)
Definition flatten (data : json) (acc : obj) (prefix : string) : json :=
  if negb (typeof_object data)
  then if truthy (Some prefix) then JObj acc else data
  else JObj (flatten_loop data acc prefix).

(** The items of a list under their indices, from [i] on. *)
Fixpoint indexed {A : Type} (i : nat) (l : list A) : list (string * A) :=
  match l with
  | [] => []
  | x :: rest => (of_nat i, x) :: indexed (S i) rest
  end.

Definition code_units (s : string) : list json :=
  (fun c => JStr (String c EmptyString)) <$> list_ascii_of_string s.

(** The properties [for ... in] visits with their values: the fields of
    an object, the items of an array under their indices, the code
    units of a string under theirs; nothing for the other values. *)
Definition entries (v : json) : list (string * json) :=
  match v with
  | JObj fields => fields
  | JArr items => indexed 0 items
  | JStr s => indexed 0 (code_units s)
  | JNull | JBool _ | JNum _ => []
  end.

(** [data[k]] for [k] one of [time], [level], [msg]: a property that
    only an object can have. *)
Definition field (data : json) (k : string) : option json :=
  match data with
  | JObj fields => obj_get k fields
  | _ => None
  end.

(** [array.join(sep)] on strings. *)
Fixpoint join (sep : string) (l : list string) : string :=
  match l with
  | [] => EmptyString
  | x :: rest =>
      match rest with
      | [] => x
      | _ :: _ => x +:+ sep +:+ join sep rest
      end
  end.

(** The text a template literal gives for a value. An array is its
    items joined by commas, [null] items giving nothing. *)
Fixpoint to_text (v : json) : string :=
  match v with
  | JNull => "null"
  | JBool b => if b then "true" else "false"
  | JNum n => NilEmpty.string_of_int (Z.to_int n)
  | JStr s => s
  | JArr items =>
      join ","
        ((fix each (l : list json) : list string :=
            match l with
            | [] => []
            | x :: rest =>
                match x with
                | JNull => EmptyString
                | _ => to_text x
                end :: each rest
            end) items)
  | JObj _ => "[object Object]"
  end.

(** The same for a value that may be [undefined]. *)
Definition text_of (v : option json) : string :=
  match v with
  | Some v => to_text v
  | None => "undefined"
  end.

Definition RESERVED_ATTRS : list string := ["time"; "level"; "msg"].

Definition includes (l : list string) (s : string) : bool :=
  existsb (String.eqb s) l.

(** A line of the console. *)
Record Line : Type := {
  data : json;
  raw : string;
  id : nat
}.

(** A regular expression object with the global flag: its source and
    the [lastIndex] it keeps from one [test] to the next. *)
Record RegExp : Type := {
  source : string;
  lastIndex : nat
}.

(** The fields of the element that hold the lines and the filter.
    [filterRx] is [undefined] until [_filter] builds an expression. *)
Record State : Type := {
  linesCount : nat;
  lines : list Line;
  filter : string;
  filterRx : option RegExp;
  shouldScroll : bool
}.

Definition set_lines (count : nat) (items : list Line) (st : State) : State :=
  {| linesCount := count; lines := items; filter := filter st;
     filterRx := filterRx st; shouldScroll := shouldScroll st |}.

Definition set_filter (query : string) (st : State) : State :=
  {| linesCount := linesCount st; lines := lines st; filter := query;
     filterRx := filterRx st; shouldScroll := shouldScroll st |}.

Definition set_filterRx (rx : option RegExp) (st : State) : State :=
  {| linesCount := linesCount st; lines := lines st; filter := filter st;
     filterRx := rx; shouldScroll := shouldScroll st |}.

Definition set_shouldScroll (v : bool) (st : State) : State :=
  {| linesCount := linesCount st; lines := lines st; filter := filter st;
     filterRx := filterRx st; shouldScroll := v |}.

(** What the constructor leaves. *)
Definition initial : State :=
  {| linesCount := 0; lines := []; filter := EmptyString; filterRx := None;
     shouldScroll := false |}.

Section Element.
(** [JSON.parse]: [None] when it throws. *)
Variable JSON_parse : string -> option json.
Variable JSON_stringify : json -> string.
(** Regular expressions: whether the constructor accepts a source, and
    where the first match of the expression in a string, searched from
    an index on, ends. *)
Variable RegExp_accepts : string -> bool.
Variable RegExp_match : string -> string -> nat -> option nat.

(** One turn of the loop of [_compileLog]. *)
Definition compile_attr (buf : list string) (kv : string * json)
  : list string :=
  let '(attr, val) := kv in
  if includes RESERVED_ATTRS attr then buf
  else if falsy val then buf
  else
    let val := if typeof_object val then JStr (JSON_stringify val)
               else val in
    buf ++ [attr +:+ "=" +:+ to_text val].

Definition _compileLog (data : json) : string :=
  let ts := field data "time" in
  let level := field data "level" in
  let message := field data "msg" in
  let buf := foldl compile_attr [] (entries data) in
  text_of ts +:+ " " +:+ text_of level +:+ " " +:+ text_of message
  +:+ " " +:+ join " " buf.

(** [_append(data)] for a string [data]. *)
Definition _append (text : string) (st : State) : State :=
  if negb (truthy (Some text)) then st
  else
    match JSON_parse text with
    | None => st
    | Some data =>
        let data := flatten data [] EmptyString in
        let count := S (linesCount st) in
        set_lines count
          (lines st ++ [{| data := data; raw := _compileLog data;
                           id := count |}]) st
    end.

(** [disconnectedCallback()], with [this.source] set: the lines are
    dropped, the count stays. *)
Definition disconnectedCallback (st : State) : State :=
  set_lines (linesCount st) [] st.

(** [_filter(query)]. The constructor of the expression raises on a
    source it does not accept; the filter is set by then. *)
Definition _filter (query : string) (st : State) : State * option error :=
  let st := set_filter query st in
  if truthy (Some query) then
    let pattern := "((?:^|>)[^<>]*?)(" +:+ query +:+ ")" in
    if RegExp_accepts pattern
    then (set_shouldScroll true
            (set_filterRx (Some {| source := pattern; lastIndex := 0 |}) st),
          None)
    else (st, Some SyntaxError)
  else (set_shouldScroll true st, None).

(** [rx.test(s)] for a global expression: the search starts at
    [lastIndex], which a match moves to its end and a failure resets. *)
Definition test (rx : RegExp) (s : string) : bool * RegExp :=
  if String.length s <? lastIndex rx
  then (false, {| source := source rx; lastIndex := 0 |})
  else
    match RegExp_match (source rx) s (lastIndex rx) with
    | Some e => (true, {| source := source rx; lastIndex := e |})
    | None => (false, {| source := source rx; lastIndex := 0 |})
    end.

(** [_matchFilter(item)]. *)
Definition _matchFilter (item : Line) (st : State) : result bool * State :=
  if truthy (Some (filter st)) then
    match filterRx st with
    | Some rx =>
        let '(found, rx) := test rx (raw item) in
        (Ok found, set_filterRx (Some rx) st)
    | None => (Throw TypeError, st)
    end
  else (Ok true, st).

(** [items.filter((item) => this._matchFilter(item))]. *)
Fixpoint filter_lines (items : list Line) (st : State)
  : result (list Line) * State :=
  match items with
  | [] => (Ok [], st)
  | item :: rest =>
      match _matchFilter item st with
      | (Ok found, st) =>
          match filter_lines rest st with
          | (Ok kept, st) => (Ok (if found then item :: kept else kept), st)
          | (Throw e, st) => (Throw e, st)
          end
      | (Throw e, st) => (Throw e, st)
      end
  end.

(** [get _filteredLines()]. *)
Definition _filteredLines (st : State) : result (list Line) * State :=
  filter_lines (lines st) st.

(** What happens to the lines and the filter: an [_append], the reset,
    a [_filter]. *)
Inductive action : Type :=
| Append (text : string)
| Reset
| Filter (query : string).

Definition perform (st : State) (a : action) : State :=
  match a with
  | Append text => _append text st
  | Reset => disconnectedCallback st
  | Filter query => (_filter query st).1
  end.

Definition run (actions : list action) (st : State) : State :=
  foldl perform st actions.

End Element.

End Logs.

(** ** Vocabulary of the statements about records and lines *)

(** A truthy primitive: what [flatten] stores. *)
Definition leaf (v : Logs.json) : bool :=
  negb (Logs.falsy v) && negb (Logs.typeof_object v).

(** The enumeration order of property keys: array indices in ascending
    order, then the other keys. *)
Definition precedes (k k' : string) : Prop :=
  match Logs.array_index k, Logs.array_index k' with
  | Some n, Some m => (n < m)%N
  | Some _, None => True
  | None, Some _ => False
  | None, None => True
  end.

Fixpoint ordered (ks : list string) : Prop :=
  match ks with
  | [] => True
  | k :: rest => Forall (precedes k) rest /\ ordered rest
  end.

(** A flat record: distinct keys in enumeration order, none of them
    [__proto__], every value a truthy primitive. *)
Definition flat_record (o : Logs.obj) : Prop :=
  NoDup (fst <$> o) /\ ordered (fst <$> o) /\ ("__proto__" ∉ (fst <$> o))
  /\ Forall (fun kv => leaf kv.2 = true) o.

(** One turn of the loop of [flatten]. *)
Definition visit (prefix : string) (acc : Logs.obj) (kv : string * Logs.json)
  : Logs.obj :=
  if Logs.falsy kv.2 then acc
  else if Logs.typeof_object kv.2
       then Logs.flatten_loop kv.2 acc (Logs.keyPrefix prefix +:+ kv.1)
       else Logs.obj_set (Logs.keyPrefix prefix +:+ kv.1) kv.2 acc.

(** Strictly increasing numbers. *)
Fixpoint increasing (ns : list nat) : Prop :=
  match ns with
  | [] => True
  | n :: rest => Forall (lt n) rest /\ increasing rest
  end.

(** The ids of the lines are increasing, positive and not above the
    count. *)
Definition numbered (st : Logs.State) : Prop :=
  increasing (Logs.id <$> Logs.lines st)
  /\ Forall (fun l => 0 < Logs.id l <= Logs.linesCount st) (Logs.lines st).

(** The text of an attribute in a compiled line. *)
Definition attr_text (kv : string * Logs.json) : string :=
  kv.1 +:+ "=" +:+ Logs.to_text kv.2.

Definition unreserved (kv : string * Logs.json) : bool :=
  negb (Logs.includes Logs.RESERVED_ATTRS kv.1).

(** A key without a dot. *)
Definition dotless (k : string) : bool :=
  Css.all_chars (fun c => negb (Ascii.eqb "." c)) k.

(** The properties the loop of [flatten] visits: those of an object or
    an array. *)
Definition members (d : Logs.json) : list (string * Logs.json) :=
  match d with
  | Logs.JObj fields => fields
  | Logs.JArr items => Logs.indexed 0 items
  | _ => []
  end.

(** The value reached from [d] by following the keys of [path]. *)
Fixpoint at_path (d : Logs.json) (path : list string) : option Logs.json :=
  match path with
  | [] => Some d
  | k :: rest =>
      match Logs.obj_get k (members d) with
      | Some v => at_path v rest
      | None => None
      end
  end.

(** A key that can be told apart in a dotted name: not empty, no dot. *)
Definition plain_key (k : string) : bool :=
  dotless k && negb (String.eqb k "").

Definition distinct_keys (o : Logs.obj) : bool :=
  bool_decide (NoDup (fst <$> o)).

(** Everywhere in [d], the keys of an object are plain and distinct. *)
Fixpoint well_keyed (d : Logs.json) : bool :=
  match d with
  | Logs.JObj fields =>
      distinct_keys fields
      && (fix each (fs : list (string * Logs.json)) : bool :=
            match fs with
            | [] => true
            | (k, v) :: rest => plain_key k && well_keyed v && each rest
            end) fields
  | Logs.JArr items =>
      (fix each (l : list Logs.json) : bool :=
         match l with
         | [] => true
         | v :: rest => well_keyed v && each rest
         end) items
  | _ => true
  end.

(** Every other item of a list, from the first one on. *)
Fixpoint every_other {A : Type} (l : list A) : list A :=
  match l with
  | [] => []
  | x :: rest =>
      x :: match rest with
           | [] => []
           | _ :: rest' => every_other rest'
           end
  end.

(** In [s] the expression matches at the start, over at least one
    character, and nowhere further on. *)
Definition matches_at_start_only
    (RegExp_match : string -> string -> nat -> option nat)
    (pattern s : string) : Prop :=
  (exists e, RegExp_match pattern s 0 = Some e /\ 0 < e)
  /\ forall i, 0 < i -> RegExp_match pattern s i = None.

(** A sample record, as the server sends them. *)
Module Records.

Definition broadcast : Logs.obj :=
  [ ("time", Logs.JStr "2024-03-01T10:00:00Z");
    ("level", Logs.JStr "INFO");
    ("msg", Logs.JStr "broadcast");
    ("stream", Logs.JStr "chat_1");
    ("nodes", Logs.JNum 0);
    ("context", Logs.JObj [ ("sid", Logs.JStr "abc");
                             ("tags", Logs.JArr [Logs.JStr "a"; Logs.JNull]);
                             ("retry", Logs.JBool false) ]) ].

(** A console of three lines. *)
Definition console : Logs.State :=
  {| Logs.linesCount := 3;
     Logs.lines :=
       [ {| Logs.data := Logs.JObj [("level", Logs.JStr "INFO")];
            Logs.raw := "undefined INFO undefined "; Logs.id := 1 |};
         {| Logs.data := Logs.JObj [("level", Logs.JStr "INFO")];
            Logs.raw := "undefined INFO undefined "; Logs.id := 2 |};
         {| Logs.data := Logs.JObj [("level", Logs.JStr "INFO")];
            Logs.raw := "undefined INFO undefined "; Logs.id := 3 |} ];
     Logs.filter := EmptyString; Logs.filterRx := None;
     Logs.shouldScroll := false |}.

(** A matcher that finds one match, at the start of a string that is
    not empty. *)
Definition first_character (pattern s : string) (i : nat) : option nat :=
  if (i =? 0) && negb (String.eqb s EmptyString) then Some 1 else None.

End Records.

(* ===================================================================== *)
(** * Properties of the address codec                                      *)
(* ===================================================================== *)

Section Strings.

Lemma lower_upper_ascii c : lower_ascii (upper_ascii c) = lower_ascii c.
Proof. by destruct c as [[] [] [] [] [] [] [] []]. Qed.

Lemma toLowerCase_toUpperCase s : toLowerCase (toUpperCase s) = toLowerCase s.
Proof.
  induction s as [|c s IH]; [done|]. simpl. by rewrite IH, lower_upper_ascii.
Qed.

Lemma append_cons x (a b : string) : String x a +:+ b = String x (a +:+ b).
Proof. reflexivity. Qed.

Lemma append_nil_l (s : string) : "" +:+ s = s.
Proof. reflexivity. Qed.

Lemma append_nil_r s : s +:+ "" = s.
Proof.
  induction s as [|c s IH]; [done|]. by rewrite append_cons, IH.
Qed.

Lemma append_assoc (a b c : string) : (a +:+ b) +:+ c = a +:+ (b +:+ c).
Proof.
  induction a as [|x a IH]; [done|]. by rewrite !append_cons, IH.
Qed.

Lemma append_same_l (a b : string) : a +:+ b = a -> b = "".
Proof.
  induction a as [|x a IH]; [done|]. rewrite append_cons.
  intros [= H]. by apply IH.
Qed.

End Strings.

Section Segment.
Variable doc : document.

Lemma resolve_child q idx v :
  resolve doc q = Some v ->
  resolve doc (Child idx :: q) = Item <$> (children v !! idx).
Proof. intros H. cbn. by rewrite H. Qed.

Lemma count_same_snoc tag l n :
  Css.count_same tag (l ++ [n])
  = Css.count_same tag l + (if Css.same_type tag n then 1 else 0).
Proof.
  unfold Css.count_same. rewrite List.filter_app, length_app. cbn.
  by destruct (Css.same_type tag n).
Qed.

(** The loop counts the element siblings of the same tag before [idx]. *)
Lemma indexedSelector_loop_count q v idx tag i has :
  resolve doc q = Some v ->
  let n := Css.count_same tag (take idx (children v)) in
  indexedSelector_loop doc q idx tag i has = (i + n, has || (0 <? n)).
Proof.
  intros Hq. revert i has. induction idx as [|j IH]; intros i has.
  - cbn. rewrite take_0. cbn. by rewrite Nat.add_0_r, orb_false_r.
  - cbn [indexedSelector_loop].
    unfold nodeType, tagName_of, localName_of, lookup_ref.
    rewrite (resolve_child q j v Hq).
    destruct (children v !! j) as [x|] eqn:Hx; cbn [fmap option_fmap option_map].
    + rewrite (take_S_r _ _ _ Hx), count_same_snoc.
      destruct x as [data|tag' kids sh]; cbn [Css.same_type].
      * cbn. rewrite IH. cbn. by rewrite Nat.add_0_r.
      * rewrite toLowerCase_toUpperCase. cbn [Nat.eqb andb].
        destruct (String.eqb _ _).
        -- rewrite IH. cbn. f_equal; [lia|].
           rewrite Nat.add_1_r. by rewrite orb_true_r.
        -- rewrite IH. cbn. by rewrite Nat.add_0_r.
    + cbn. rewrite IH. cbn.
      apply lookup_ge_None in Hx.
      by rewrite !take_ge by lia.
Qed.

(** The loop of [indexedSelector] follows [previousSibling] from the
    node down to the first child. *)
Lemma previousSibling_steps q j :
  previousSibling (Node (Child (S j) :: q)) = Some (Node (Child j :: q))
  /\ previousSibling (Node (Child 0 :: q)) = None.
Proof. split; reflexivity. Qed.

Lemma indexedSelector_counts q idx v tag kids sh :
  resolve doc q = Some v ->
  children v !! idx = Some (Element tag kids sh) ->
  let n := Css.count_same tag (take idx (children v)) in
  indexedSelector doc (Node (Child idx :: q))
  = if n =? 0 then tag
    else tag +:+ ":nth-of-type(" +:+ of_nat (S n) +:+ ")".
Proof.
  intros Hq Hx n.
  unfold indexedSelector, localName_of, lookup_ref.
  rewrite (resolve_child q idx v Hq), Hx.
  cbn [fmap option_fmap option_map default from_option id].
  rewrite (indexedSelector_loop_count q v idx tag 1 false Hq).
  fold n. cbn [orb]. by destruct n as [|m].
Qed.

(** C8, as amended. The segment of an element is its bare tag name
    exactly when no element sibling before it has its tag (compared
    without regard to case), whether or not a later sibling has it;
    otherwise it is the tag name followed by [:nth-of-type(k)], k being
    one more than the number of element siblings before it that have
    its tag. *)
Theorem segment_counts_preceding_siblings (q : list step) (idx : nat)
    (v : view) (tag : string) (kids : list node)
    (sh : option (list node)) :
  resolve doc q = Some v ->
  children v !! idx = Some (Element tag kids sh) ->
  let n := Css.count_same tag (take idx (children v)) in
  indexedSelector doc (Node (Child idx :: q))
  = (if n =? 0 then tag
     else tag +:+ ":nth-of-type(" +:+ of_nat (S n) +:+ ")")
  /\ (indexedSelector doc (Node (Child idx :: q)) = tag <-> n = 0).
Proof.
  intros Hq Hx n.
  pose proof (indexedSelector_counts q idx v tag kids sh Hq Hx) as E.
  cbv zeta in E. fold n in E.
  split; [exact E|]. rewrite E. destruct n as [|m]; cbn [Nat.eqb].
  - done.
  - split; [|done]. intros H%append_same_l. discriminate H.
Qed.

End Segment.

(** C8, counterexample. The first [div] of the body is followed by
    another [div], so it is not the only element of its tag among its
    siblings; its segment is the bare tag all the same. *)
Lemma first_of_several_gets_bare_tag :
  resolve Samples.page [Child 1; Child 1]
  = Some (Item (Element "body"
       [ Samples.leaf "div"; Text " ";
         Element "div" [Samples.leaf "span"] None; Samples.leaf "p" ] None))
  /\ Css.count_same "div"
       [ Samples.leaf "div"; Text " ";
         Element "div" [Samples.leaf "span"] None; Samples.leaf "p" ] = 2
  /\ indexedSelector Samples.page (Node [Child 0; Child 1; Child 1]) = "div".
Proof. vm_compute. repeat split; reflexivity. Qed.

Lemma segment_counts_preceding_siblings_witness :
  indexedSelector Samples.page (Node [Child 2; Child 1; Child 1])
  = "div:nth-of-type(2)".
Proof.
  exact (proj1 (segment_counts_preceding_siblings Samples.page
    [Child 1; Child 1] 2 _ "div" [Samples.leaf "span"] None
    eq_refl eq_refl)).
Defined.

Section NoPartialResolution.
Variable doc : document.

(** When a part is not found the loop stops and nothing is returned,
    whatever had been found for the parts before. *)
Lemma pathLocator_loop_not_found part rest r found :
  querySelector doc r part = Ok None ->
  pathLocator_loop doc (part :: rest) (Some r) found = Ok None.
Proof. intros H. cbn. by rewrite H. Qed.

End NoPartialResolution.

(** C7. [pathLocator] raises. The first part of the address resolves to
    the first [div] of the body, which has no shadow root: [root] becomes
    null and the next turn of the loop calls [querySelector] on it, a
    TypeError. A part that is not a selector (here the empty string)
    makes [querySelector] itself raise a SyntaxError. *)
Theorem pathLocator_raises :
  querySelector Samples.page (Node []) "html > body > div"
  = Ok (Some (Node [Child 0; Child 1; Child 1]))
  /\ shadowRoot Samples.page (Node [Child 0; Child 1; Child 1]) = None
  /\ pathLocator Samples.page "html > body > div::shadow span"
     = Throw TypeError
  /\ pathLocator Samples.page "" = Throw SyntaxError.
Proof. vm_compute. repeat split; reflexivity. Qed.

(** C1. The round trip is missed. The target is the span of the [div]
    that is the second top-level node of the host's shadow tree. Its
    chain encodes to an address whose last part, [div > span], is
    looked up from the shadow root, where nothing anchors it to the
    top of the tree, and first matches the span inside the section, a
    different element. The tree is the same for both calls. *)
Lemma roundtrip_finds_other_element :
  (pathSelector Samples.shadowed no_cache
     (composedPath_of Samples.outer_span)).1
  = Ok (Some "html > body > x-host::shadow div > span")
  /\ pathLocator Samples.shadowed "html > body > x-host::shadow div > span"
     = Ok (Some (Node Samples.section_span))
  /\ Samples.section_span <> Samples.outer_span.
Proof. vm_compute. repeat split; try reflexivity. discriminate. Qed.

(** A target that is itself a host: the loop starts on it with no inner
    address, and the boundary marker is followed by the text of
    [undefined]; the address names nothing. *)
Lemma host_target_address_is_lost :
  shadowRoot Samples.hosted (Node [Child 1; Child 1; Child 1])
  = Some (Node [Shadow; Child 1; Child 1; Child 1])
  /\ (pathSelector Samples.hosted no_cache
        (composedPath_of [Child 1; Child 1; Child 1])).1
     = Ok (Some "html > body > x-card::shadow undefined")
  /\ pathLocator Samples.hosted "html > body > x-card::shadow undefined"
     = Ok None.
Proof. vm_compute. repeat split; reflexivity. Qed.

(* ===================================================================== *)
(** * Round trip of the codec                                              *)
(* ===================================================================== *)

(** ** Splitting and parsing what the encoder writes *)

Section Splitting.

Lemma all_chars_app f (a b : string) :
  Css.all_chars f (a +:+ b) = Css.all_chars f a && Css.all_chars f b.
Proof.
  induction a as [|c a IH]; [done|].
  rewrite append_cons. cbn [Css.all_chars]. by rewrite IH, andb_assoc.
Qed.

Lemma all_chars_weaken (f g : ascii -> bool) s :
  (forall c, f c = true -> g c = true) ->
  Css.all_chars f s = true -> Css.all_chars g s = true.
Proof.
  intros Hfg. induction s as [|c s IH]; [done|]. cbn [Css.all_chars].
  intros [H1 H2]%andb_true_iff. by rewrite (Hfg _ H1), IH.
Qed.

Lemma split_go_skip sep (u b : string) :
  split_go sep (String.length u) (u +:+ b) = split_go sep 0 b.
Proof.
  induction u as [|c u IH]; [by destruct b|].
  rewrite append_cons. cbn [String.length split_go]. exact IH.
Qed.

Lemma prefix_same c (p s : string) :
  String.prefix (String c p) (String c s) = String.prefix p s.
Proof. cbn [String.prefix]. by destruct (ascii_dec c c). Qed.

Lemma prefix_self (p s : string) : String.prefix p (p +:+ s) = true.
Proof.
  induction p as [|c p IH]; [by destruct s|].
  by rewrite append_cons, prefix_same.
Qed.

Lemma split_child_cons (a b : string) :
  Css.all_chars not_space a = true ->
  split (a +:+ " > " +:+ b) " > " = a :: split b " > ".
Proof.
  unfold split. induction a as [|c a IH]; intros Ha.
  - rewrite append_nil_l.
    pose proof (prefix_self " > " b) as Hp.
    change (" > " +:+ b) with (String " " ("> " +:+ b)) in Hp |- *.
    cbn [split_go]. rewrite Hp.
    change (String.length " > " - 1) with (String.length "> ").
    by rewrite split_go_skip.
  - cbn [Css.all_chars] in Ha. apply andb_true_iff in Ha as [Hc Ha].
    rewrite append_cons. cbn [split_go].
    replace (String.prefix " > " (String c (a +:+ " > " +:+ b))) with false.
    + by rewrite (IH Ha).
    + cbn [String.prefix]. destruct (ascii_dec " " c) as [<-|]; [|done].
      discriminate Hc.
Qed.

Lemma split_child_last (a : string) :
  Css.all_chars not_space a = true -> split a " > " = [a].
Proof.
  unfold split. induction a as [|c a IH]; intros Ha; [done|].
  cbn [Css.all_chars] in Ha. apply andb_true_iff in Ha as [Hc Ha].
  cbn [split_go].
  replace (String.prefix " > " (String c a)) with false.
  - by rewrite (IH Ha).
  - cbn [String.prefix]. destruct (ascii_dec " " c) as [<-|]; [|done].
    discriminate Hc.
Qed.

Lemma colon_n_app (a b : string) :
  colon_n a = true -> colon_n b = true -> colon_n (a +:+ b) = true.
Proof.
  induction a as [|c a IH]; intros Ha Hb; [done|].
  rewrite append_cons. cbn [colon_n] in Ha |- *.
  apply andb_true_iff in Ha as [Hc Ha]. rewrite (IH Ha Hb), andb_true_r.
  destruct (Ascii.eqb ":" c); [|done].
  destruct a as [|d a]; [done|]. by rewrite append_cons.
Qed.

Lemma colon_n_no_colon s :
  Css.all_chars not_colon s = true -> colon_n s = true.
Proof.
  induction s as [|c s IH]; [done|]. cbn [Css.all_chars colon_n].
  intros [Hc Hs]%andb_true_iff. rewrite (IH Hs), andb_true_r.
  unfold not_colon in Hc. by destruct (Ascii.eqb ":" c).
Qed.

Lemma shadow_prefix_false c (a b : string) :
  colon_n (String c a) = true ->
  String.prefix "::shadow " (String c (a +:+ b)) = false.
Proof.
  cbn [colon_n]. intros [Hc _]%andb_true_iff.
  destruct (ascii_dec ":" c) as [<-|Hne].
  - change (Ascii.eqb ":" ":") with true in Hc. cbv iota in Hc.
    destruct a as [|d a]; [done|]. rewrite append_cons.
    apply Ascii.eqb_eq in Hc as <-. rewrite prefix_same.
    cbn [String.prefix]. by destruct (ascii_dec ":" "n").
  - cbn [String.prefix]. by destruct (ascii_dec ":" c).
Qed.

Lemma split_shadow_cons (a b : string) :
  colon_n a = true ->
  split (a +:+ "::shadow " +:+ b) "::shadow " = a :: split b "::shadow ".
Proof.
  unfold split. induction a as [|c a IH]; intros Ha.
  - rewrite append_nil_l.
    pose proof (prefix_self "::shadow " b) as Hp.
    change ("::shadow " +:+ b) with (String ":" (":shadow " +:+ b)) in Hp |- *.
    cbn [split_go]. rewrite Hp.
    change (String.length "::shadow " - 1) with (String.length ":shadow ").
    by rewrite split_go_skip.
  - rewrite append_cons. cbn [split_go].
    rewrite (shadow_prefix_false c a _ Ha).
    cbn [colon_n] in Ha. apply andb_true_iff in Ha as [_ Ha].
    by rewrite (IH Ha).
Qed.

Lemma split_shadow_last (a : string) :
  colon_n a = true -> split a "::shadow " = [a].
Proof.
  unfold split. induction a as [|c a IH]; intros Ha; [done|].
  cbn [split_go].
  pose proof (shadow_prefix_false c a "" Ha) as Hp.
  rewrite append_nil_r in Hp. rewrite Hp.
  cbn [colon_n] in Ha. apply andb_true_iff in Ha as [_ Ha].
  by rewrite (IH Ha).
Qed.

End Splitting.

Section Parsing.

Lemma name_char_plain c : Css.is_name_char c = true -> plain_char c = true.
Proof. by destruct c as [[] [] [] [] [] [] [] []]. Qed.

Lemma alpha_name_char c : Css.is_alpha c = true -> Css.is_name_char c = true.
Proof. by destruct c as [[] [] [] [] [] [] [] []]. Qed.

Lemma digit_plain c : is_digit c = true -> plain_char c = true.
Proof. by destruct c as [[] [] [] [] [] [] [] []]. Qed.

Lemma plain_not_space c : plain_char c = true -> not_space c = true.
Proof. unfold plain_char. by intros [[? _]%andb_true_iff _]%andb_true_iff. Qed.

Lemma plain_not_colon c : plain_char c = true -> not_colon c = true.
Proof. unfold plain_char. by intros [[_ ?]%andb_true_iff _]%andb_true_iff. Qed.

Lemma plain_not_paren c : plain_char c = true -> not_paren c = true.
Proof. unfold plain_char. by intros [_ ?]%andb_true_iff. Qed.

Lemma ident_plain tag :
  Css.is_ident tag = true -> Css.all_chars plain_char tag = true.
Proof.
  destruct tag as [|c tag]; [done|]. cbn [Css.is_ident Css.all_chars].
  intros [Hc Ht]%andb_true_iff.
  rewrite (name_char_plain c (alpha_name_char c Hc)). cbn [andb].
  by apply (all_chars_weaken Css.is_name_char), Ht; apply name_char_plain.
Qed.

Lemma digits_are_digits d :
  Css.all_chars is_digit (NilEmpty.string_of_uint d) = true.
Proof. induction d; cbn; by rewrite ?IHd. Qed.

Lemma of_nat_plain n : Css.all_chars plain_char (of_nat n) = true.
Proof.
  apply (all_chars_weaken is_digit); [apply digit_plain|].
  apply digits_are_digits.
Qed.

Lemma of_nat_nonempty n : of_nat n <> "".
Proof.
  unfold of_nat. intros H.
  assert (Hn : Nat.to_uint n = Nil).
  { destruct (Nat.to_uint n); try discriminate H. done. }
  assert (n = 0) as ->.
  { rewrite <- (DecimalNat.Unsigned.of_to n), Hn. reflexivity. }
  discriminate Hn.
Qed.

Lemma of_nat_parse n :
  Nat.of_uint <$> NilEmpty.uint_of_string (of_nat n) = Some n.
Proof.
  unfold of_nat. rewrite NilEmpty.usu. cbn.
  by rewrite DecimalNat.Unsigned.of_to.
Qed.

Lemma cut_found c (a b : string) :
  Css.all_chars (fun d => negb (Ascii.eqb c d)) a = true ->
  Css.cut c (a +:+ String c b) = (a, Some b).
Proof.
  induction a as [|d a IH]; intros Ha.
  - rewrite append_nil_l. cbn [Css.cut]. by rewrite Ascii.eqb_refl.
  - cbn [Css.all_chars] in Ha. apply andb_true_iff in Ha as [Hd Ha].
    rewrite append_cons. cbn [Css.cut]. rewrite (IH Ha).
    by destruct (Ascii.eqb c d).
Qed.

Lemma cut_missing c (a : string) :
  Css.all_chars (fun d => negb (Ascii.eqb c d)) a = true ->
  Css.cut c a = (a, None).
Proof.
  induction a as [|d a IH]; intros Ha; [done|].
  cbn [Css.all_chars] in Ha. apply andb_true_iff in Ha as [Hd Ha].
  cbn [Css.cut]. rewrite (IH Ha). by destruct (Ascii.eqb c d).
Qed.

Lemma parse_ordinal_rendered n :
  Css.parse_ordinal ("nth-of-type(" +:+ of_nat n +:+ ")") = Some n.
Proof.
  unfold Css.parse_ordinal.
  change (Css.strip_prefix "nth-of-type(" ("nth-of-type(" +:+ of_nat n +:+ ")"))
    with (Some (of_nat n +:+ ")")).
  cbv iota.
  rewrite (cut_found ")" (of_nat n) "").
  - pose proof (of_nat_nonempty n) as Hne.
    destruct (of_nat n) eqn:E; [done|]. rewrite <- E. apply of_nat_parse.
  - apply (all_chars_weaken plain_char); [apply plain_not_paren|].
    apply of_nat_plain.
Qed.

Lemma parse_rendered_segment (s : Css.signature) :
  Css.is_ident (fst s) = true ->
  Css.parse_compound (render_segment s) = Some (compound_of s).
Proof.
  intros Hid. unfold render_segment, compound_of, Css.parse_compound.
  assert (Hnc : Css.all_chars (fun d => negb (Ascii.eqb ":" d)) (fst s) = true).
  { apply (all_chars_weaken plain_char); [apply plain_not_colon|].
    by apply ident_plain. }
  destruct (snd s =? 1).
  - by rewrite (cut_missing ":" _ Hnc), Hid.
  - change (":nth-of-type(" +:+ of_nat (snd s) +:+ ")")
      with (String ":" ("nth-of-type(" +:+ of_nat (snd s) +:+ ")")).
    rewrite (cut_found ":" _ _ Hnc), Hid, parse_ordinal_rendered. done.
Qed.

Lemma rendered_segment_plain (s : Css.signature) :
  Css.is_ident (fst s) = true ->
  Css.all_chars not_space (render_segment s) = true
  /\ colon_n (render_segment s) = true.
Proof.
  intros Hid. pose proof (ident_plain _ Hid) as Hp.
  unfold render_segment. destruct (snd s =? 1).
  - split.
    + by apply (all_chars_weaken plain_char), Hp; apply plain_not_space.
    + apply colon_n_no_colon.
      by apply (all_chars_weaken plain_char), Hp; apply plain_not_colon.
  - split.
    + rewrite !all_chars_app.
      rewrite (all_chars_weaken plain_char not_space _ plain_not_space Hp).
      rewrite (all_chars_weaken plain_char not_space _ plain_not_space
                 (of_nat_plain _)).
      reflexivity.
    + apply colon_n_app; [|apply colon_n_app; [done|apply colon_n_app; [|done]]].
      * apply colon_n_no_colon.
        by apply (all_chars_weaken plain_char), Hp; apply plain_not_colon.
      * apply colon_n_no_colon.
        apply (all_chars_weaken plain_char); [apply plain_not_colon|].
        apply of_nat_plain.
Qed.

(** A part the encoder wrote parses to the compounds of its signatures. *)
Lemma parse_rendered_part (sigs : list Css.signature) :
  sigs <> [] ->
  Forall (fun s => Css.is_ident (fst s) = true) sigs ->
  Css.parse (render_part sigs) = Some (compound_of <$> sigs).
Proof.
  unfold Css.parse. induction sigs as [|s sigs IH]; [done|].
  intros _ Hall. apply Forall_cons in Hall as [Hs Hall].
  destruct (rendered_segment_plain s Hs) as [Hsp _].
  destruct sigs as [|s' sigs].
  - cbn [render_part]. rewrite (split_child_last _ Hsp).
    cbn [Css.parse_all]. by rewrite (parse_rendered_segment s Hs).
  - change (render_part (s :: s' :: sigs))
      with (render_segment s +:+ " > " +:+ render_part (s' :: sigs)).
    rewrite (split_child_cons _ _ Hsp). cbn [Css.parse_all].
    rewrite (parse_rendered_segment s Hs), (IH ltac:(done) Hall). done.
Qed.

Lemma rendered_part_colon_n (sigs : list Css.signature) :
  Forall (fun s => Css.is_ident (fst s) = true) sigs ->
  colon_n (render_part sigs) = true.
Proof.
  induction sigs as [|s sigs IH]; [done|].
  intros Hall. apply Forall_cons in Hall as [Hs Hall].
  destruct (rendered_segment_plain s Hs) as [_ Hc].
  destruct sigs as [|s' sigs]; [done|].
  change (render_part (s :: s' :: sigs))
    with (render_segment s +:+ " > " +:+ render_part (s' :: sigs)).
  apply colon_n_app; [done|]. apply colon_n_app; [done|]. by apply IH.
Qed.

End Parsing.

(** ** Finding the first match *)

Section NodeInduction.

Lemma node_ind' (P : node -> Prop)
    (Htext : forall d, P (Text d))
    (Helem : forall tag kids sh, Forall P kids -> P (Element tag kids sh)) :
  forall n, P n.
Proof.
  exact (fix IH (n : node) : P n :=
           match n with
           | Text d => Htext d
           | Element tag kids sh =>
               Helem tag kids sh
                 ((fix go (l : list node) : Forall P l :=
                     match l with
                     | [] => List.Forall_nil P
                     | x :: l' => List.Forall_cons P x l' (IH x) (go l')
                     end) kids)
           end).
Qed.

End NodeInduction.

Section Matching.

Lemma find_node_element sel stack sibs idx tag kids sh :
  Css.find_node sel stack sibs idx (Element tag kids sh)
  = if Css.matches sel (Css.signature_at tag sibs idx :: stack)
    then Some [idx]
    else Css.find_nodes sel (Css.signature_at tag sibs idx :: stack)
           kids 0 kids ≫= fun p => Some (idx :: p).
Proof.
  cbn [Css.find_node].
  destruct (Css.matches sel (Css.signature_at tag sibs idx :: stack));
    [reflexivity|].
  f_equal. generalize 0. generalize kids at 2 4 as rest.
  induction rest as [|k rest IH]; intros i; [reflexivity|].
  cbn [Css.find_nodes].
  destruct (Css.find_node sel _ kids i k); [reflexivity|]. apply IH.
Qed.

Lemma matched_element sel stack sibs idx tag kids sh :
  matched sel stack sibs idx (Element tag kids sh)
  = (if Css.matches sel (Css.signature_at tag sibs idx :: stack)
     then [[idx]] else [])
    ++ (cons idx <$>
          matched_in sel (Css.signature_at tag sibs idx :: stack) kids 0 kids).
Proof.
  cbn [matched]. do 2 f_equal.
  generalize 0. generalize kids at 2 4 as rest.
  induction rest as [|k rest IH]; intros i; [reflexivity|].
  cbn [matched_in]. by rewrite IH.
Qed.

Lemma matches_length_le sel chain :
  Css.matches sel chain = true -> length sel <= length chain.
Proof.
  revert chain. induction sel as [|c sel IH]; intros chain H; cbn; [lia|].
  destruct chain as [|s chain]; [discriminate H|].
  cbn [Css.matches] in H. apply andb_true_iff in H as [_ H].
  apply IH in H. cbn. lia.
Qed.

Lemma matches_own_compound s :
  lower_name (fst s) = true ->
  Css.matches_compound (compound_of s) s = true.
Proof.
  unfold lower_name, compound_of. intros H.
  destruct (snd s =? 1); cbn [Css.matches_compound]; rewrite H; [done|].
  by rewrite Nat.eqb_refl.
Qed.

Lemma head_app {A} (l l' : list A) :
  head (l ++ l') = match head l with Some x => Some x | None => head l' end.
Proof. by destruct l. Qed.

(** [Css.find_node] returns the first match in tree order. *)
Lemma find_node_first sel n :
  forall sibs idx stack,
    Css.find_node sel stack sibs idx n = head (matched sel stack sibs idx n).
Proof.
  induction n as [d|tag kids sh IH] using node_ind'; intros sibs idx stack;
    [done|].
  rewrite find_node_element, matched_element.
  destruct (Css.matches sel _); [done|]. cbn [app].
  set (chain := Css.signature_at tag sibs idx :: stack).
  assert (H : forall rest i, Forall (fun n => forall sibs idx stack,
                  Css.find_node sel stack sibs idx n
                  = head (matched sel stack sibs idx n)) rest ->
              Css.find_nodes sel chain kids i rest
              = head (matched_in sel chain kids i rest)).
  { induction rest as [|k rest IHrest]; intros i Hall; [done|].
    apply Forall_cons in Hall as [Hk Hall].
    cbn [Css.find_nodes matched_in]. rewrite head_app, Hk.
    destruct (head (matched sel chain kids i k)); [done|]. by apply IHrest. }
  rewrite (H kids 0 IH).
  by destruct (matched_in sel chain kids 0 kids).
Qed.

Lemma find_nodes_first sel stack sibs rest :
  forall i,
    Css.find_nodes sel stack sibs i rest
    = head (matched_in sel stack sibs i rest).
Proof.
  induction rest as [|k rest IH]; intros i; [done|].
  cbn [Css.find_nodes matched_in]. rewrite head_app, find_node_first.
  by destruct (head (matched sel stack sibs i k)).
Qed.

(** When nothing is matched among [rest], nothing is matched in the
    subtree of any of its nodes. *)
Lemma matched_in_nil sel stack sibs rest :
  forall i, matched_in sel stack sibs i rest = [] ->
  forall m e, rest !! m = Some e -> matched sel stack sibs (i + m) e = [].
Proof.
  induction rest as [|k rest IH]; intros i H m e Hm; [done|].
  cbn [matched_in] in H. apply app_eq_nil in H as [Hk Hrest].
  destruct m as [|m].
  - injection Hm as <-. by rewrite Nat.add_0_r.
  - replace (i + S m) with (S i + m) by lia. by apply IH.
Qed.

End Matching.

Section FirstMatch.
Variable sel : list Css.compound.

(** Scanning a sibling list reaches index [i] when nothing matches in
    the subtrees before it. *)
Lemma find_nodes_reach stack (sibs : list node) i t r :
  (forall m e, m < i -> sibs !! m = Some e ->
               Css.find_node sel stack sibs m e = None) ->
  sibs !! i = Some t ->
  Css.find_node sel stack sibs i t = Some r ->
  Css.find_nodes sel stack sibs 0 sibs = Some r.
Proof.
  intros Hbefore Hi Hfound.
  assert (H : forall d m, m + d = i ->
            Css.find_nodes sel stack sibs m (drop m sibs) = Some r).
  { induction d as [|d IHd]; intros m Hm.
    - assert (m = i) as -> by lia.
      rewrite (drop_S _ _ _ Hi). cbn [Css.find_nodes]. by rewrite Hfound.
    - destruct (sibs !! m) as [e|] eqn:He.
      + rewrite (drop_S _ _ _ He). cbn [Css.find_nodes].
        rewrite (Hbefore m e) by (done || lia). apply IHd. lia.
      + apply lookup_ge_None in He. apply lookup_lt_Some in Hi. lia. }
  specialize (H i 0 ltac:(lia)). by rewrite drop_0 in H.
Qed.

(** The first match of the selector of a chain is the chain's end,
    when nothing before it in tree order is matched. *)
Lemma find_nodes_unrivalled path :
  forall sibs stack selY sigs,
    path <> [] ->
    walk sibs path = Some sigs ->
    sel = rev (compound_of <$> sigs) ++ selY ->
    length selY = length stack ->
    Css.matches selY stack = true ->
    Forall (fun s => lower_name (fst s) = true) sigs ->
    rivals sel stack sibs path = [] ->
    Css.find_nodes sel stack sibs 0 sibs = Some path.
Proof.
  induction path as [|i path IH];
    intros sibs stack selY sigs Hne Hwalk Hsel Hlen HmY Hlow Hriv; [done|].
  cbn [walk] in Hwalk. cbn [rivals] in Hriv.
  destruct (sibs !! i) as [[d|tag kids sh]|] eqn:Hi; try discriminate Hwalk.
  destruct (walk kids path) as [sigs'|] eqn:Hw; [|discriminate Hwalk].
  cbn in Hwalk. injection Hwalk as <-.
  apply app_eq_nil in Hriv as [Hearlier Hinner].
  apply fmap_nil_inv in Hinner.
  apply Forall_cons in Hlow as [Hlow_s Hlow].
  set (s := Css.signature_at tag sibs i) in *.
  cbn [fmap list_fmap rev] in Hsel.
  fold (fmap (M:=list) compound_of sigs') in Hsel.
  rewrite <- app_assoc in Hsel. cbn [app] in Hsel.
  apply (find_nodes_reach stack sibs i (Element tag kids sh)); [|done|].
  - (* the subtrees of the siblings before the chain element *)
    intros m e Hm He. rewrite find_node_first.
    rewrite <- (Nat.add_0_l m).
    rewrite (matched_in_nil sel stack sibs (take i sibs) 0 Hearlier m e);
      [done|].
    by rewrite lookup_take_lt.
  - (* the chain element itself *)
    rewrite find_node_element. fold s.
    destruct path as [|i' path'].
    + cbn [walk] in Hw. injection Hw as <-.
      cbn [fmap list_fmap rev app] in Hsel.
      rewrite Hsel. cbn [Css.matches].
      by rewrite matches_own_compound, HmY.
    + assert (Hno : Css.matches sel (s :: stack) = false).
      { apply not_true_iff_false. intros Hmatch.
        apply matches_length_le in Hmatch. rewrite Hsel in Hmatch.
        rewrite !length_app, length_rev, length_fmap in Hmatch.
        cbn [length] in Hmatch.
        cbn [walk] in Hw. destruct (kids !! i') as [[|tg' ks' sh'']|];
          try discriminate Hw.
        destruct (walk ks' path'); [|discriminate Hw].
        cbn in Hw. injection Hw as <-. cbn [length] in Hmatch. lia. }
      rewrite Hno.
      rewrite (IH kids (s :: stack) (compound_of s :: selY) sigs'); try done.
      * cbn [length]. by rewrite Hlen.
      * cbn [Css.matches]. by rewrite matches_own_compound, HmY.
Qed.

End FirstMatch.

Section Rivals.
Variable sel : list Css.compound.

Lemma matched_in_app stack sibs (l1 l2 : list node) :
  forall j,
    matched_in sel stack sibs j (l1 ++ l2)
    = matched_in sel stack sibs j l1
      ++ matched_in sel stack sibs (j + length l1) l2.
Proof.
  induction l1 as [|k l1 IH]; intros j.
  - cbn. by rewrite Nat.add_0_r.
  - cbn [app matched_in length]. rewrite IH, <- app_assoc.
    by replace (S j + length l1) with (j + S (length l1)) by lia.
Qed.

(** A match in the subtree of a node starts with the index of the
    node. *)
Lemma matched_head stack sibs idx n r :
  r ∈ matched sel stack sibs idx n -> exists r', r = idx :: r'.
Proof.
  destruct n as [d|tag kids sh]; [by intros ?%elem_of_nil|].
  rewrite matched_element. intros [H|H]%elem_of_app.
  - destruct (Css.matches sel _); [|by apply elem_of_nil in H].
    apply list_elem_of_singleton in H as ->. by eexists.
  - apply list_elem_of_fmap in H as (r' & -> & _). by eexists.
Qed.

Lemma matched_in_head stack sibs (l : list node) r :
  forall j, r ∈ matched_in sel stack sibs j l ->
  exists m r', r = m :: r' /\ j <= m < j + length l.
Proof.
  induction l as [|k l IH]; intros j; [by intros ?%elem_of_nil|].
  cbn [matched_in length]. intros [H|H]%elem_of_app.
  - apply matched_head in H as [r' ->]. exists j, r'. split; [done|lia].
  - apply IH in H as (m & r' & -> & Hm). exists m, r'. split; [done|lia].
Qed.

(** A rival of an element is another element. *)
Lemma rivals_before ix :
  forall stack sibs r, r ∈ rivals sel stack sibs ix -> r <> ix.
Proof.
  induction ix as [|i rest IH]; intros stack sibs r;
    [by intros ?%elem_of_nil|].
  cbn [rivals]. intros [H|H]%elem_of_app.
  - apply matched_in_head in H as (m & r' & -> & Hm).
    rewrite length_take in Hm. intros [= -> _]. lia.
  - destruct (sibs !! i) as [[d|tag kids sh]|]; try by apply elem_of_nil in H.
    apply list_elem_of_fmap in H as (r' & -> & Hr').
    intros [= ->]. by apply (IH _ _ _ Hr').
Qed.

(** The rivals of an element come first among the matches of a selector
    as long as its chain. *)
Lemma rivals_prefix ix :
  forall stack sibs sigs,
    walk sibs ix = Some sigs ->
    length sel = length stack + length ix ->
    exists rest,
      matched_in sel stack sibs 0 sibs = rivals sel stack sibs ix ++ rest.
Proof.
  induction ix as [|i rest IH]; intros stack sibs sigs Hwalk Hlen.
  - by eexists.
  - cbn [walk] in Hwalk. cbn [rivals].
    destruct (sibs !! i) as [[d|tag kids sh]|] eqn:Hi; try discriminate Hwalk.
    destruct (walk kids rest) as [sigs'|] eqn:Hw; [|discriminate Hwalk].
    replace (matched_in sel stack sibs 0 sibs)
      with (matched_in sel stack sibs 0
              (take i sibs ++ Element tag kids sh :: drop (S i) sibs))
      by (by rewrite take_drop_middle).
    rewrite matched_in_app. cbn [matched_in Nat.add].
    rewrite length_take_le by (apply lookup_lt_Some in Hi; lia).
    rewrite matched_element.
    destruct rest as [|i' rest'].
    + cbn [rivals fmap list_fmap]. rewrite app_nil_r. by eexists.
    + assert (Hno : Css.matches sel (Css.signature_at tag sibs i :: stack)
                    = false).
      { apply not_true_iff_false. intros Hm%matches_length_le.
        cbn [length] in Hm, Hlen. lia. }
      rewrite Hno. cbn [app].
      destruct (IH (Css.signature_at tag sibs i :: stack) kids sigs' Hw)
        as [more Hmore].
      { cbn [length] in *. lia. }
      rewrite Hmore, fmap_app.
      exists ((cons i <$> more)
              ++ matched_in sel stack sibs (S i) (drop (S i) sibs)).
      by rewrite <- !app_assoc.
Qed.

(** When the scan returns the end of a chain, nothing before it is
    matched. *)
Lemma first_match_unrivalled ix stack sibs sigs :
  walk sibs ix = Some sigs ->
  length sel = length stack + length ix ->
  Css.find_nodes sel stack sibs 0 sibs = Some ix ->
  rivals sel stack sibs ix = [].
Proof.
  intros Hwalk Hlen Hfind. rewrite find_nodes_first in Hfind.
  destruct (rivals_prefix ix stack sibs sigs Hwalk Hlen) as [more Hmore].
  rewrite Hmore in Hfind.
  destruct (rivals sel stack sibs ix) as [|r rs] eqn:Hriv; [done|].
  cbn in Hfind. injection Hfind as ->.
  exfalso. apply (rivals_before ix stack sibs ix); [|done].
  rewrite Hriv. apply list_elem_of_here.
Qed.

End Rivals.

(** ** The chain of a target and its address *)

Section Chains.
Variable doc : document.

Lemma resolve_cons_inv s q v :
  resolve doc (s :: q) = Some v ->
  exists v', resolve doc q = Some v' /\ enter v' s = Some v.
Proof.
  cbn [resolve]. destruct (resolve doc q) as [v'|]; [|done].
  intros H. by exists v'.
Qed.

Lemma enter_child_inv v' i v :
  enter v' (Child i) = Some v ->
  exists n, children v' !! i = Some n /\ v = Item n.
Proof.
  cbn [enter]. destruct (children v' !! i) as [n|]; [|done].
  cbn. intros [= <-]. by exists n.
Qed.

Lemma root_of_length q : length (root_of q) <= length q.
Proof.
  induction q as [|[i|] q IH]; cbn [root_of length]; lia.
Qed.

Lemma root_of_not_shadow q : Shadow :: q <> root_of q.
Proof.
  intros H. pose proof (root_of_length q) as Hl.
  rewrite <- H in Hl. cbn [length] in Hl. lia.
Qed.

Lemma root_of_resolves q v :
  resolve doc q = Some v ->
  exists kids, resolve doc (root_of q) = Some (Container kids).
Proof.
  revert v. induction q as [|[i|] q IH]; intros v Hq.
  - by exists doc.
  - apply resolve_cons_inv in Hq as (v' & Hq & _). cbn [root_of]. by eapply IH.
  - cbn [root_of]. rewrite Hq.
    apply resolve_cons_inv in Hq as (v' & _ & Hv). cbn [enter] in Hv.
    destruct v' as [|[|tag kids [ks|]]]; try discriminate Hv.
    injection Hv as <-. by exists ks.
Qed.

Lemma scope_path q : (Child <$> scope_ix q) ++ root_of q = q.
Proof.
  induction q as [|[i|] q IH]; [done| |done].
  cbn [scope_ix root_of fmap list_fmap app].
  fold (fmap (M:=list) Child (scope_ix q)). by rewrite IH.
Qed.

Lemma walk_snoc path :
  forall sibs sigs kids i tag kids' sh,
    walk sibs path = Some sigs ->
    descend sibs path = Some kids ->
    kids !! i = Some (Element tag kids' sh) ->
    walk sibs (path ++ [i]) = Some (sigs ++ [Css.signature_at tag kids i])
    /\ descend sibs (path ++ [i]) = Some kids'.
Proof.
  induction path as [|j path IH]; intros sibs sigs kids i tag kids' sh Hw Hd Hi.
  - cbn in Hw, Hd. injection Hw as <-. injection Hd as <-.
    cbn [app walk descend]. by rewrite Hi.
  - cbn [app walk descend] in *.
    destruct (sibs !! j) as [[|tg ks sh']|]; try discriminate Hw.
    destruct (walk ks path) as [sigs'|] eqn:Hw'; [|discriminate Hw].
    cbn in Hw. injection Hw as <-.
    destruct (IH ks sigs' kids i tag kids' sh Hw' Hd Hi) as [-> ->].
    done.
Qed.

Lemma signature_of_child i q v' tag kids sh :
  resolve doc q = Some v' ->
  children v' !! i = Some (Element tag kids sh) ->
  signature_of doc (Child i :: q)
  = Some (Css.signature_at tag (children v') i).
Proof.
  intros Hq Hi. unfold signature_of. rewrite (resolve_child doc q i v' Hq).
  by rewrite Hq, Hi.
Qed.

(** What [chain_plain] says about an element of the chain. *)
Lemma chain_plain_child i q :
  chain_plain doc (Child i :: q) = true ->
  exists v' tag kids sh,
    chain_plain doc q = true
    /\ resolve doc q = Some v'
    /\ children v' !! i = Some (Element tag kids sh)
    /\ Css.is_ident tag = true
    /\ lower_name tag = true
    /\ Css.count_same tag (take i (children v'))
       = Css.count_named tag (take i (children v'))
    /\ is_host doc q = false.
Proof.
  cbn [chain_plain]. intros [Hq H]%andb_true_iff.
  destruct (resolve doc q) as [v'|] eqn:Hv'; [|done].
  rewrite (resolve_child doc q i v' Hv') in H. unfold is_host.
  rewrite Hv'.
  destruct (children v' !! i) as [[|tag kids sh]|] eqn:Hi; try done.
  cbn in H.
  apply andb_true_iff in H as [[[Hid Hlow]%andb_true_iff
                                  Hcount%Nat.eqb_eq]%andb_true_iff H].
  exists v', tag, kids, sh. repeat split; try done.
  by destruct v' as [|[|? ? [|]]].
Qed.

(** Along a chain, the signatures of a scope are those met when walking
    down from the root of the scope. *)
Lemma scope_walk q :
  forall v, resolve doc q = Some v -> chain_plain doc q = true ->
  exists ks,
    resolve doc (root_of q) = Some (Container ks)
    /\ descend ks (rev (scope_ix q)) = Some (children v)
    /\ walk ks (rev (scope_ix q)) = Some (rev (scope_sigs doc q))
    /\ length (scope_sigs doc q) = length (scope_ix q)
    /\ Forall (fun s => Css.is_ident (fst s) = true) (scope_sigs doc q)
    /\ Forall (fun s => lower_name (fst s) = true) (scope_sigs doc q).
Proof.
  induction q as [|[i|] q IH]; intros v Hv Hok.
  - injection Hv as <-. exists doc. repeat split; try done.
  - apply chain_plain_child in Hok
      as (v' & tag & kids & sh & Hok & Hq & Hi & Hid & Hlow & _ & _).
    rewrite (resolve_child doc q i v' Hq), Hi in Hv. injection Hv as <-.
    destruct (IH v' Hq Hok) as (ks & Hroot & Hd & Hw & Hlen & Hids & Hlows).
    exists ks. cbn [root_of scope_ix scope_sigs rev].
    rewrite (signature_of_child i q v' tag kids sh Hq Hi).
    destruct (walk_snoc _ _ _ _ i tag kids sh Hw Hd Hi) as [Hw' Hd'].
    cbn [rev length]. repeat split; try done.
    + by rewrite Hlen.
    + by apply Forall_cons.
    + by apply Forall_cons.
  - cbn [root_of]. rewrite Hv.
    apply resolve_cons_inv in Hv as Hv'. destruct Hv' as (v' & _ & He).
    cbn [enter] in He. destruct v' as [|[|tag kids [ks|]]]; try discriminate He.
    injection He as <-. exists ks. repeat split; done.
Qed.

Lemma resolve_item_child q n :
  resolve doc q = Some (Item n) -> exists i q', q = Child i :: q'.
Proof.
  destruct q as [|[i|] q']; [done|by exists i, q'|].
  intros (v' & _ & He)%resolve_cons_inv. cbn in He.
  by destruct v' as [|[|? ? [|]]].
Qed.

Lemma is_host_container q ks :
  resolve doc q = Some (Container ks) -> is_host doc q = false.
Proof. unfold is_host. by intros ->. Qed.

(** The segment of an element is its signature as a selector would
    count it, when the counts with and without regard to case agree. *)
Lemma segment_rendered i q v' tag kids sh :
  resolve doc q = Some v' ->
  children v' !! i = Some (Element tag kids sh) ->
  Css.count_same tag (take i (children v'))
  = Css.count_named tag (take i (children v')) ->
  indexedSelector doc (Node (Child i :: q))
  = render_segment (Css.signature_at tag (children v') i).
Proof.
  intros Hq Hi Hcount.
  rewrite (indexedSelector_counts doc q i v' tag kids sh Hq Hi).
  unfold render_segment, Css.signature_at. cbn [fst snd].
  rewrite Hcount.
  by destruct (Css.count_named tag (take i (children v'))).
Qed.

Lemma render_part_rev_app (l tail : list Css.signature) :
  tail <> [] ->
  render_part (rev l ++ tail) = open_str l +:+ render_part tail.
Proof.
  revert tail. induction l as [|x l IH]; intros tail Hne; [done|].
  cbn [rev open_str]. rewrite <- app_assoc. cbn [app].
  rewrite IH by done. rewrite !append_assoc. f_equal.
  destruct tail as [|y tail]; [done|]. reflexivity.
Qed.

Lemma render_part_rev_cons s (l : list Css.signature) :
  render_part (rev (s :: l)) = open_str l +:+ render_segment s.
Proof. cbn [rev]. by rewrite render_part_rev_app. Qed.

Lemma ident_nonempty tag : Css.is_ident tag = true -> tag <> "".
Proof. by destruct tag. Qed.

Lemma truthy_nonempty s : s <> "" -> truthy (Some s) = true.
Proof. by destruct s. Qed.

Lemma append_nonempty_r (a b : string) : b <> "" -> a +:+ b <> "".
Proof. destruct a; [done|]. by rewrite append_cons. Qed.

Lemma append_nonempty_l (a b : string) : a <> "" -> a +:+ b <> "".
Proof. destruct a; [done|]. by rewrite append_cons. Qed.

Lemma render_segment_nonempty s :
  Css.is_ident (fst s) = true -> render_segment s <> "".
Proof.
  intros H%ident_nonempty. unfold render_segment.
  destruct (snd s =? 1); [done|]. by apply append_nonempty_l.
Qed.

(** What the chain writes in front of an inner address. *)
Lemma prefix_chain q :
  forall v, resolve doc q = Some v -> chain_plain doc q = true ->
  prefix_str doc q
  = closed_str (closed_parts doc q) +:+
    (if is_host doc q
     then render_part (rev (scope_sigs doc q)) +:+ "::shadow "
     else open_str (scope_sigs doc q)).
Proof.
  induction q as [|[i|] q IH]; intros v Hv Hok.
  - reflexivity.
  - apply chain_plain_child in Hok
      as (v' & tag & kids & sh & Hok & Hq & Hi & Hid & _ & Hcount & Hnh).
    specialize (IH v' Hq Hok). rewrite Hnh in IH.
    cbn [prefix_str closed_parts scope_sigs].
    rewrite (signature_of_child i q v' tag kids sh Hq Hi).
    unfold localName_of, lookup_ref.
    rewrite (resolve_child doc q i v' Hq), Hi. cbn [fmap option_fmap option_map].
    rewrite (truthy_nonempty tag (ident_nonempty tag Hid)).
    rewrite (segment_rendered i q v' tag kids sh Hq Hi Hcount), IH.
    destruct (is_host doc (Child i :: q)).
    + rewrite render_part_rev_cons. by rewrite !append_assoc.
    + cbn [open_str]. by rewrite !append_assoc.
  - cbn [prefix_str closed_parts scope_sigs closed_str open_str].
    apply resolve_cons_inv in Hv as Hv'. destruct Hv' as (v' & Hq & He).
    cbn [enter] in He. destruct v' as [|[|tag kids [ks|]]]; try discriminate He.
    injection He as <-.
    rewrite (IH _ Hq Hok). unfold is_host at 1. rewrite Hq.
    rewrite (is_host_container _ _ Hv). by rewrite append_nil_r.
Qed.

Lemma step_passes r a :
  localName_of doc r = None ->
  pathSelector_step doc r a = a.
Proof. unfold pathSelector_step. by intros ->. Qed.

Lemma step_element p a :
  a <> "" ->
  pathSelector_step doc (Node p) (Some a)
  = Some ((if truthy (localName_of doc (Node p))
           then indexedSelector doc (Node p) +:+
                (if is_host doc p then "::shadow " else " > ")
           else "") +:+ a).
Proof.
  intros Ha. unfold pathSelector_step.
  destruct (truthy (localName_of doc (Node p))); [|done].
  rewrite (truthy_nonempty a Ha). cbn [to_string]. f_equal.
  rewrite append_assoc. f_equal.
  unfold shadowRoot, is_host.
  destruct (resolve doc p) as [[|[|tag kids [ks|]]]|]; try done.
  cbn [getRootNode]. rewrite bool_decide_eq_true_2; [done|].
  intros [= H]. by apply root_of_not_shadow in H.
Qed.

Lemma ancestors_above q : ancestors q = Node q :: above q.
Proof. by destruct q. Qed.

Lemma loop_prefix q :
  forall a, a <> "" ->
  pathSelector_loop doc (Node q) (above q ++ [Window]) (Some a)
  = Some (prefix_str doc q +:+ a).
Proof.
  induction q as [|s q IH]; intros a Ha.
  - reflexivity.
  - cbn [above]. rewrite ancestors_above. cbn [app pathSelector_loop].
    rewrite (step_element _ _ Ha).
    rewrite IH by (by apply append_nonempty_r).
    f_equal. destruct s as [i|].
    + cbn [prefix_str]. by rewrite append_assoc.
    + cbn [prefix_str]. unfold localName_of, lookup_ref.
      replace (truthy _) with false; [done|].
      cbn [resolve]. destruct (resolve doc q) as [[|[|? ? [|]]]|]; done.
Qed.

(** The address [pathSelector] computes for an element that is not a
    host and has no cached address. *)
Lemma pathSelector_chain cache i q v' tag kids :
  resolve doc q = Some v' ->
  children v' !! i = Some (Element tag kids None) ->
  Css.is_ident tag = true ->
  Css.count_same tag (take i (children v'))
  = Css.count_named tag (take i (children v')) ->
  truthy (cache (Node (Child i :: q))) = false ->
  (pathSelector doc cache (composedPath_of (Child i :: q))).1
  = Ok (Some (prefix_str doc q +:+
              render_segment (Css.signature_at tag (children v') i))).
Proof.
  intros Hq Hi Hid Hcount Hc. unfold composedPath_of.
  cbn [ancestors app pathSelector]. rewrite Hc. cbn [fst]. f_equal.
  rewrite ancestors_above. cbn [app pathSelector_loop].
  assert (Hstep : pathSelector_step doc (Node (Child i :: q)) None
                  = Some (render_segment
                            (Css.signature_at tag (children v') i))).
  { unfold pathSelector_step, localName_of, lookup_ref, shadowRoot.
    rewrite (resolve_child doc q i v' Hq), Hi.
    cbn [fmap option_fmap option_map].
    rewrite (truthy_nonempty tag (ident_nonempty tag Hid)).
    rewrite (segment_rendered i q v' tag kids None Hq Hi Hcount).
    cbn [truthy]. by rewrite append_nil_r. }
  rewrite Hstep. apply loop_prefix. by apply render_segment_nonempty.
Qed.

Lemma split_closed (closed : list (list Css.signature)) (b : string) :
  Forall (Forall (fun s => Css.is_ident (fst s) = true)) closed ->
  split (closed_str closed +:+ b) "::shadow "
  = (render_part <$> rev closed) ++ split b "::shadow ".
Proof.
  revert b. induction closed as [|part closed IH]; intros b Hall; [done|].
  apply Forall_cons in Hall as [Hpart Hall].
  cbn [closed_str rev]. rewrite !append_assoc, (IH _ Hall).
  rewrite split_shadow_cons by (by apply rendered_part_colon_n).
  rewrite fmap_app, <- app_assoc. reflexivity.
Qed.

Lemma closed_parts_ident q :
  forall v, resolve doc q = Some v -> chain_plain doc q = true ->
  Forall (Forall (fun s => Css.is_ident (fst s) = true)) (closed_parts doc q).
Proof.
  induction q as [|[i|] q IH]; intros v Hv Hok.
  - constructor.
  - apply resolve_cons_inv in Hv as (v' & Hq & _).
    cbn [chain_plain] in Hok. apply andb_true_iff in Hok as [Hok _].
    cbn [closed_parts]. by eapply IH.
  - apply resolve_cons_inv in Hv as (v' & Hq & _). cbn [chain_plain] in Hok.
    cbn [closed_parts]. apply Forall_cons. split; [|by eapply IH].
    destruct (scope_walk q v' Hq Hok) as (_ & _ & _ & _ & _ & Hids & _).
    apply Forall_forall. intros s Hs%list_elem_of_In%in_rev%list_elem_of_In.
    by eapply (proj1 (Forall_forall _ _) Hids).
Qed.

Lemma rev_fmap_rev {A B} (f : A -> B) (l : list A) :
  rev (f <$> rev l) = f <$> l.
Proof.
  induction l as [|x l IH]; [done|].
  cbn [rev]. rewrite fmap_app, rev_app_distr. cbn. by rewrite IH.
Qed.

(** The part of an address that belongs to the tree of [p], looked up
    from the root of that tree, finds the element at [p] when nothing
    before it is matched. *)
Lemma query_chain i q v :
  resolve doc (Child i :: q) = Some v ->
  chain_plain doc (Child i :: q) = true ->
  part_unrivalled doc (Child i :: q) = true ->
  querySelector doc (Node (root_of (Child i :: q)))
    (render_part (rev (scope_sigs doc (Child i :: q))))
  = Ok (Some (Node (Child i :: q))).
Proof.
  intros Hv Hok Hun. set (p := Child i :: q) in *.
  destruct (scope_walk p v Hv Hok)
    as (ks & Hroot & _ & Hwalk & Hlen & Hids & Hlows).
  assert (Hne : scope_sigs doc p <> []).
  { intros E. rewrite E in Hlen. discriminate Hlen. }
  unfold part_unrivalled in Hun. rewrite Hroot in Hun.
  unfold part_selector in Hun.
  destruct (rivals _ _ _ _) as [|r rs] eqn:Hriv; [|done]. clear Hun.
  unfold querySelector. rewrite Hroot.
  rewrite parse_rendered_part.
  2: { intros E. apply Hne. apply (f_equal (@rev _)) in E.
       by rewrite rev_involutive in E. }
  2: { apply Forall_forall.
       intros s Hs%list_elem_of_In%in_rev%list_elem_of_In.
       by eapply (proj1 (Forall_forall _ _) Hids). }
  rewrite rev_fmap_rev.
  rewrite (find_nodes_unrivalled (compound_of <$> scope_sigs doc p)
             (rev (scope_ix p)) ks [] [] (rev (scope_sigs doc p))).
  - cbn [fmap option_fmap option_map]. do 3 f_equal.
    rewrite rev_fmap_rev. apply scope_path.
  - intros E. apply (f_equal (@length nat)) in E.
    rewrite length_rev in E. unfold p in E. discriminate E.
  - exact Hwalk.
  - by rewrite app_nil_r, rev_fmap_rev.
  - reflexivity.
  - reflexivity.
  - apply Forall_forall.
    intros s Hs%list_elem_of_In%in_rev%list_elem_of_In.
    by eapply (proj1 (Forall_forall _ _) Hlows).
  - exact Hriv.
Qed.

(** The parts of the address outside the tree of [q] lead the loop of
    [pathLocator] to the root of that tree. *)
Lemma locate_closed q :
  forall v, resolve doc q = Some v -> chain_plain doc q = true ->
  hosts_unrivalled doc q = true ->
  forall more found, exists found',
    pathLocator_loop doc ((render_part <$> rev (closed_parts doc q)) ++ more)
                     (Some (Node [])) found
    = pathLocator_loop doc more (Some (Node (root_of q))) found'.
Proof.
  induction q as [|[i|] q IH]; intros v Hv Hok Hun more found.
  - by exists found.
  - apply resolve_cons_inv in Hv as (v' & Hq & _).
    cbn [chain_plain] in Hok. apply andb_true_iff in Hok as [Hok _].
    cbn [closed_parts root_of]. by eapply IH.
  - apply resolve_cons_inv in Hv as Hv'. destruct Hv' as (v' & Hq & He).
    cbn [enter] in He. destruct v' as [|[|tag kids [ks|]]]; try discriminate He.
    cbn [chain_plain] in Hok.
    cbn [hosts_unrivalled] in Hun. apply andb_true_iff in Hun as [Hpart Hun].
    destruct (resolve_item_child _ _ Hq) as (i & q' & ->).
    change (closed_parts doc (Shadow :: Child i :: q'))
      with (rev (scope_sigs doc (Child i :: q'))
              :: closed_parts doc (Child i :: q')).
    cbn [rev root_of]. rewrite fmap_app, <- app_assoc.
    change ((render_part <$> [rev (scope_sigs doc (Child i :: q'))]) ++ more)
      with (render_part (rev (scope_sigs doc (Child i :: q'))) :: more).
    destruct (IH _ Hq Hok Hun
                (render_part (rev (scope_sigs doc (Child i :: q'))) :: more)
                found) as [found' ->].
    cbn [pathLocator_loop].
    rewrite (query_chain i q' _ Hq Hok Hpart).
    unfold shadowRoot. rewrite Hq. by eexists.
Qed.

(** The address of an element on a plain chain, and the parts that
    [pathLocator] goes through. *)
Lemma chain_address p tag kids :
  resolve doc p = Some (Item (Element tag kids None)) ->
  chain_plain doc p = true ->
  exists address,
    (forall cache, truthy (cache (Node p)) = false ->
       (pathSelector doc cache (composedPath_of p)).1 = Ok (Some address))
    /\ pathLocator doc address
       = pathLocator_loop doc
           ((render_part <$> rev (closed_parts doc p))
              ++ [render_part (rev (scope_sigs doc p))])
           (Some (Node [])) None.
Proof.
  intros Hp Hok.
  destruct (resolve_item_child p _ Hp) as (i & q & ->).
  pose proof Hok as Hok'.
  apply chain_plain_child in Hok'
    as (v' & tag' & kids' & sh & Hokq & Hq & Hi & Hid & _ & Hcount & Hnh).
  pose proof Hp as Hp'.
  rewrite (resolve_child doc q i v' Hq), Hi in Hp'. injection Hp' as -> -> ->.
  eexists. split.
  - intros cache Hcache.
    by apply (pathSelector_chain cache i q v' tag kids).
  - rewrite (prefix_chain q v' Hq Hokq), Hnh.
    rewrite append_assoc, <- render_part_rev_cons.
    replace (Css.signature_at tag (children v') i :: scope_sigs doc q)
      with (scope_sigs doc (Child i :: q)).
    2: { cbn [scope_sigs].
         by rewrite (signature_of_child i q v' tag kids None Hq Hi). }
    unfold pathLocator.
    rewrite split_closed by (by eapply closed_parts_ident).
    rewrite split_shadow_last; [done|].
    apply rendered_part_colon_n. apply Forall_forall.
    intros s Hs%list_elem_of_In%in_rev%list_elem_of_In.
    destruct (scope_walk _ _ Hp Hok) as (_ & _ & _ & _ & _ & Hids & _).
    by eapply (proj1 (Forall_forall _ _) Hids).
Qed.

(** The parts lead to the element when nothing before a chain element
    is matched by its part. *)
Lemma chain_located p tag kids :
  resolve doc p = Some (Item (Element tag kids None)) ->
  chain_plain doc p = true ->
  unrivalled doc p = true ->
  pathLocator_loop doc
    ((render_part <$> rev (closed_parts doc p))
       ++ [render_part (rev (scope_sigs doc p))])
    (Some (Node [])) None
  = Ok (Some (Node p)).
Proof.
  intros Hp Hok [Hpart Hhosts]%andb_true_iff.
  destruct (resolve_item_child p _ Hp) as (i & q & ->).
  destruct (locate_closed (Child i :: q) _ Hp Hok Hhosts
              [render_part (rev (scope_sigs doc (Child i :: q)))] None)
    as [found' ->].
  cbn [pathLocator_loop].
  by rewrite (query_chain i q _ Hp Hok Hpart).
Qed.

Lemma shadow_depth_app (a b : list step) :
  shadow_depth (a ++ b) = shadow_depth a + shadow_depth b.
Proof. unfold shadow_depth. by rewrite List.filter_app, length_app. Qed.

Lemma shadow_depth_childs (ix : list nat) : shadow_depth (Child <$> ix) = 0.
Proof. induction ix as [|i ix IH]; [done|]. exact IH. Qed.

Lemma shadow_depth_rev_childs (ix : list nat) :
  shadow_depth (rev (Child <$> ix)) = 0.
Proof.
  rewrite <- (rev_involutive ix) at 1. rewrite rev_fmap_rev.
  apply shadow_depth_childs.
Qed.

(** Two positions that agree, cut at a shadow root of the same depth
    from the node, agree on both sides of the cut. *)
Lemma split_at_shadow (Z Y a b : list step) :
  Z ++ Shadow :: a = Y ++ Shadow :: b ->
  shadow_depth Z = shadow_depth Y ->
  a = b.
Proof.
  revert Y. induction Z as [|z Z IH]; intros [|y Y] H Hd.
  - by injection H.
  - cbn [app] in H. injection H as <- _. discriminate Hd.
  - cbn [app] in H. injection H as -> _. discriminate Hd.
  - cbn [app] in H. injection H as -> H. apply (IH Y H).
    unfold shadow_depth in *. cbn [List.filter] in Hd.
    destruct y; cbn [length] in Hd; lia.
Qed.

Lemma querySelector_position r part y :
  querySelector doc (Node r) part = Ok (Some y) ->
  exists ix, y = Node (rev (Child <$> ix) ++ r).
Proof.
  unfold querySelector.
  destruct (resolve doc r) as [[kids|n]|]; try done.
  destruct (Css.parse part) as [sel|]; [|done].
  destruct (Css.find_nodes _ _ _ _ _) as [ix|]; [|done].
  cbn. intros [= <-]. by exists ix.
Qed.

(** What the loop of [pathLocator] returns lies below the root it
    starts from, one shadow root further in for every part but the
    last. *)
Lemma loop_extends parts :
  forall r found res,
    parts <> [] ->
    pathLocator_loop doc parts (Some (Node r)) found = Ok (Some (Node res)) ->
    exists Z, res = Z ++ r /\ S (shadow_depth Z) = length parts.
Proof.
  induction parts as [|part parts IH]; intros r found res Hne H; [done|].
  cbn [pathLocator_loop] in H.
  destruct (querySelector doc (Node r) part) as [[y|]|e] eqn:Hqs; try done.
  destruct (querySelector_position r part y Hqs) as [ix ->].
  destruct parts as [|part' parts'].
  - cbn in H. injection H as <-. exists (rev (Child <$> ix)).
    split; [done|]. cbn [length]. f_equal.
    apply shadow_depth_rev_childs.
  - destruct (shadowRoot doc (Node (rev (Child <$> ix) ++ r))) as [sr|] eqn:Hsr;
      [|done].
    unfold shadowRoot in Hsr.
    destruct (resolve doc (rev (Child <$> ix) ++ r)) as [[|[|? ? [|]]]|];
      try done.
    injection Hsr as <-.
    apply IH in H as (Z & -> & Hd); [|done].
    exists (Z ++ Shadow :: rev (Child <$> ix)). split.
    + by rewrite <- app_assoc.
    + rewrite shadow_depth_app. cbn [length] in *.
      change (Shadow :: rev (Child <$> ix))
        with ([Shadow] ++ rev (Child <$> ix)).
      rewrite shadow_depth_app, shadow_depth_rev_childs.
      unfold shadow_depth at 2. cbn. lia.
Qed.

Lemma fmap_child_inj (a b : list nat) : Child <$> a = Child <$> b -> a = b.
Proof.
  revert b. induction a as [|x a IH]; intros [|y b] H; try done.
  cbn in H. injection H as -> H. f_equal. by apply IH.
Qed.

(** When the part of an address that belongs to the tree of [p] finds
    the element at [p], nothing before it is matched. *)
Lemma query_chain_only i q v :
  resolve doc (Child i :: q) = Some v ->
  chain_plain doc (Child i :: q) = true ->
  querySelector doc (Node (root_of (Child i :: q)))
    (render_part (rev (scope_sigs doc (Child i :: q))))
  = Ok (Some (Node (Child i :: q))) ->
  part_unrivalled doc (Child i :: q) = true.
Proof.
  intros Hv Hok Hqs. set (p := Child i :: q) in *.
  destruct (scope_walk p v Hv Hok)
    as (ks & Hroot & _ & Hwalk & Hlen & Hids & _).
  assert (Hne : scope_sigs doc p <> []).
  { intros E. rewrite E in Hlen. discriminate Hlen. }
  unfold querySelector in Hqs. rewrite Hroot in Hqs.
  rewrite parse_rendered_part in Hqs.
  2: { intros E. apply Hne. apply (f_equal (@rev _)) in E.
       by rewrite rev_involutive in E. }
  2: { apply Forall_forall.
       intros s Hs%list_elem_of_In%in_rev%list_elem_of_In.
       by eapply (proj1 (Forall_forall _ _) Hids). }
  rewrite rev_fmap_rev in Hqs.
  destruct (Css.find_nodes _ _ _ _ _) as [ix|] eqn:Hfind; [|done].
  cbn in Hqs. injection Hqs as Hpos.
  assert (Hix : ix = rev (scope_ix p)).
  { assert (Hpos' : rev (Child <$> ix) ++ root_of p
                    = (Child <$> scope_ix p) ++ root_of p)
      by (by rewrite scope_path).
    clear Hpos. rename Hpos' into Hpos. apply app_inv_tail in Hpos.
    rewrite <- (rev_involutive ix) in Hpos. rewrite rev_fmap_rev in Hpos.
    apply fmap_child_inj in Hpos. rewrite <- Hpos. by rewrite rev_involutive. }
  subst ix.
  unfold part_unrivalled, part_selector. rewrite Hroot.
  rewrite (first_match_unrivalled _ _ [] ks _ Hwalk); [done| |done].
  rewrite length_fmap, length_rev. cbn [length]. lia.
Qed.

(** When the address leads to the element, every host on the way was
    the first match of its part. *)
Lemma locate_closed_only q :
  forall v, resolve doc q = Some v -> chain_plain doc q = true ->
  forall more found res Y,
    more <> [] ->
    pathLocator_loop doc ((render_part <$> rev (closed_parts doc q)) ++ more)
                     (Some (Node [])) found = Ok (Some (Node res)) ->
    res = Y ++ root_of q ->
    S (shadow_depth Y) = length more ->
    hosts_unrivalled doc q = true
    /\ exists found',
         pathLocator_loop doc more (Some (Node (root_of q))) found'
         = Ok (Some (Node res)).
Proof.
  induction q as [|[i|] q IH]; intros v Hv Hok more found res Y Hne H HY Hd.
  - split; [done|]. by exists found.
  - apply resolve_cons_inv in Hv as (v' & Hq & _).
    cbn [chain_plain] in Hok. apply andb_true_iff in Hok as [Hok _].
    cbn [closed_parts root_of hosts_unrivalled] in *. by eapply IH.
  - apply resolve_cons_inv in Hv as Hv'. destruct Hv' as (v' & Hq & He).
    cbn [enter] in He. destruct v' as [|[|tag kids [ks|]]]; try discriminate He.
    cbn [chain_plain] in Hok.
    destruct (resolve_item_child _ _ Hq) as (i & q' & ->).
    set (host := Child i :: q') in *.
    change (closed_parts doc (Shadow :: host))
      with (rev (scope_sigs doc host) :: closed_parts doc host) in H.
    cbn [rev root_of] in H, HY. rewrite fmap_app, <- app_assoc in H.
    change ((render_part <$> [rev (scope_sigs doc host)]) ++ more)
      with (render_part (rev (scope_sigs doc host)) :: more) in H.
    destruct (IH _ Hq Hok (render_part (rev (scope_sigs doc host)) :: more)
                found res (Y ++ Shadow :: (Child <$> scope_ix host)) ltac:(done) H)
      as (Hhosts & found' & Hloop).
    { rewrite <- app_assoc. cbn [app]. by rewrite scope_path. }
    { rewrite shadow_depth_app.
      change (Shadow :: (Child <$> scope_ix host))
        with ([Shadow] ++ (Child <$> scope_ix host)).
      rewrite shadow_depth_app, shadow_depth_childs. cbn [length].
      unfold shadow_depth at 2. cbn. lia. }
    cbn [pathLocator_loop] in Hloop.
    destruct (querySelector doc (Node (root_of host)) _) as [[y|]|e] eqn:Hqs;
      try done.
    destruct (querySelector_position _ _ y Hqs) as [ix Hy].
    set (f := rev (Child <$> ix) ++ root_of host) in *. subst y.
    assert (Hsr : shadowRoot doc (Node f) = Some (Node (Shadow :: f))).
    { destruct more as [|m more']; [done|].
      destruct (shadowRoot doc (Node f)) as [sr|] eqn:Hsr; [|done].
      unfold shadowRoot in Hsr |- *.
      by destruct (resolve doc f) as [[|[|? ? [|]]]|]. }
    rewrite Hsr in Hloop.
    destruct (loop_extends more (Shadow :: f) _ res Hne Hloop) as (Z & HZ & HdZ).
    assert (Hf : f = host).
    { apply (split_at_shadow Z Y); [congruence|lia]. }
    rewrite Hf in Hqs, Hloop.
    cbn [hosts_unrivalled]. rewrite Hhosts, andb_true_r. split.
    + by apply (query_chain_only i q' _ Hq Hok).
    + by eexists.
Qed.

(** And only then. *)
Lemma chain_located_only p tag kids :
  resolve doc p = Some (Item (Element tag kids None)) ->
  chain_plain doc p = true ->
  pathLocator_loop doc
    ((render_part <$> rev (closed_parts doc p))
       ++ [render_part (rev (scope_sigs doc p))])
    (Some (Node [])) None
  = Ok (Some (Node p)) ->
  unrivalled doc p = true.
Proof.
  intros Hp Hok Hloop.
  destruct (resolve_item_child p _ Hp) as (i & q & ->).
  set (t := Child i :: q) in *.
  destruct (locate_closed_only t _ Hp Hok
              [render_part (rev (scope_sigs doc t))] None t
              (Child <$> scope_ix t) ltac:(done) Hloop)
    as (Hhosts & found' & Hlast).
  { by rewrite scope_path. }
  { by rewrite shadow_depth_childs. }
  unfold unrivalled. rewrite Hhosts, andb_true_r.
  cbn [pathLocator_loop] in Hlast.
  destruct (querySelector doc (Node (root_of t)) _) as [[y|]|e] eqn:Hqs;
    try done.
  injection Hlast as ->.
  by apply (query_chain_only i q _ Hp Hok).
Qed.

(** With the cache as [cache_current] has it, the address is the same
    as without a cache. *)
Lemma pathSelector_current cache p :
  cache_current doc cache p ->
  (pathSelector doc cache (composedPath_of p)).1
  = (pathSelector doc no_cache (composedPath_of p)).1.
Proof.
  intros Hcur. unfold cache_current in Hcur.
  unfold composedPath_of in *. destruct p as [|s q].
  - cbn [ancestors app pathSelector] in *.
    destruct (truthy (cache (Node []))); [by rewrite Hcur|done].
  - cbn [ancestors app pathSelector] in *.
    destruct (truthy (cache (Node (s :: q)))); [by rewrite Hcur|done].
Qed.

End Chains.

(** X23. Round trip of the codec, where it holds. Take a tree, and in
    it an element that is not itself a shadow host and whose cached
    address, if it has one, was computed on this tree. Suppose its
    chain is plain: the names on it are identifiers in lower case, no
    sibling element before an element of the chain has its name in
    another case, and no element of the chain is a light child of a
    host. Then [pathSelector] gives an address, and [pathLocator], on
    the same tree, resolves that address to the very element, across
    every shadow root on the way, exactly when in each tree the chain
    crosses (the document and every shadow tree) no element that comes
    before the chain's element in tree order is matched by the part
    written for it. *)
Theorem roundtrip_exactly_when_unrivalled (doc : document) (p : list step)
    (cache : selector_cache) (tag : string) (kids : list node) :
  resolve doc p = Some (Item (Element tag kids None)) ->
  chain_plain doc p = true ->
  cache_current doc cache p ->
  exists address,
    (pathSelector doc cache (composedPath_of p)).1 = Ok (Some address)
    /\ (pathLocator doc address = Ok (Some (Node p))
        <-> unrivalled doc p = true).
Proof.
  intros Hp Hplain Hcur.
  destruct (chain_address doc p tag kids Hp Hplain) as (address & Henc & Hdec).
  exists address. split.
  - rewrite (pathSelector_current doc cache p Hcur). by apply Henc.
  - rewrite Hdec. split.
    + by apply (chain_located_only doc p tag kids).
    + by apply (chain_located doc p tag kids).
Qed.

Lemma roundtrip_exactly_when_unrivalled_witness :
  let cache := (pathSelector Samples.nested no_cache
                  (composedPath_of Samples.nested_paragraph)).2 in
  cache (Node Samples.nested_paragraph)
  = Some "html > body > x-card::shadow div > div:nth-of-type(2) > p:nth-of-type(2)"
  /\ forallb (fun p => chain_plain Samples.nested p
                       && unrivalled Samples.nested p)
       Samples.nested_elements = true
  /\ exists address,
       (pathSelector Samples.nested cache
          (composedPath_of Samples.nested_paragraph)).1 = Ok (Some address)
       /\ pathLocator Samples.nested address
          = Ok (Some (Node Samples.nested_paragraph)).
Proof.
  split; [vm_compute; reflexivity|]. split; [vm_compute; reflexivity|].
  destruct (roundtrip_exactly_when_unrivalled Samples.nested
              Samples.nested_paragraph
              (pathSelector Samples.nested no_cache
                 (composedPath_of Samples.nested_paragraph)).2 "p" []
              eq_refl ltac:(vm_compute; reflexivity)
              ltac:(intros _; vm_compute; reflexivity))
    as (address & Henc & Hdec).
  exists address. split; [exact Henc|].
  apply Hdec. vm_compute; reflexivity.
Defined.

(* ===================================================================== *)
(** * Properties of the presence store and the reaper                      *)
(* ===================================================================== *)

Section StoreFacts.

Lemma expired_unset now c : deadline c = None -> expired now c = false.
Proof. unfold expired. intros ->. reflexivity. Qed.

Lemma expired_set now c d :
  deadline c = Some d -> expired now c = (2000 <? now - d)%Z.
Proof. unfold expired. intros ->. reflexivity. Qed.

Lemma sweep_one_markers now st id :
  markers (sweep_one now st id) = markers st.
Proof.
  unfold sweep_one. destruct (cursors st !! id) as [c|]; [|done].
  by destruct (expired now c).
Qed.

Lemma sweep_one_lookup now st id k :
  cursors (sweep_one now st id) !! k =
    if decide (k = id) then cursors st !! k ≫= survives now
    else cursors st !! k.
Proof.
  unfold sweep_one, survives. case_decide as Hk.
  - subst k. destruct (cursors st !! id) as [c|] eqn:Hc; simpl.
    + destruct (expired now c) eqn:He; simpl.
      * apply lookup_delete_eq.
      * by rewrite Hc.
    + by rewrite Hc.
  - destruct (cursors st !! id) as [c|] eqn:Hc; [|done].
    destruct (expired now c); [|done]. simpl. by apply lookup_delete_ne.
Qed.

Lemma survives_twice now (o : option Cursor) :
  (o ≫= survives now) ≫= survives now = o ≫= survives now.
Proof.
  destruct o as [c|]; [|done]. simpl. unfold survives.
  destruct (expired now c) eqn:He; simpl; [done|]. by rewrite He.
Qed.

Lemma sweep_loop_lookup now (l : list string) st k :
  cursors (foldl (sweep_one now) st l) !! k =
    if decide (k ∈ l) then cursors st !! k ≫= survives now
    else cursors st !! k.
Proof.
  revert st. induction l as [|a l IH]; intros st.
  - simpl. destruct (decide (k ∈ [])) as [H|H]; [|done].
    by apply elem_of_nil in H.
  - cbn [foldl]. rewrite IH, sweep_one_lookup.
    destruct (decide (k = a)) as [->|Hne].
    + rewrite survives_twice.
      rewrite (decide_True (P := a ∈ a :: l)) by apply list_elem_of_here.
      by destruct (decide (a ∈ l)).
    + destruct (decide (k ∈ l)) as [Hin|Hnin].
      * rewrite decide_True by (by apply list_elem_of_further). done.
      * rewrite decide_False; [done|].
        intros [?|?]%elem_of_cons; done.
Qed.

Lemma sweep_loop_markers now (l : list string) st :
  markers (foldl (sweep_one now) st l) = markers st.
Proof.
  revert st. induction l as [|a l IH]; intros st; simpl; [done|].
  by rewrite IH, sweep_one_markers.
Qed.

Lemma sweep_loop_tid now (l : list string) st :
  _tid (foldl (sweep_one now) st l) = _tid st
  /\ timers (foldl (sweep_one now) st l) = timers st
  /\ next_timer (foldl (sweep_one now) st l) = next_timer st.
Proof.
  revert st. induction l as [|a l IH]; intros st; simpl; [done|].
  destruct (IH (sweep_one now st a)) as (-> & -> & ->).
  unfold sweep_one. destruct (cursors st !! a) as [c|]; [|done].
  by destruct (expired now c).
Qed.

Lemma sweep_loop_debounce now (l : list string) st :
  debounce_timer (foldl (sweep_one now) st l) = debounce_timer st
  /\ whispers (foldl (sweep_one now) st l) = whispers st.
Proof.
  revert st. induction l as [|a l IH]; intros st; [done|].
  cbn [foldl]. destruct (IH (sweep_one now st a)) as [-> ->].
  unfold sweep_one. destruct (cursors st !! a) as [c|]; [|done].
  by destruct (expired now c).
Qed.

Lemma invalidate_whispers now st :
  whispers (_invalidateCursors now st) = whispers st.
Proof.
  unfold _invalidateCursors.
  destruct (sweep_loop_debounce now (map_to_list (cursors st)).*1 st)
    as [_ H].
  by destruct (truthy_id _).
Qed.

(** The store after [_invalidateCursors]: exactly the entries that were
    not expired. *)
Lemma invalidate_lookup now st k :
  cursors (_invalidateCursors now st) !! k = cursors st !! k ≫= survives now.
Proof.
  unfold _invalidateCursors.
  set (l := (map_to_list (cursors st)).*1).
  assert (Hl : cursors (foldl (sweep_one now) st l) !! k
               = cursors st !! k ≫= survives now).
  { rewrite sweep_loop_lookup. case_decide as Hin; [done|].
    destruct (cursors st !! k) as [c|] eqn:Hc; [|done].
    exfalso. apply Hin. unfold l. apply list_elem_of_fmap.
    exists (k, c). split; [done|]. by apply elem_of_map_to_list. }
  destruct (truthy_id _); [done|].
  destruct (setTimeout _ _ _ _) as [id st'] eqn:Hs.
  unfold setTimeout in Hs. injection Hs as <- <-. done.
Qed.

Lemma invalidate_markers now st :
  markers (_invalidateCursors now st) = markers st.
Proof.
  unfold _invalidateCursors.
  destruct (truthy_id _).
  - apply sweep_loop_markers.
  - simpl. apply sweep_loop_markers.
Qed.


Lemma sweep_one_renderRoot_sub now st id h :
  h ∈ renderRoot (sweep_one now st id) -> h ∈ renderRoot st.
Proof.
  unfold sweep_one. destruct (cursors st !! id) as [c|]; [|done].
  destruct (expired now c); [|done]. simpl.
  rewrite !list_elem_of_In. intros H%filter_In. tauto.
Qed.

Lemma sweep_loop_renderRoot_sub now (l : list string) st h :
  h ∈ renderRoot (foldl (sweep_one now) st l) -> h ∈ renderRoot st.
Proof.
  revert st. induction l as [|a l IH]; intros st; [done|].
  cbn [foldl]. intros H%IH. by eapply sweep_one_renderRoot_sub.
Qed.

(** A marker stays attached through the loop when no expired cursor
    wraps it. *)
Lemma sweep_loop_keeps_marker now (l : list string) st h :
  (forall k c, cursors st !! k = Some c -> expired now c = true ->
               el c <> h) ->
  h ∈ renderRoot st -> h ∈ renderRoot (foldl (sweep_one now) st l).
Proof.
  revert st. induction l as [|a l IH]; intros st Hne Hin; [done|].
  cbn [foldl]. apply IH.
  - intros k c Hk. apply (Hne k).
    rewrite sweep_one_lookup in Hk. case_decide; [|done].
    destruct (cursors st !! k) as [c'|]; [|done]. simpl in Hk.
    unfold survives in Hk. by destruct (expired now c').
  - unfold sweep_one. destruct (cursors st !! a) as [c|] eqn:Hc; [|done].
    destruct (expired now c) eqn:He; [|done]. simpl.
    rewrite list_elem_of_In. apply filter_In. split.
    + by apply list_elem_of_In.
    + apply negb_true_iff, Nat.eqb_neq. intros ->. by eapply (Hne a c).
Qed.

(** The marker of an expired cursor is detached by the loop. *)
Lemma sweep_loop_detaches now (l : list string) st k c :
  k ∈ l -> cursors st !! k = Some c -> expired now c = true ->
  el c ∉ renderRoot (foldl (sweep_one now) st l).
Proof.
  revert st. induction l as [|a l IH]; intros st Hin Hk He.
  - by apply elem_of_nil in Hin.
  - cbn [foldl]. destruct (decide (k = a)) as [->|Hne].
    + intros H%sweep_loop_renderRoot_sub. revert H.
      unfold sweep_one. rewrite Hk, He. simpl.
      rewrite list_elem_of_In. intros [_ H]%filter_In.
      by rewrite Nat.eqb_refl in H.
    + apply IH.
      * apply elem_of_cons in Hin as [?|?]; done.
      * rewrite sweep_one_lookup. by rewrite decide_False.
      * done.
Qed.

Lemma invalidate_renderRoot now st :
  renderRoot (_invalidateCursors now st)
  = renderRoot (foldl (sweep_one now) st (map_to_list (cursors st)).*1).
Proof.
  unfold _invalidateCursors. by destruct (truthy_id _).
Qed.

Lemma labelled_distinct st k1 k2 c1 c2 :
  labelled st -> cursors st !! k1 = Some c1 -> cursors st !! k2 = Some c2 ->
  el c1 = el c2 -> k1 = k2.
Proof.
  intros Hl H1 H2 Heq.
  destruct (Hl _ _ H1) as (m1 & Hm1 & Hid1).
  destruct (Hl _ _ H2) as (m2 & Hm2 & Hid2).
  rewrite Heq in Hm1. rewrite Hm1 in Hm2. injection Hm2 as <-.
  rewrite Hid1 in Hid2. cbv [String.append] in Hid2. by injection Hid2.
Qed.

End StoreFacts.

(** ** Reading the store under a name *)

Section Handler.
Variable page : Page.

Lemma get_own (o : gmap string Cursor) id c : o !! id = Some c -> get o id = Own c.
Proof. unfold get. by intros ->. Qed.

Lemma get_undefined (o : gmap string Cursor) id :
  o !! id = None -> inherited id = false -> get o id = Undefined.
Proof. unfold get. by intros -> ->. Qed.

Lemma get_inherited (o : gmap string Cursor) id :
  o !! id = None -> inherited id = true -> get o id = Inherited.
Proof. unfold get. by intros -> ->. Qed.

(** Under a name that is stored, or that no object inherits, the
    handler goes by the entries of the store alone. *)
Lemma handleMessage_own now msg st :
  cursors st !! msg_id msg <> None \/ inherited (msg_id msg) = false ->
  _handleMessage page now msg st
  = if String.eqb (msg_event msg) "move" then
      let id := msg_id msg in
      let st :=
        match cursors st !! id with
        | Some _ => st
        | None =>
            let '(c, st) := _createCursor id (msg_color msg) st in
            set_cursors (<[id := c]> (cursors st)) st
        end in
      match cursors st !! id with
      | Some cursor =>
          match keepalive page now (msg_location msg) cursor (markers st) with
          | Throw e => (st, Some e)
          | Ok (cursor, ms) =>
              let st := set_cursors (<[id := cursor]> (cursors st))
                                    (set_markers ms st) in
              (_invalidateCursors now st, None)
          end
      | None => (st, Some TypeError)
      end
    else (st, None).
Proof.
  intros Hown. unfold _handleMessage.
  destruct (String.eqb (msg_event msg) "move"); [|done]. cbv zeta.
  destruct (cursors st !! msg_id msg) as [c|] eqn:Hc.
  - rewrite (get_own _ _ c Hc), (get_own _ _ c Hc). by rewrite Hc.
  - destruct Hown as [?|Hni]; [done|].
    rewrite (get_undefined _ _ Hc Hni).
    destruct (_createCursor (msg_id msg) (msg_color msg) st) as [c st1].
    cbn [cursors set_cursors]. rewrite lookup_insert_eq.
    by rewrite (get_own _ _ c (lookup_insert_eq _ _ _)).
Qed.

(** Under an inherited name with nothing stored, a move raises and
    leaves the state as it was. *)
Lemma handleMessage_inherited now msg st :
  cursors st !! msg_id msg = None -> inherited (msg_id msg) = true ->
  _handleMessage page now msg st
  = (st, if String.eqb (msg_event msg) "move" then Some TypeError else None).
Proof.
  intros Hc Hin. unfold _handleMessage.
  destruct (String.eqb (msg_event msg) "move"); [|done]. cbv zeta.
  rewrite (get_inherited _ _ Hc Hin). cbv iota.
  by rewrite (get_inherited _ _ Hc Hin).
Qed.

Lemma handleMessage_cases now msg st :
  (_handleMessage page now msg st).1 = st
  \/ cursors st !! msg_id msg <> None \/ inherited (msg_id msg) = false.
Proof.
  destruct (cursors st !! msg_id msg) as [c|] eqn:Hc; [by right; left|].
  destruct (inherited (msg_id msg)) eqn:Hin; [|by right; right].
  left. by rewrite (handleMessage_inherited now msg st Hc Hin).
Qed.

End Handler.

(** Opens the handler in a goal about the state it leaves: under an
    inherited name the state is unchanged and [tac] closes the goal;
    otherwise the handler is rewritten to its reading by entries. *)
Ltac open_handler page now msg st tac :=
  let H := fresh "Hown" in
  destruct (handleMessage_cases page now msg st) as [->|H];
  [tac | rewrite (handleMessage_own page now msg st H); cbv zeta].

Section StoreClaims.
Variable page : Page.

Lemma labelled_invalidate now st :
  labelled st -> labelled (_invalidateCursors now st).
Proof.
  intros Hl k c Hk. rewrite invalidate_lookup in Hk.
  rewrite invalidate_markers.
  destruct (cursors st !! k) as [c'|] eqn:Hc; [|done]. simpl in Hk.
  unfold survives in Hk. destruct (expired now c'); [done|].
  injection Hk as <-. by apply Hl.
Qed.

Lemma invalidate_keeps_marker now st id c :
  labelled st -> cursors st !! id = Some c -> expired now c = false ->
  el c ∈ renderRoot st -> el c ∈ renderRoot (_invalidateCursors now st).
Proof.
  intros Hl Hc He Hin. rewrite invalidate_renderRoot.
  apply sweep_loop_keeps_marker; [|done].
  intros k c' Hk He' Heq.
  assert (k = id) as -> by (by eapply labelled_distinct).
  rewrite Hc in Hk. injection Hk as <-. congruence.
Qed.

(** A cursor whose deadline is set is removed, marker and entry, by a
    sweep later than 2000 ms after it. *)
Lemma located_cursor_expires now st id c d :
  cursors st !! id = Some c -> deadline c = Some d ->
  (2000 < now - d)%Z ->
  cursors (_invalidateCursors now st) !! id = None
  /\ el c ∉ renderRoot (_invalidateCursors now st).
Proof.
  intros Hc Hd Hlt.
  assert (He : expired now c = true).
  { rewrite (expired_set _ _ _ Hd). by apply Z.ltb_lt. }
  split.
  - rewrite invalidate_lookup, Hc. simpl. unfold survives. by rewrite He.
  - rewrite invalidate_renderRoot.
    apply (sweep_loop_detaches now _ st id c); [|done|done].
    apply list_elem_of_fmap. exists (id, c). split; [done|].
    by apply elem_of_map_to_list.
Qed.

(** A cursor whose deadline is set stays through every sweep up to
    2000 ms after it. *)
Lemma located_cursor_kept now st id c d :
  cursors st !! id = Some c -> deadline c = Some d ->
  (now - d <= 2000)%Z ->
  cursors (_invalidateCursors now st) !! id = Some c.
Proof.
  intros Hc Hd Hle. rewrite invalidate_lookup, Hc. simpl.
  unfold survives. rewrite (expired_set _ _ _ Hd).
  by rewrite (proj2 (Z.ltb_ge _ _) Hle).
Qed.

Lemma sweeps_keep_unlocated (times : list Z) st id c :
  labelled st -> cursors st !! id = Some c -> deadline c = None ->
  let st' := foldl (fun s t => _invalidateCursors t s) st times in
  cursors st' !! id = Some c
  /\ (el c ∈ renderRoot st -> el c ∈ renderRoot st').
Proof.
  revert st. induction times as [|t times IH]; intros st Hl Hc Hd; [done|].
  cbn [foldl].
  assert (Hc' : cursors (_invalidateCursors t st) !! id = Some c).
  { rewrite invalidate_lookup, Hc. simpl. unfold survives.
    by rewrite expired_unset. }
  destruct (IH _ (labelled_invalidate t st Hl) Hc' Hd) as [H1 H2].
  split; [done|]. intros Hin. apply H2.
  apply (invalidate_keeps_marker t st id c); try done.
  by apply expired_unset.
Qed.

(** C10. A cursor that no address has ever located has no deadline:
    [_createCursor] leaves [deadline] unset and a [keepalive] whose
    address is not found returns the cursor as it was. For such a
    cursor [expired] is false at every time (the subtraction gives
    [NaN], and [NaN > 2000] is false), so every sweep, and every
    sequence of sweeps at any times, leaves the entry in the store and
    its marker attached to the render root. *)
Theorem unlocated_cursor_never_expires (st : State) (id : string)
    (c : Cursor) :
  labelled st -> cursors st !! id = Some c -> deadline c = None ->
  (forall id' color st0, deadline (_createCursor id' color st0).1 = None)
  /\ (forall now location ms,
        pathLocator (page_doc page) (loc_path location) = Ok None ->
        keepalive page now location c ms = Ok (c, ms))
  /\ (forall now,
        sub (Num now) (to_number (deadline c)) = NaN
        /\ expired now c = false)
  /\ (forall times : list Z,
        let st' := foldl (fun s t => _invalidateCursors t s) st times in
        cursors st' !! id = Some c
        /\ (el c ∈ renderRoot st -> el c ∈ renderRoot st')).
Proof.
  intros Hl Hc Hd. split; [done|]. split; [|split].
  - unfold keepalive. intros now location ms ->. done.
  - intros now. split; [by rewrite Hd | by apply expired_unset].
  - intros times. by apply sweeps_keep_unlocated.
Qed.

End StoreClaims.

Lemma labelled_after_lost : labelled Scenario.after_lost.
Proof.
  assert (Hs : cursors Scenario.after_lost
               = {[ "bob" := {| cursor_id := "bob"; el := 0;
                                deadline := None |} ]})
    by (vm_compute; reflexivity).
  intros k c Hk. rewrite Hs in Hk.
  apply lookup_singleton_Some in Hk as [<- <-].
  eexists. split; [vm_compute|]; reflexivity.
Qed.

Lemma unlocated_cursor_never_expires_witness :
  labelled Scenario.after_lost
  /\ cursors Scenario.after_lost !! "bob"
     = Some {| cursor_id := "bob"; el := 0; deadline := None |}
  /\ cursors (foldl (fun s t => _invalidateCursors t s) Scenario.after_lost
                    [500; 3000; 86400000]%Z) !! "bob"
     = Some {| cursor_id := "bob"; el := 0; deadline := None |}.
Proof.
  assert (Hc : cursors Scenario.after_lost !! "bob"
               = Some {| cursor_id := "bob"; el := 0; deadline := None |})
    by (vm_compute; reflexivity).
  split; [exact labelled_after_lost|]. split; [exact Hc|].
  exact (proj1 (proj2 (proj2 (proj2
    (unlocated_cursor_never_expires Scenario.pg Scenario.after_lost "bob"
       {| cursor_id := "bob"; el := 0; deadline := None |}
       labelled_after_lost Hc eq_refl))) [500; 3000; 86400000]%Z)).
Defined.

(** C4. The staleness rule is missed for a cursor that was never
    located. [lost] arrives at time 0 and creates the cursor of "bob";
    it is never refreshed. A sweep a full day later (86400000 ms, far
    beyond the 2000 ms threshold) finds [expired] false, keeps the entry
    and leaves its marker attached. *)
Theorem stale_unlocated_cursor_survives :
  let st := (_handleMessage Scenario.pg 0%Z Scenario.lost initial).1 in
  let st' := _invalidateCursors 86400000%Z st in
  cursors st !! "bob"
    = Some {| cursor_id := "bob"; el := 0; deadline := None |}
  /\ expired 86400000%Z {| cursor_id := "bob"; el := 0; deadline := None |}
     = false
  /\ cursors st' !! "bob"
     = Some {| cursor_id := "bob"; el := 0; deadline := None |}
  /\ renderRoot st' = [0].
Proof. vm_compute. repeat split; reflexivity. Qed.

Section UpsertClaims.
Variable page : Page.

(** C2, as amended. For a move message whose address is not found:
    when the store has no entry for the id, and the id is not the name
    of a member that objects inherit, one is created before the address
    is resolved, with no deadline, and it is in the store when the
    handler returns; when the store has an entry, no marker is changed
    (in particular the transform of the entry's marker is what it
    was), the entry keeps its deadline, and it is still in the store
    unless the sweep that ends the handler finds it expired. *)
Theorem unresolved_move_effect (now : Z) (msg : Message) (st : State) :
  msg_event msg = "move" ->
  pathLocator (page_doc page) (loc_path (msg_location msg)) = Ok None ->
  let st' := (_handleMessage page now msg st).1 in
  match cursors st !! msg_id msg with
  | None =>
      inherited (msg_id msg) = false ->
      exists c, cursors st' !! msg_id msg = Some c
                /\ cursor_id c = msg_id msg /\ deadline c = None
  | Some c =>
      markers st' = markers st
      /\ cursors st' !! msg_id msg = survives now c
  end.
Proof.
  intros Hev Hpath. cbv zeta.
  destruct (cursors st !! msg_id msg) as [c|] eqn:Hc.
  - rewrite handleMessage_own by (left; congruence).
    rewrite Hev. change (String.eqb "move" "move") with true. cbv iota zeta.
    rewrite Hc. cbv iota. rewrite Hc.
    unfold keepalive. rewrite Hpath. cbn [fst].
    split.
    + by rewrite invalidate_markers.
    + rewrite invalidate_lookup. cbn [cursors set_cursors].
      by rewrite lookup_insert_eq.
  - intros Hni. rewrite handleMessage_own by (by right).
    rewrite Hev. change (String.eqb "move" "move") with true. cbv iota zeta.
    rewrite Hc. cbv iota.
    destruct (_createCursor (msg_id msg) (msg_color msg) st)
      as [c st1] eqn:Hcr.
    assert (Hd : deadline c = None /\ cursor_id c = msg_id msg).
    { unfold _createCursor in Hcr. by injection Hcr as <- <-. }
    destruct Hd as [Hd Hid].
    cbn [cursors set_cursors]. rewrite lookup_insert_eq.
    unfold keepalive. rewrite Hpath. cbn [fst].
    exists c. rewrite invalidate_lookup. cbn [cursors set_cursors].
    rewrite lookup_insert_eq. cbn. unfold survives.
    by rewrite expired_unset.
Qed.

End UpsertClaims.

(** C2, counterexample. [lost] names no element of the page and the
    store holds no entry for "bob"; after the handler the store has one
    entry, not zero. *)
Lemma unresolved_move_grows_store :
  pathLocator Samples.page (loc_path (msg_location Scenario.lost)) = Ok None
  /\ cursors initial !! msg_id Scenario.lost = None
  /\ size (cursors initial) = 0
  /\ size (cursors (_handleMessage Scenario.pg 0%Z Scenario.lost initial).1)
     = 1.
Proof. vm_compute. repeat split; reflexivity. Qed.

Lemma unresolved_move_effect_witness :
  msg_event Scenario.lost = "move"
  /\ pathLocator (page_doc Scenario.pg)
       (loc_path (msg_location Scenario.lost)) = Ok None
  /\ inherited (msg_id Scenario.lost) = false
  /\ exists c,
       cursors (_handleMessage Scenario.pg 0%Z Scenario.lost initial).1
         !! "bob" = Some c
       /\ cursor_id c = "bob" /\ deadline c = None.
Proof.
  split; [reflexivity|]. split; [vm_compute; reflexivity|].
  split; [reflexivity|].
  exact (unresolved_move_effect Scenario.pg 0%Z Scenario.lost initial
           eq_refl ltac:(vm_compute; reflexivity) eq_refl).
Defined.

(* ===================================================================== *)
(** * Properties of the reaper timer and of the session callbacks          *)
(* ===================================================================== *)

Section ReaperClaims.



End ReaperClaims.




Section SessionClaims.
Variable cfg : Config.
Variable page : Page.

(** A timer that fires whispers nothing: the reaper does not touch the
    channel, and the trailing call of the debounced handler runs after
    dispatch, where it ends before [channel.whisper]. *)
Lemma fire_whispers_nothing (now : Z) (id : nat) (st : State) :
  whispers (fire cfg page now id st).1 = whispers st.
Proof.
  unfold fire. destruct (List.find _ (timers st)) as [t|]; [|done].
  destruct (job t); [|done]. cbn [fst]. by rewrite invalidate_whispers.
Qed.


Lemma set_connected_sweep_loop b now (l : list string) st :
  foldl (sweep_one now) (set_connected b st) l
  = set_connected b (foldl (sweep_one now) st l).
Proof.
  revert st. induction l as [|a l IH]; intros st; [done|].
  cbn [foldl]. rewrite <- IH. f_equal.
  unfold sweep_one. cbn [cursors set_connected].
  destruct (cursors st !! a) as [c|]; [|done].
  by destruct (expired now c).
Qed.

Lemma set_connected_invalidate b now st :
  _invalidateCursors now (set_connected b st)
  = set_connected b (_invalidateCursors now st).
Proof.
  unfold _invalidateCursors. cbn [cursors set_connected].
  rewrite set_connected_sweep_loop. cbn [_tid set_connected].
  by destruct (truthy_id _).
Qed.

(** C6, as amended. [_handleMessage] never reads the [connected] flag:
    whatever the flag is, a message has the same effect on the store,
    the markers and the timers, and ends the same way. *)
Theorem message_handling_ignores_connected (b : bool) (now : Z)
    (msg : Message) (st : State) :
  _handleMessage page now msg (set_connected b st)
  = (set_connected b (_handleMessage page now msg st).1,
     (_handleMessage page now msg st).2).
Proof.
  destruct (cursors st !! msg_id msg) as [c|] eqn:Hc;
    [|destruct (inherited (msg_id msg)) eqn:Hin].
  2: { rewrite (handleMessage_inherited page now msg st Hc Hin).
       by rewrite (handleMessage_inherited page now msg (set_connected b st)
                     Hc Hin). }
  all: rewrite (handleMessage_own page now msg st) by (rewrite Hc; auto).
  all: rewrite (handleMessage_own page now msg (set_connected b st))
         by (cbn [cursors set_connected]; rewrite Hc; auto).
  all: destruct (String.eqb (msg_event msg) "move"); [|done].
  all: cbn [cursors set_connected]; rewrite Hc.
  - cbn [cursors set_connected markers]. rewrite Hc.
    destruct (keepalive _ _ _ _ _) as [[c' ms]|e]; [|done].
    cbn [fst snd]. f_equal.
    etransitivity; [|apply set_connected_invalidate]. reflexivity.
  - cbn [_createCursor fst snd cursors set_cursors set_connected markers
           set_markers set_renderRoot renderRoot].
    rewrite !lookup_insert_eq.
    destruct (keepalive _ _ _ _ _) as [[c' ms]|e]; [|done].
    cbn [fst snd]. f_equal.
    etransitivity; [|apply set_connected_invalidate]. reflexivity.
Qed.

End SessionClaims.


(** C6, counterexample. The widget is as constructed, [connected] is
    false, no connect event has arrived; the move message [found] is
    handled all the same and creates the cursor of "ann". *)
Lemma message_before_connect_is_stored :
  connected initial = false
  /\ cursors initial = ∅
  /\ cursors (react Scenario.unthrottled Scenario.pg 0%Z
                (ChannelMessage Scenario.found) initial).1 !! "ann"
     = Some {| cursor_id := "ann"; el := 0; deadline := Some 0%Z |}.
Proof. vm_compute. repeat split; reflexivity. Qed.

(** C9. With [throttle = 100] the listener is the debounced handler. For
    pointer events every 10 ms from 0 to 500 ms each call replaces the
    pending trailing call, so when the burst is over one call is
    pending, for the last event, due at 600 ms, and nothing has been
    whispered. That call runs from the timer, after the event's
    dispatch is over: [composedPath()] is empty, [composedPath[0]] is
    undefined and the handler ends with a TypeError before it reaches
    [channel.whisper]. Nothing is whispered, then or later. *)
Theorem throttled_burst_whispers_nothing :
  let st1 := (run Scenario.throttled Scenario.pg 100 Scenario.burst
                Scenario.active).1 in
  let '(st2, errors) :=
    run Scenario.throttled Scenario.pg 100 [(5000%Z, Detach)] st1 in
  timers st1 = [{| timer_id := 51; due := 600%Z;
                   job := Trailing (Scenario.over_span 50) |}]
  /\ whispers st1 = []
  /\ fire Scenario.throttled Scenario.pg 600%Z 51 st1
     = (clearTimeout (Some 51) st1, Some TypeError)
  /\ whispers st2 = [] /\ errors = [TypeError] /\ timers st2 = [].
Proof. vm_compute. repeat split; reflexivity. Qed.

(** Were the event's path still readable when the trailing call runs,
    that call would whisper the last event of the burst: the loss lies
    in reading the path late, not in the debouncing. *)
Lemma trailing_call_with_path_would_whisper :
  let st1 := (run Scenario.throttled Scenario.pg 100 Scenario.burst
                Scenario.active).1 in
  w_x <$> whispers (_handleMove Scenario.throttled Scenario.pg true
                      (Scenario.over_span 50) st1).1
  = [40%Z].
Proof. vm_compute. reflexivity. Qed.

(** Without a throttle the same burst whispers once per event, the last
    whisper being that of the last event. *)
Lemma unthrottled_burst_whispers_each :
  let '(st, errors) :=
    run Scenario.unthrottled Scenario.pg 100 Scenario.burst
        Scenario.active in
  length (whispers st) = 51
  /\ w_x <$> last (whispers st) = Some 40%Z
  /\ errors = [].
Proof. vm_compute. repeat split; reflexivity. Qed.

(* ===================================================================== *)
(** * The invariants hold in every state the widget reaches                *)
(* ===================================================================== *)

Section Invariants.
Variable cfg : Config.
Variable page : Page.

Lemma labelled_initial : labelled initial.
Proof. intros k c Hk. cbn in Hk. by rewrite lookup_empty in Hk. Qed.

Lemma timers_ok_initial : timers_ok initial.
Proof.
  split_timers_ok; cbn.
  - constructor.
  - intros t Ht. by apply elem_of_nil in Ht.
  - lia.
  - done.
  - done.
Qed.

Lemma timers_ok_armed st : timers_ok st -> armed st.
Proof. intros (_ & _ & _ & Htid & _) id Hid _. by apply Htid. Qed.

Lemma timers_ok_frame st st' :
  timers st' = timers st -> next_timer st' = next_timer st ->
  _tid st' = _tid st -> debounce_timer st' = debounce_timer st ->
  timers_ok st -> timers_ok st'.
Proof. unfold timers_ok. by intros -> -> -> ->. Qed.

Lemma timers_ok_setTimeout_reap now st :
  timers_ok st -> _tid st = None ->
  timers_ok (set_tid (Some (next_timer st)) (setTimeout Reap 500 now st).2).
Proof.
  intros (Hnd & Hids & Hpos & Htid & Hdb) Hnone.
  split_timers_ok; cbn.
  - rewrite fmap_app. apply NoDup_app. split; [done|]. split.
    + intros x Hx [->|H]%elem_of_cons; [|by apply elem_of_nil in H].
      apply list_elem_of_fmap in Hx as (t & Ht & Hin).
      apply Hids in Hin. cbn in Ht. lia.
    + apply NoDup_singleton.
  - intros t [H|H]%elem_of_app.
    + apply Hids in H. lia.
    + apply list_elem_of_singleton in H as ->. cbn. lia.
  - lia.
  - intros id [= <-].
    exists {| timer_id := next_timer st; due := (now + 500)%Z; job := Reap |}.
    split; [|split; reflexivity].
    apply elem_of_app. right. apply list_elem_of_here.
  - intros d H. split; [apply Hdb in H; lia|].
    intros t [Ht|Ht]%elem_of_app Hid.
    + by apply (proj2 (Hdb d H) t).
    + apply list_elem_of_singleton in Ht as ->. cbn in Hid.
      apply Hdb in H. lia.
Qed.

Lemma timers_ok_invalidate now st :
  timers_ok st -> timers_ok (_invalidateCursors now st).
Proof.
  intros Hok. unfold _invalidateCursors.
  set (st1 := foldl (sweep_one now) st (map_to_list (cursors st)).*1).
  destruct (sweep_loop_tid now (map_to_list (cursors st)).*1 st)
    as (Htid & Htm & Hnx).
  destruct (sweep_loop_debounce now (map_to_list (cursors st)).*1 st)
    as (Hdb & _).
  fold st1 in Htid, Htm, Hnx, Hdb.
  assert (Hok1 : timers_ok st1) by (by apply (timers_ok_frame st)).
  destruct (truthy_id (_tid st1)) eqn:Ht; [done|].
  assert (Hnone : _tid st1 = None).
  { destruct (_tid st1) as [[|n]|] eqn:E; try done.
    destruct Hok1 as (_ & Hids & _ & Htid1 & _).
    destruct (Htid1 0 E) as (t & Hin & Hid & _).
    apply Hids in Hin. lia. }
  exact (timers_ok_setTimeout_reap now st1 Hok1 Hnone).
Qed.

Lemma NoDup_filter_ids (f : timer -> bool) (l : list timer) :
  NoDup (timer_id <$> l) -> NoDup (timer_id <$> List.filter f l).
Proof.
  induction l as [|t l IH]; [done|].
  cbn. intros [Hnot Hnd]%NoDup_cons.
  destruct (f t); [|by apply IH].
  cbn. apply NoDup_cons. split; [|by apply IH].
  intros (t' & Hid & Hin)%list_elem_of_fmap. apply Hnot.
  apply list_elem_of_fmap. exists t'. split; [done|].
  apply list_elem_of_In. apply list_elem_of_In in Hin.
  by apply filter_In in Hin as [? _].
Qed.

Lemma NoDup_ids_same (l : list timer) t t' :
  NoDup (timer_id <$> l) -> t ∈ l -> t' ∈ l -> timer_id t' = timer_id t ->
  t' = t.
Proof.
  induction l as [|t0 l IH]; intros Hnd Hin Hin' Hid.
  - by apply elem_of_nil in Hin.
  - cbn in Hnd. apply NoDup_cons in Hnd as [Hnot Hnd].
    apply elem_of_cons in Hin as [->|Hin];
      apply elem_of_cons in Hin' as [->|Hin']; try done.
    + exfalso. apply Hnot. apply list_elem_of_fmap. by exists t'.
    + exfalso. apply Hnot. apply list_elem_of_fmap. by exists t.
    + by apply IH.
Qed.

Lemma timers_ok_clear id st :
  timers_ok st ->
  (forall t, t ∈ timers st -> timer_id t = id -> job t <> Reap) ->
  timers_ok (clearTimeout (Some id) st).
Proof.
  intros (Hnd & Hids & Hpos & Htid & Hdb) Hnr.
  assert (Hsub : forall t, t ∈ timers (clearTimeout (Some id) st) ->
                           t ∈ timers st).
  { intros t. cbn. rewrite !list_elem_of_In. by intros [? _]%filter_In. }
  split_timers_ok.
  - cbn. by apply NoDup_filter_ids.
  - intros t H. apply Hsub, Hids in H. cbn. lia.
  - done.
  - intros tid Ht. cbn in Ht. destruct (Htid tid Ht) as (t & Hin & Hid & Hjob).
    exists t. split; [|done]. cbn. apply list_elem_of_In, filter_In.
    split; [by apply list_elem_of_In|].
    apply negb_true_iff, Nat.eqb_neq. intros E.
    by apply (Hnr t Hin).
  - intros d H. split; [by apply Hdb|].
    intros t Hin. apply (proj2 (Hdb d H) t). by apply Hsub.
Qed.

Lemma timers_ok_debounced wait now e st :
  timers_ok st -> timers_ok (debounced wait now e st).
Proof.
  intros Hok. unfold debounced.
  assert (Hok1 : timers_ok (clearTimeout (debounce_timer st) st)).
  { destruct (debounce_timer st) as [d|] eqn:Hd; [|done].
    apply timers_ok_clear; [done|].
    destruct Hok as (_ & _ & _ & _ & Hdb). by apply Hdb. }
  set (st1 := clearTimeout (debounce_timer st) st) in *.
  destruct Hok1 as (Hnd & Hids & Hpos & Htid & Hdb).
  split_timers_ok; cbn.
  - rewrite fmap_app. apply NoDup_app. split; [done|]. split.
    + intros x Hx [->|H]%elem_of_cons; [|by apply elem_of_nil in H].
      apply list_elem_of_fmap in Hx as (t & Ht & Hin).
      apply Hids in Hin. cbn in Ht. lia.
    + apply NoDup_singleton.
  - intros t [H|H]%elem_of_app.
    + apply Hids in H. lia.
    + apply list_elem_of_singleton in H as ->. cbn. lia.
  - lia.
  - intros id Hid. destruct (Htid id Hid) as (t & Hin & Ht & Hjob).
    exists t. split; [|done]. apply elem_of_app. by left.
  - intros d [= <-]. split; [lia|].
    intros t [Ht|Ht]%elem_of_app Hid.
    + apply Hids in Ht. lia.
    + by apply list_elem_of_singleton in Ht as ->.
Qed.

Lemma handleMove_frame dispatching e st :
  let st' := (_handleMove cfg page dispatching e st).1 in
  cursors st' = cursors st /\ markers st' = markers st
  /\ timers st' = timers st /\ next_timer st' = next_timer st
  /\ _tid st' = _tid st /\ debounce_timer st' = debounce_timer st.
Proof.
  unfold _handleMove.
  destruct (if dispatching then event_path e else []) as [|[|p] rest];
    try done.
  destruct (resolve (page_doc page) p) as [[|[|tag kids sh]]|]; try done.
  destruct (pathSelector _ _ _) as [[path|err] c]; done.
Qed.

Lemma labelled_frame st st' :
  cursors st' = cursors st -> markers st' = markers st ->
  labelled st -> labelled st'.
Proof. unfold labelled. by intros -> ->. Qed.

Lemma labelled_create id color st :
  labelled st ->
  cursors st !! id = None ->
  let '(c, st') := _createCursor id color st in
  labelled (set_cursors (<[id := c]> (cursors st')) st').
Proof.
  intros Hl Hnone. unfold _createCursor.
  set (h := fresh (dom (markers st))).
  set (name := "cursor-" +:+ id).
  set (st1 := set_renderRoot _ _).
  assert (Hfresh : markers st !! h = None).
  { apply not_elem_of_dom. apply is_fresh. }
  intros k c Hk. cbn [cursors set_cursors markers] in Hk |- *.
  destruct (decide (k = id)) as [->|Hne].
  - rewrite lookup_insert_eq in Hk. injection Hk as <-. cbn [el].
    destruct (getElementById st1 name) as [h'|] eqn:Hget; cbn [default from_option Datatypes.id].
    + unfold getElementById in Hget. apply find_some in Hget as [_ Hm].
      destruct (markers st1 !! h') as [m|] eqn:Em; [|done].
      exists m. split; [done|]. by apply String.eqb_eq.
    + eexists. unfold st1. cbn [markers set_renderRoot set_markers].
      rewrite lookup_insert_eq. done.
  - rewrite lookup_insert_ne in Hk by done.
    destruct (Hl k c Hk) as (m & Hm & Hid).
    exists m. split; [|done]. unfold st1.
    cbn [markers set_renderRoot set_markers].
    rewrite lookup_insert_ne; [done|]. intros E. congruence.
Qed.

Lemma labelled_handleMessage now msg st :
  labelled st -> labelled (_handleMessage page now msg st).1.
Proof.
  intros Hl. open_handler page now msg st ltac:(done).
  destruct (String.eqb (msg_event msg) "move"); [|done].
  set (st1 := match cursors st !! msg_id msg with
              | Some _ => st
              | None => _ end).
  assert (Hl1 : labelled st1).
  { unfold st1. destruct (cursors st !! msg_id msg) eqn:Hc; [done|].
    pose proof (labelled_create (msg_id msg) (msg_color msg) st Hl Hc) as H.
    by destruct (_createCursor _ _ st). }
  clearbody st1.
  destruct (cursors st1 !! msg_id msg) as [c|] eqn:Hc; [|done].
  unfold keepalive.
  destruct (pathLocator _ _) as [[[|p]|]|err]; try done.
  - cbn [fst]. apply labelled_invalidate.
    intros k c' Hk. cbn [cursors set_cursors markers set_markers] in Hk |- *.
    assert (Hel : exists c0, cursors st1 !! k = Some c0 /\ el c0 = el c').
    { destruct (decide (k = msg_id msg)) as [->|Hne].
      - rewrite lookup_insert_eq in Hk. injection Hk as <-. by exists c.
      - rewrite lookup_insert_ne in Hk by done. by exists c'. }
    destruct Hel as (c0 & Hc0 & <-).
    destruct (Hl1 k c0 Hc0) as (m & Hm & Hid).
    rewrite lookup_alter. case_decide as E.
    + rewrite E, Hm. cbn. eexists. split; [done|]. done.
    + rewrite Hm. by exists m.
  - cbn [fst]. apply labelled_invalidate.
    intros k c' Hk. cbn [cursors set_cursors markers set_markers] in Hk |- *.
    destruct (decide (k = msg_id msg)) as [->|Hne].
    + rewrite lookup_insert_eq in Hk. injection Hk as <-. by apply Hl1.
    + rewrite lookup_insert_ne in Hk by done. by apply Hl1.
Qed.

Lemma handleMessage_timers now msg st :
  timers_ok st -> timers_ok (_handleMessage page now msg st).1.
Proof.
  intros Hok. open_handler page now msg st ltac:(done).
  destruct (String.eqb (msg_event msg) "move"); [|done].
  set (st1 := match cursors st !! msg_id msg with
              | Some _ => st
              | None => _ end).
  assert (Hok1 : timers_ok st1).
  { unfold st1. by destruct (cursors st !! msg_id msg). }
  clearbody st1.
  destruct (cursors st1 !! msg_id msg) as [c|]; [|done].
  destruct (keepalive _ _ _ _ _) as [[c' ms]|err]; [|done].
  cbn [fst]. apply timers_ok_invalidate.
  by apply (timers_ok_frame st1).
Qed.

Lemma fire_invariant now id st :
  invariant st -> invariant (fire cfg page now id st).1.
Proof.
  intros [Hl Hok]. unfold fire.
  destruct (List.find _ (timers st)) as [t|] eqn:Hfind; [|done].
  apply find_some in Hfind as [Hin Hid]. apply Nat.eqb_eq in Hid.
  apply list_elem_of_In in Hin.
  destruct (job t) eqn:Hjob.
  - cbn [fst]. split.
    + apply labelled_invalidate. by apply (labelled_frame st).
    + apply timers_ok_invalidate.
      destruct Hok as (Hnd & Hids & Hpos & Htid & Hdb).
      assert (Hsub : forall t', t' ∈ timers (clearTimeout (Some id) st) ->
                                t' ∈ timers st).
      { intros t'. cbn. rewrite !list_elem_of_In. by intros [? _]%filter_In. }
      split_timers_ok.
      * cbn. by apply NoDup_filter_ids.
      * intros t' H. apply Hsub, Hids in H. cbn. lia.
      * done.
      * done.
      * intros d H. split; [by apply Hdb|].
        intros t' Hin'. apply (proj2 (Hdb d H) t'). by apply Hsub.
  - assert (Hok1 : timers_ok (clearTimeout (Some id) st)).
    { apply timers_ok_clear; [done|].
      intros t' Hin' Hid' Hreap.
      destruct Hok as (Hnd & _).
      assert (t' = t) as ->; [|congruence].
      apply (NoDup_ids_same (timers st)); try done. congruence. }
    destruct (handleMove_frame false e (clearTimeout (Some id) st))
      as (Hc & Hm & Ht & Hn & Htid & Hdb).
    split.
    + apply (labelled_frame st); [by rewrite Hc|by rewrite Hm|done].
    + by apply (timers_ok_frame (clearTimeout (Some id) st)).
Qed.

(** Every reaction of the widget preserves the invariants. *)
Lemma react_invariant now i st :
  invariant st -> invariant (react cfg page now i st).1.
Proof.
  intros [Hl Hok]. destruct i as [| |msg|e|id|]; cbn [react].
  - done.
  - done.
  - split; [by apply labelled_handleMessage|by apply handleMessage_timers].
  - destruct (listening st); [|done]. unfold mousemove_listener.
    assert (Hmove : invariant (_handleMove cfg page true e st).1).
    { destruct (handleMove_frame true e st)
        as (Hc & Hm & Ht & Hn & Htid & Hdb).
      split; [by apply (labelled_frame st)|by apply (timers_ok_frame st)]. }
    destruct (throttle cfg) as [wait|]; [|done].
    destruct (wait =? 0)%Z; [done|]. cbn [fst].
    split; [|by apply timers_ok_debounced].
    apply (labelled_frame st); [| |done];
      unfold debounced; by destruct (debounce_timer st).
  - by apply fire_invariant.
  - split; [|done]. intros k c Hk. cbn in Hk. by rewrite lookup_empty in Hk.
Qed.

Lemma run_timers_invariant fuel now st :
  invariant st -> invariant (run_timers cfg page fuel now st).1.
Proof.
  revert st. induction fuel as [|fuel IH]; intros st Hinv; [done|].
  cbn [run_timers]. destruct (next_due now st) as [t|]; [|done].
  pose proof (fire_invariant (due t) (timer_id t) st Hinv) as H1.
  destruct (fire cfg page (due t) (timer_id t) st) as [st1 err].
  specialize (IH st1 H1).
  by destruct (run_timers cfg page fuel now st1).
Qed.

(** The invariants hold after any timeline of inputs. *)
Lemma run_invariant fuel events st :
  invariant st -> invariant (run cfg page fuel events st).1.
Proof.
  revert st. induction events as [|[t i] events IH]; intros st Hinv; [done|].
  cbn [run].
  pose proof (run_timers_invariant fuel t st Hinv) as H1.
  destruct (run_timers cfg page fuel t st) as [st1 errs1].
  pose proof (react_invariant t i st1 H1) as H2.
  destruct (react cfg page t i st1) as [st2 err].
  specialize (IH st2 H2).
  by destruct (run cfg page fuel events st2).
Qed.

Lemma reachable_invariant fuel events :
  invariant (run cfg page fuel events initial).1.
Proof.
  apply run_invariant. split; [apply labelled_initial|apply timers_ok_initial].
Qed.

End Invariants.

(* ===================================================================== *)
(** * More about the address codec                                         *)
(* ===================================================================== *)

Section Disambiguation.
Variable doc : document.

Lemma of_nat_inj n m : of_nat n = of_nat m -> n = m.
Proof.
  intros H. pose proof (of_nat_parse n) as Hn.
  rewrite H, of_nat_parse in Hn. by injection Hn.
Qed.

Lemma append_inj_l (a b c : string) : a +:+ b = a +:+ c -> b = c.
Proof.
  induction a as [|x a IH]; [by rewrite !append_nil_l|].
  rewrite !append_cons. intros [= H]. by apply IH.
Qed.

Lemma length_append (a b : string) :
  String.length (a +:+ b) = String.length a + String.length b.
Proof.
  induction a as [|x a IH]; [by rewrite append_nil_l|].
  rewrite append_cons. cbn. by rewrite IH.
Qed.

Lemma append_inj_r (a b c : string) : a +:+ c = b +:+ c -> a = b.
Proof.
  intros H.
  assert (Hlen : String.length a = String.length b).
  { apply (f_equal String.length) in H.
    rewrite !length_append in H. lia. }
  revert b H Hlen. induction a as [|x a IH]; intros [|y b] H Hlen;
    try discriminate Hlen; [done|].
  rewrite !append_cons in H. injection H as -> H.
  f_equal. apply IH; [done|]. by injection Hlen.
Qed.

Lemma count_same_take_mono t (sibs : list node) j i :
  j <= i -> Css.count_same t (take j sibs) <= Css.count_same t (take i sibs).
Proof.
  induction 1 as [|i Hle IH]; [done|].
  destruct (sibs !! i) as [x|] eqn:Hx.
  - rewrite (take_S_r _ _ _ Hx), count_same_snoc. lia.
  - apply lookup_ge_None in Hx. rewrite (take_ge sibs (S i)) by lia.
    by rewrite (take_ge sibs i) in IH by lia.
Qed.

(** The count of same-tag siblings grows strictly past an element of
    that tag. *)
Lemma count_same_take_lt (sibs : list node) i j tag kids sh :
  i < j -> sibs !! i = Some (Element tag kids sh) ->
  Css.count_same tag (take i sibs) < Css.count_same tag (take j sibs).
Proof.
  intros Hlt Hi.
  apply Nat.lt_le_trans with (Css.count_same tag (take (S i) sibs)).
  - rewrite (take_S_r _ _ _ Hi), count_same_snoc. cbn [Css.same_type].
    rewrite String.eqb_refl. lia.
  - apply count_same_take_mono. lia.
Qed.

Lemma segments_differ_by_count (tag : string) n m :
  n <> m ->
  (if n =? 0 then tag else tag +:+ ":nth-of-type(" +:+ of_nat (S n) +:+ ")")
  <> (if m =? 0 then tag
      else tag +:+ ":nth-of-type(" +:+ of_nat (S m) +:+ ")").
Proof.
  intros Hnm H.
  destruct n as [|n], m as [|m]; cbn [Nat.eqb] in H; try done.
  - symmetry in H. apply append_same_l in H. discriminate H.
  - apply append_same_l in H. discriminate H.
  - apply append_inj_l, append_inj_l, append_inj_r, of_nat_inj in H.
    congruence.
Qed.

(** X1. Two different element children of one parent that carry the
    same tag never get the same segment from [indexedSelector]: the
    ordinal, or its absence, tells them apart. *)
Theorem same_tag_siblings_get_distinct_segments (q : list step) (v : view)
    (i j : nat) (tag : string) (ki kj : list node)
    (shi shj : option (list node)) :
  resolve doc q = Some v ->
  children v !! i = Some (Element tag ki shi) ->
  children v !! j = Some (Element tag kj shj) ->
  i <> j ->
  indexedSelector doc (Node (Child i :: q))
  <> indexedSelector doc (Node (Child j :: q)).
Proof.
  intros Hq Hi Hj Hij.
  rewrite (indexedSelector_counts doc q i v tag ki shi Hq Hi).
  rewrite (indexedSelector_counts doc q j v tag kj shj Hq Hj).
  apply segments_differ_by_count.
  destruct (Nat.lt_total i j) as [Hlt|[->|Hlt]]; [|done|].
  - pose proof (count_same_take_lt _ _ _ _ _ _ Hlt Hi). lia.
  - pose proof (count_same_take_lt _ _ _ _ _ _ Hlt Hj). lia.
Qed.

End Disambiguation.

Lemma same_tag_siblings_get_distinct_segments_witness :
  indexedSelector Samples.page (Node [Child 0; Child 1; Child 1]) = "div"
  /\ indexedSelector Samples.page (Node [Child 2; Child 1; Child 1])
     = "div:nth-of-type(2)"
  /\ indexedSelector Samples.page (Node [Child 0; Child 1; Child 1])
     <> indexedSelector Samples.page (Node [Child 2; Child 1; Child 1]).
Proof.
  split; [reflexivity|]. split; [reflexivity|].
  exact (same_tag_siblings_get_distinct_segments Samples.page
           [Child 1; Child 1] _ 0 2 "div" [] [Samples.leaf "span"] None None
           eq_refl eq_refl eq_refl ltac:(lia)).
Defined.

Section Memo.
Variable doc : document.

(** X2. Once [pathSelector] has returned a non-empty address for a
    path, the address is kept on the path's first element: every later
    call whose path starts with that element returns the same address,
    whatever the rest of the path is, and leaves the cache as it is. *)
Theorem cached_address_is_reused (cache : selector_cache) (target : ref)
    (rest : list ref) (address : string) :
  (pathSelector doc cache (target :: rest)).1 = Ok (Some address) ->
  address <> "" ->
  let cache' := (pathSelector doc cache (target :: rest)).2 in
  forall rest' : list ref,
    pathSelector doc cache' (target :: rest') = (Ok (Some address), cache').
Proof.
  intros Hfirst Hne cache' rest'. subst cache'.
  unfold pathSelector in *.
  destruct (truthy (cache target)) eqn:Hc.
  - cbn [fst snd] in *. rewrite Hc. congruence.
  - cbn [fst snd] in *. injection Hfirst as Hloop. rewrite Hloop.
    assert (Hset : cache_set cache target (Some address) target
                   = Some address).
    { unfold cache_set. by rewrite decide_True. }
    rewrite Hset. by rewrite (truthy_nonempty address Hne).
Qed.

End Memo.

Lemma cached_address_is_reused_witness :
  (pathSelector Samples.page no_cache
     (composedPath_of [Child 3; Child 1; Child 1])).1
  = Ok (Some "html > body > p")
  /\ pathSelector Samples.page
       (pathSelector Samples.page no_cache
          (composedPath_of [Child 3; Child 1; Child 1])).2
       [Node [Child 3; Child 1; Child 1]]
     = (Ok (Some "html > body > p"),
        (pathSelector Samples.page no_cache
           (composedPath_of [Child 3; Child 1; Child 1])).2).
Proof.
  split; [reflexivity|].
  exact (cached_address_is_reused Samples.page no_cache
           (Node [Child 3; Child 1; Child 1])
           (above [Child 3; Child 1; Child 1] ++ [Window])
           "html > body > p" eq_refl ltac:(discriminate) []).
Defined.

Section Located.
Variable doc : document.

(** A successful scan returns what [find_node] found in one of the
    nodes scanned. *)
Lemma find_nodes_some sel stack (sibs : list node) ix :
  forall rest i,
    Css.find_nodes sel stack sibs i rest = Some ix ->
    exists m k, rest !! m = Some k
                /\ Css.find_node sel stack sibs (i + m) k = Some ix.
Proof.
  induction rest as [|k rest IH]; intros i H; [done|].
  cbn [Css.find_nodes] in H.
  destruct (Css.find_node sel stack sibs i k) as [r|] eqn:Hk.
  - injection H as ->. exists 0, k. by rewrite Nat.add_0_r.
  - destruct (IH (S i) H) as (m & k' & Hm & Hf).
    exists (S m), k'. split; [done|]. by rewrite Nat.add_succ_r.
Qed.

Lemma shadow_depth_children (ix : list nat) q :
  shadow_depth (rev (Child <$> ix) ++ q) = shadow_depth q.
Proof.
  unfold shadow_depth. rewrite List.filter_app, length_app.
  replace (List.filter _ (rev (Child <$> ix))) with (@nil step); [done|].
  induction ix as [|x ix IHix]; [done|].
  cbn [fmap list_fmap rev]. rewrite List.filter_app, <- IHix. reflexivity.
Qed.

(** What [find_node] returns leads to an element of the subtree. *)
Lemma find_node_resolves n :
  forall q v sel stack idx ix,
    resolve doc q = Some v ->
    children v !! idx = Some n ->
    Css.find_node sel stack (children v) idx n = Some ix ->
    exists tag kids sh,
      resolve doc (rev (Child <$> ix) ++ q)
      = Some (Item (Element tag kids sh)).
Proof.
  induction n as [d|tag kids sh IH] using node_ind';
    intros q v sel stack idx ix Hq Hidx Hfind; [done|].
  rewrite find_node_element in Hfind.
  destruct (Css.matches sel _).
  - injection Hfind as <-. cbn [fmap list_fmap rev app].
    exists tag, kids, sh. by rewrite (resolve_child doc q idx v Hq), Hidx.
  - destruct (Css.find_nodes sel _ kids 0 kids) as [ix'|] eqn:Hscan;
      [|done].
    cbn in Hfind. injection Hfind as <-.
    destruct (find_nodes_some _ _ _ _ _ _ Hscan) as (m & k & Hm & Hk).
    cbn [Nat.add] in Hk.
    assert (Hq' : resolve doc (Child idx :: q)
                  = Some (Item (Element tag kids sh))).
    { by rewrite (resolve_child doc q idx v Hq), Hidx. }
    pose proof (proj1 (Forall_forall _ _) IH k
                  (list_elem_of_lookup_2 _ _ _ Hm)) as IHk.
    destruct (IHk (Child idx :: q) _ sel _ m ix' Hq' Hm Hk)
      as (tag' & kids' & sh' & Hres).
    exists tag', kids', sh'.
    cbn [fmap list_fmap rev]. rewrite <- app_assoc. exact Hres.
Qed.

Lemma querySelector_resolves root part found :
  querySelector doc root part = Ok (Some found) ->
  exists q kids p tag ks sh,
    root = Node q /\ resolve doc q = Some (Container kids)
    /\ found = Node p
    /\ resolve doc p = Some (Item (Element tag ks sh))
    /\ shadow_depth p = shadow_depth q.
Proof.
  unfold querySelector. destruct root as [|q]; [done|].
  destruct (resolve doc q) as [[kids|n]|] eqn:Hq; try done.
  destruct (Css.parse part) as [sel|]; [|done].
  destruct (Css.find_nodes _ _ _ _ _) as [ix|] eqn:Hscan; [|done].
  cbn. intros [= <-].
  destruct (find_nodes_some _ _ _ _ _ _ Hscan) as (m & k & Hm & Hk).
  cbn [Nat.add] in Hk.
  destruct (find_node_resolves k q (Container kids) _ _ m ix Hq Hm Hk)
    as (tag & ks & sh & Hres).
  exists q, kids, (rev (Child <$> ix) ++ q), tag, ks, sh.
  repeat split; try done. apply shadow_depth_children.
Qed.

Lemma pathLocator_loop_resolves parts :
  forall root found d r,
    (forall x, root = Some x ->
       exists q kids, x = Node q /\ resolve doc q = Some (Container kids)
                      /\ shadow_depth q = d) ->
    (forall x, found = Some x ->
       exists p tag ks sh, x = Node p
         /\ resolve doc p = Some (Item (Element tag ks sh))
         /\ S (shadow_depth p) = d) ->
    pathLocator_loop doc parts root found = Ok (Some r) ->
    exists p tag ks sh,
      r = Node p /\ resolve doc p = Some (Item (Element tag ks sh))
      /\ S (shadow_depth p) = d + length parts.
Proof.
  induction parts as [|part parts IH]; intros root found d r Hroot Hfound H.
  - cbn in H. injection H as H.
    destruct (Hfound r H) as (p & tag & ks & sh & -> & Hp & Hd).
    exists p, tag, ks, sh. cbn [length]. by rewrite Nat.add_0_r.
  - cbn [pathLocator_loop] in H. destruct root as [x|]; [|done].
    destruct (querySelector doc x part) as [[y|]|e] eqn:Hqs; try done.
    destruct (querySelector_resolves _ _ _ Hqs)
      as (q & kids & p & tag & ks & sh & -> & Hq & -> & Hp & Hdp).
    destruct (Hroot _ eq_refl) as (q' & kids' & [= <-] & _ & Hd).
    apply (IH _ _ (S d)) in H.
    + destruct H as (p' & tag' & ks' & sh' & -> & Hp' & Hd').
      exists p', tag', ks', sh'. cbn [length].
      repeat split; try done. lia.
    + intros x0 Hx0. unfold shadowRoot in Hx0. rewrite Hp in Hx0.
      destruct sh as [sk|]; [|done]. injection Hx0 as <-.
      exists (Shadow :: p), sk. split; [done|]. split.
      * cbn [resolve]. by rewrite Hp.
      * unfold shadow_depth in *. cbn. lia.
    + intros x0 [= <-]. exists p, tag, ks, sh.
      repeat split; try done. lia.
Qed.

(** X3. Whatever [pathLocator] returns is an element of the tree, and
    it lies inside as many shadow roots as the address has boundary
    markers: each part of the address is looked up one shadow root
    further in. *)
Theorem pathLocator_returns_element (address : string) (r : ref) :
  pathLocator doc address = Ok (Some r) ->
  exists p tag kids sh,
    r = Node p
    /\ resolve doc p = Some (Item (Element tag kids sh))
    /\ S (shadow_depth p) = length (split address "::shadow ").
Proof.
  intros H. unfold pathLocator in H.
  apply (pathLocator_loop_resolves _ _ _ 0) in H; [done| |done].
  intros x [= <-]. by exists [], doc.
Qed.

End Located.

Lemma pathLocator_returns_element_witness :
  pathLocator Samples.hosted
    "html > body > x-card::shadow div > p:nth-of-type(2)"
  = Ok (Some (Node Samples.card_paragraph))
  /\ exists p tag kids sh,
       Node Samples.card_paragraph = Node p
       /\ resolve Samples.hosted p = Some (Item (Element tag kids sh))
       /\ S (shadow_depth p)
          = length (split
                      "html > body > x-card::shadow div > p:nth-of-type(2)"
                      "::shadow ").
Proof.
  split; [vm_compute; reflexivity|].
  exact (pathLocator_returns_element Samples.hosted
           "html > body > x-card::shadow div > p:nth-of-type(2)"
           (Node Samples.card_paragraph) ltac:(vm_compute; reflexivity)).
Defined.

(** ** A shadow host as the target *)

Section HostTarget.
Variable doc : document.

(** A turn of the loop of [pathSelector] writes in front of the
    address: what the address ends with stays. *)
(** A round of the loop writes in front of the selector it is given. *)
Lemma step_keeps_end context (front ending : string) :
  ending <> "" ->
  exists front',
    pathSelector_step doc context (Some (front +:+ ending))
    = Some (front' +:+ ending).
Proof.
  intros Hne. unfold pathSelector_step.
  destruct (truthy (localName_of doc context)); [|by exists front].
  assert (Ht : truthy (Some (front +:+ ending)) = true).
  { apply truthy_nonempty. by apply append_nonempty_r. }
  rewrite Ht. cbn [to_string].
  destruct (shadowRoot doc context) as [sr|].
  - destruct (bool_decide (sr ≠ getRootNode context)).
    + exists (indexedSelector doc context +:+ "::shadow " +:+ front).
      by rewrite !append_assoc.
    + exists (indexedSelector doc context +:+ " > " +:+ front).
      by rewrite !append_assoc.
  - exists (indexedSelector doc context +:+ " > " +:+ front).
    by rewrite !append_assoc.
Qed.

Lemma loop_keeps_end (path : list ref) (ending : string) :
  ending <> "" ->
  forall context front,
    exists front',
      pathSelector_loop doc context path (Some (front +:+ ending))
      = Some (front' +:+ ending).
Proof.
  intros Hne. induction path as [|next path IH]; intros context front.
  - cbn [pathSelector_loop]. by apply step_keeps_end.
  - cbn [pathSelector_loop].
    destruct (step_keeps_end context front ending Hne) as [front' ->].
    apply IH.
Qed.

(** X21. The address of a target that is itself a shadow host, when no
    address is cached for it, ends with [::shadow undefined] whatever
    lies above it: the first round of the loop joins the boundary marker
    to a selector that is still undefined, and the later rounds only
    write in front of it. *)
Theorem host_target_address_ends_in_undefined (cache : selector_cache)
    (p : list step) (tag : string) (kids shadow_kids : list node)
    (rest : list ref) :
  resolve doc p = Some (Item (Element tag kids (Some shadow_kids))) ->
  tag <> "" ->
  truthy (cache (Node p)) = false ->
  exists front,
    (pathSelector doc cache (Node p :: rest)).1
    = Ok (Some (front +:+ "::shadow undefined")).
Proof.
  intros Hp Htag Hcache. unfold pathSelector. rewrite Hcache. cbn [fst].
  assert (Hfirst : pathSelector_step doc (Node p) None
                   = Some (indexedSelector doc (Node p)
                           +:+ "::shadow undefined")).
  { unfold pathSelector_step, localName_of, lookup_ref, shadowRoot.
    rewrite Hp. rewrite (truthy_nonempty tag Htag).
    cbn [getRootNode truthy to_string].
    rewrite bool_decide_eq_true_2; [done|].
    intros [= E]. by apply (root_of_not_shadow p). }
  destruct rest as [|next rest]; cbn [pathSelector_loop]; rewrite Hfirst.
  - by eexists.
  - destruct (loop_keeps_end rest "::shadow undefined" ltac:(discriminate)
                next (indexedSelector doc (Node p))) as [front ->].
    by exists front.
Qed.

End HostTarget.

Lemma host_target_address_ends_in_undefined_witness :
  (pathSelector Samples.hosted no_cache
     (composedPath_of [Child 1; Child 1; Child 1])).1
  = Ok (Some "html > body > x-card::shadow undefined")
  /\ exists front,
       (pathSelector Samples.hosted no_cache
          (Node [Child 1; Child 1; Child 1]
             :: above [Child 1; Child 1; Child 1] ++ [Window])).1
       = Ok (Some (front +:+ "::shadow undefined")).
Proof.
  split; [reflexivity|].
  exact (host_target_address_ends_in_undefined Samples.hosted no_cache
           [Child 1; Child 1; Child 1] "x-card" [] _ _
           eq_refl ltac:(discriminate) eq_refl).
Defined.

(* ===================================================================== *)
(** * More about the presence store                                        *)
(* ===================================================================== *)

Section MoveFacts.
Variable page : Page.

(** The store and the markers once the entry of the sender exists. *)
Lemma upsert_entry id color st :
  labelled st ->
  let st1 := match cursors st !! id with
             | Some _ => st
             | None =>
                 let '(c, st0) := _createCursor id color st in
                 set_cursors (<[id := c]> (cursors st0)) st0
             end in
  labelled st1
  /\ (exists c, cursors st1 !! id = Some c
        /\ (cursors st !! id = None ->
            deadline c = None /\ el c ∈ renderRoot st1)
        /\ (forall c0, cursors st !! id = Some c0 -> c = c0))
  /\ (forall k, k <> id -> cursors st1 !! k = cursors st !! k)
  /\ (forall h, is_Some (markers st !! h) -> markers st1 !! h = markers st !! h)
  /\ (forall h, h ∈ renderRoot st -> h ∈ renderRoot st1)
  /\ (cursors st !! id <> None -> st1 = st)
  /\ timers st1 = timers st /\ _tid st1 = _tid st.
Proof.
  intros Hl. cbv zeta.
  destruct (cursors st !! id) as [c0|] eqn:Hc.
  - split; [done|]. split.
    { exists c0. split; [done|]. split; [done|]. by intros ? [= ->]. }
    done.
  - pose proof (labelled_create id color st Hl Hc) as Hl1.
    destruct (_createCursor id color st) as [c st0] eqn:Hcr.
    unfold _createCursor in Hcr. injection Hcr as Hcdef Hst0.
    split; [done|].
    assert (Hfresh : markers st !! fresh (dom (markers st)) = None).
    { apply not_elem_of_dom. apply is_fresh. }
    split.
    { exists c. cbn [cursors set_cursors]. rewrite lookup_insert_eq.
      split; [done|]. split; [|done]. intros _. split.
      - by rewrite <- Hcdef.
      - cbn [renderRoot set_cursors]. rewrite <- Hcdef. cbn [el].
        rewrite Hst0.
        destruct (getElementById st0 _) as [h'|] eqn:Hget;
          cbn [default from_option Datatypes.id].
        + unfold getElementById in Hget. apply find_some in Hget as [Hin _].
          by apply list_elem_of_In.
        + rewrite <- Hst0. cbn [renderRoot set_renderRoot].
          apply elem_of_app. right. by apply list_elem_of_singleton. }
    rewrite <- Hst0. cbn [cursors set_cursors markers set_markers renderRoot
                           set_renderRoot timers _tid].
    split.
    { intros k Hk. by rewrite lookup_insert_ne. }
    split.
    { intros h [m Hm]. rewrite lookup_insert_ne; [done|]. congruence. }
    split.
    { intros h Hh. apply elem_of_app. by left. }
    done.
Qed.

(** Writing a deadline and a transform keeps the labels. *)
Lemma labelled_keepalive id c d xy st :
  labelled st -> cursors st !! id = Some c ->
  labelled
    (set_cursors
       (<[id := {| cursor_id := cursor_id c; el := el c; deadline := d |}]>
          (cursors st))
       (set_markers
          (alter (fun m => {| marker_id := marker_id m;
                              marker_color := marker_color m;
                              transform := xy |}) (el c) (markers st)) st)).
Proof.
  intros Hl Hc k c' Hk.
  cbn [cursors set_cursors markers set_markers] in Hk |- *.
  assert (Hel : exists c0, cursors st !! k = Some c0 /\ el c0 = el c').
  { destruct (decide (k = id)) as [->|Hne].
    - rewrite lookup_insert_eq in Hk. injection Hk as <-. by exists c.
    - rewrite lookup_insert_ne in Hk by done. by exists c'. }
  destruct Hel as (c0 & Hc0 & <-).
  destruct (Hl k c0 Hc0) as (m & Hm & Hid).
  rewrite lookup_alter. case_decide as E.
  - rewrite E, Hm. cbn. eexists. split; [done|]. done.
  - rewrite Hm. by exists m.
Qed.

Lemma not_expired_now now c :
  expired now {| cursor_id := cursor_id c; el := el c; deadline := Some now |}
  = false.
Proof.
  unfold expired. cbn [deadline to_number sub gt]. apply Z.ltb_ge. lia.
Qed.

(** The effect of a move message whose address resolves. *)
Lemma located_move now msg st p :
  msg_event msg = "move" ->
  inherited (msg_id msg) = false ->
  pathLocator (page_doc page) (loc_path (msg_location msg))
  = Ok (Some (Node p)) ->
  labelled st ->
  (_handleMessage page now msg st).2 = None
  /\ exists c m,
       cursors (_handleMessage page now msg st).1 !! msg_id msg = Some c
       /\ deadline c = Some now
       /\ markers (_handleMessage page now msg st).1 !! el c = Some m
       /\ marker_id m = "cursor-" +:+ msg_id msg
       /\ transform m
          = Some (placement page p (loc_x (msg_location msg))
                                   (loc_y (msg_location msg)))
       /\ (cursors st !! msg_id msg = None ->
           el c ∈ renderRoot (_handleMessage page now msg st).1)
       /\ (forall c0, cursors st !! msg_id msg = Some c0 ->
             el c = el c0 /\ cursor_id c = cursor_id c0
             /\ (el c0 ∈ renderRoot st ->
                 el c ∈ renderRoot (_handleMessage page now msg st).1)).
Proof.
  intros Hev Hni Hpath Hl.
  rewrite (handleMessage_own page now msg st) by (by right).
  rewrite Hev. change (String.eqb "move" "move") with true. cbv iota zeta.
  pose proof (upsert_entry (msg_id msg) (msg_color msg) st Hl) as Hup.
  cbv zeta in Hup.
  set (st1 := match cursors st !! msg_id msg with
              | Some _ => st
              | None => _ end) in *.
  destruct Hup as (Hl1 & (c1 & Hc1 & Hnew & Hold) & _ & _ & Hroot & _).
  clearbody st1. rewrite Hc1. unfold keepalive. rewrite Hpath.
  cbn [fst snd]. split; [done|].
  set (c' := {| cursor_id := cursor_id c1; el := el c1;
                deadline := Some now |}).
  set (st2 := set_cursors _ _).
  assert (Hl2 : labelled st2) by (by apply labelled_keepalive).
  assert (Hc2 : cursors st2 !! msg_id msg = Some c').
  { unfold st2. cbn [cursors set_cursors]. by rewrite lookup_insert_eq. }
  assert (He : expired now c' = false) by apply not_expired_now.
  destruct (Hl1 _ _ Hc1) as (m1 & Hm1 & Hid1).
  exists c', {| marker_id := marker_id m1; marker_color := marker_color m1;
                transform := Some (placement page p
                                     (loc_x (msg_location msg))
                                     (loc_y (msg_location msg))) |}.
  split.
  { rewrite invalidate_lookup, Hc2. cbn. unfold survives. by rewrite He. }
  split; [done|]. split.
  { rewrite invalidate_markers. unfold st2.
    cbn [markers set_cursors set_markers el c'].
    by rewrite lookup_alter_eq, Hm1. }
  split; [done|]. split; [done|].
  assert (Hkeep : el c1 ∈ renderRoot st1 ->
                  el c' ∈ renderRoot (_invalidateCursors now st2)).
  { intros Hin. by apply (invalidate_keeps_marker now st2 (msg_id msg) c'). }
  split.
  { intros Hnone. apply Hkeep. by apply Hnew. }
  intros c0 Hc0. rewrite <- (Hold c0 Hc0). split; [done|]. split; [done|].
  intros Hin. apply Hkeep. by apply Hroot.
Qed.

(** X5. A move message whose address resolves to an element, from a
    sender whose id is not the name of a member that objects inherit,
    ends without an exception and leaves an entry for the sender whose
    deadline is the time of handling and whose marker, labelled
    [cursor-<id>], is translated to the scroll offsets plus the
    element's box plus the offsets of the message. A marker created for
    the message is attached; the marker of an entry that was there is
    the same element, still attached if it was. *)
Theorem resolved_move_places_marker (now : Z) (msg : Message) (st : State)
    (p : list step) :
  msg_event msg = "move" ->
  inherited (msg_id msg) = false ->
  pathLocator (page_doc page) (loc_path (msg_location msg))
  = Ok (Some (Node p)) ->
  labelled st ->
  (_handleMessage page now msg st).2 = None
  /\ exists c m,
       cursors (_handleMessage page now msg st).1 !! msg_id msg = Some c
       /\ deadline c = Some now
       /\ markers (_handleMessage page now msg st).1 !! el c = Some m
       /\ marker_id m = "cursor-" +:+ msg_id msg
       /\ transform m
          = Some ((scrollLeft page + (bounding page p).1
                   + loc_x (msg_location msg))%Z,
                  (scrollTop page + (bounding page p).2
                   + loc_y (msg_location msg))%Z)
       /\ (cursors st !! msg_id msg = None ->
           el c ∈ renderRoot (_handleMessage page now msg st).1)
       /\ (forall c0, cursors st !! msg_id msg = Some c0 ->
             el c = el c0
             /\ (el c0 ∈ renderRoot st ->
                 el c ∈ renderRoot (_handleMessage page now msg st).1)).
Proof.
  intros Hev Hni Hpath Hl.
  destruct (located_move now msg st p Hev Hni Hpath Hl)
    as (Herr & c & m & Hc & Hd & Hm & Hid & Htr & Hnew & Hold).
  split; [done|]. exists c, m. repeat (split; [done|]).
  intros c0 Hc0. destruct (Hold c0 Hc0) as (? & _ & ?). done.
Qed.

(** X6. A message touches the sender's marker only: the marker of any
    other participant in the store is what it was, that participant's
    entry is unchanged unless the sweep that ends the handler finds it
    expired, and its marker stays attached if the entry is not
    expired. *)
Theorem message_spares_other_participants (now : Z) (msg : Message)
    (st : State) (k : string) (c : Cursor) :
  labelled st ->
  k <> msg_id msg ->
  cursors st !! k = Some c ->
  let st' := (_handleMessage page now msg st).1 in
  markers st' !! el c = markers st !! el c
  /\ (cursors st' !! k = Some c
      \/ (cursors st' !! k = None /\ expired now c = true))
  /\ (expired now c = false -> el c ∈ renderRoot st ->
      el c ∈ renderRoot st').
Proof.
  intros Hl Hk Hc. cbv zeta.
  open_handler page now msg st ltac:(by split; [|split; [left|]]).
  destruct (String.eqb (msg_event msg) "move"); [|by split; [|split; [left|]]].
  pose proof (upsert_entry (msg_id msg) (msg_color msg) st Hl) as Hup.
  cbv zeta in Hup.
  set (st1 := match cursors st !! msg_id msg with
              | Some _ => st
              | None => _ end) in *.
  destruct Hup as (Hl1 & (c1 & Hc1 & _) & Hother & Hmark & Hroot & _).
  clearbody st1. rewrite Hc1.
  assert (Hck : cursors st1 !! k = Some c) by (by rewrite Hother).
  assert (Hm1 : markers st1 !! el c = markers st !! el c).
  { apply Hmark. destruct (Hl k c Hc) as (m & -> & _). by eexists. }
  assert (Hne : el c1 <> el c).
  { intros E. apply Hk. symmetry.
    by apply (labelled_distinct st1 (msg_id msg) k c1 c). }
  assert (Hdone : forall st2,
            labelled st2 -> cursors st2 !! k = Some c ->
            markers st2 !! el c = markers st !! el c ->
            (el c ∈ renderRoot st -> el c ∈ renderRoot st2) ->
            markers (_invalidateCursors now st2) !! el c = markers st !! el c
            /\ (cursors (_invalidateCursors now st2) !! k = Some c
                \/ (cursors (_invalidateCursors now st2) !! k = None
                    /\ expired now c = true))
            /\ (expired now c = false -> el c ∈ renderRoot st ->
                el c ∈ renderRoot (_invalidateCursors now st2))).
  { intros st2 Hl2 Hc2 Hm2 Hr2. split; [by rewrite invalidate_markers|].
    split.
    - rewrite invalidate_lookup, Hc2. cbn. unfold survives.
      destruct (expired now c); [by right|by left].
    - intros He Hin.
      apply (invalidate_keeps_marker now st2 k c); auto. }
  unfold keepalive.
  destruct (pathLocator _ _) as [[[|p]|]|err]; cbn [fst].
  - split; [done|]. split; [by left|]. intros _. apply Hroot.
  - apply Hdone.
    + by apply labelled_keepalive.
    + cbn [cursors set_cursors]. by rewrite lookup_insert_ne.
    + cbn [markers set_cursors set_markers].
      by rewrite lookup_alter_ne.
    + cbn [renderRoot set_cursors set_markers]. apply Hroot.
  - apply Hdone.
    + intros k' c' Hk'. cbn [cursors set_cursors markers set_markers] in *.
      destruct (decide (k' = msg_id msg)) as [->|Hne'].
      * rewrite lookup_insert_eq in Hk'. injection Hk' as <-. by apply Hl1.
      * rewrite lookup_insert_ne in Hk' by done. by apply Hl1.
    + cbn [cursors set_cursors]. by rewrite lookup_insert_ne.
    + done.
    + cbn [renderRoot set_cursors set_markers]. apply Hroot.
  - split; [done|]. split; [by left|]. intros _. apply Hroot.
Qed.

End MoveFacts.

Lemma labelled_after_found : labelled Scenario.after_found.
Proof.
  apply (labelled_handleMessage Scenario.pg).
  intros k c Hk. cbn in Hk. by rewrite lookup_empty in Hk.
Qed.

Lemma resolved_move_places_marker_witness :
  pathLocator Samples.page "html > body > p"
  = Ok (Some (Node [Child 3; Child 1; Child 1]))
  /\ inherited (msg_id Scenario.found) = false
  /\ (_handleMessage Scenario.pg 0%Z Scenario.found initial).2 = None
  /\ exists c m,
       cursors (_handleMessage Scenario.pg 0%Z Scenario.found initial).1
         !! "ann" = Some c
       /\ deadline c = Some 0%Z
       /\ markers (_handleMessage Scenario.pg 0%Z Scenario.found initial).1
            !! el c = Some m
       /\ transform m = Some (11, 22)%Z.
Proof.
  split; [vm_compute; reflexivity|]. split; [reflexivity|].
  destruct (resolved_move_places_marker Scenario.pg 0%Z Scenario.found
              initial [Child 3; Child 1; Child 1] eq_refl eq_refl
              ltac:(vm_compute; reflexivity)
              ltac:(intros k c Hk; cbn in Hk; by rewrite lookup_empty in Hk))
    as (Herr & c & m & Hc & Hd & Hm & _ & Htr & _).
  split; [exact Herr|]. exists c, m.
  split; [exact Hc|]. split; [exact Hd|]. split; [exact Hm|exact Htr].
Defined.

Lemma message_spares_other_participants_witness :
  cursors Scenario.after_found !! "ann"
  = Some {| cursor_id := "ann"; el := 0; deadline := Some 0%Z |}
  /\ markers (_handleMessage Scenario.pg 100%Z Scenario.lost
                Scenario.after_found).1 !! 0
     = markers Scenario.after_found !! 0.
Proof.
  split; [vm_compute; reflexivity|].
  exact (proj1 (message_spares_other_participants Scenario.pg 100%Z
                  Scenario.lost Scenario.after_found "ann"
                  {| cursor_id := "ann"; el := 0; deadline := Some 0%Z |}
                  labelled_after_found ltac:(discriminate)
                  ltac:(vm_compute; reflexivity))).
Defined.

Section SweepFacts.

(** X7. What a sweep does to an entry: it is removed exactly when its
    deadline is set and lies more than 2000 ms back (at 2000 ms sharp
    it stays), and then its marker is detached; otherwise the entry is
    unchanged and its marker stays attached. No marker is altered. *)
Theorem sweep_removes_exactly_the_stale (now : Z) (st : State) (k : string)
    (c : Cursor) :
  labelled st ->
  cursors st !! k = Some c ->
  let st' := _invalidateCursors now st in
  (cursors st' !! k = None \/ cursors st' !! k = Some c)
  /\ (cursors st' !! k = None
      <-> exists d, deadline c = Some d /\ (2000 < now - d)%Z)
  /\ (cursors st' !! k = None -> el c ∉ renderRoot st')
  /\ (cursors st' !! k = Some c -> el c ∈ renderRoot st ->
      el c ∈ renderRoot st')
  /\ markers st' = markers st.
Proof.
  intros Hl Hc. cbv zeta.
  assert (Hlook : cursors (_invalidateCursors now st) !! k
                  = if expired now c then None else Some c).
  { rewrite invalidate_lookup, Hc. reflexivity. }
  assert (Hexp : expired now c = true
                 <-> exists d, deadline c = Some d /\ (2000 < now - d)%Z).
  { destruct (deadline c) as [d|] eqn:Hd.
    - rewrite (expired_set now c d Hd), Z.ltb_lt. split.
      + intros H. by exists d.
      + by intros (d' & [= <-] & H).
    - rewrite (expired_unset now c Hd). split; [done|]. by intros (d & ? & _). }
  rewrite Hlook.
  destruct (expired now c) eqn:He.
  - destruct (proj1 Hexp eq_refl) as (d & Hd & Hlt).
    split; [by left|]. split; [split; [by exists d|done]|].
    split; [|split].
    + intros _. by apply (located_cursor_expires now st k c d).
    + done.
    + apply invalidate_markers.
  - split; [by right|]. split.
    { split; [done|]. intros H. apply Hexp in H. discriminate H. }
    split; [done|]. split; [|apply invalidate_markers].
    intros _ Hin. by apply (invalidate_keeps_marker now st k c).
Qed.

(** With an empty store a sweep touches neither store nor markers. *)
Lemma invalidate_empty now st :
  cursors st = ∅ ->
  cursors (_invalidateCursors now st) = ∅
  /\ renderRoot (_invalidateCursors now st) = renderRoot st
  /\ markers (_invalidateCursors now st) = markers st.
Proof.
  intros He. split; [|split].
  - apply map_eq. intros k. by rewrite invalidate_lookup, He, !lookup_empty.
  - rewrite invalidate_renderRoot, He, map_to_list_empty. reflexivity.
  - apply invalidate_markers.
Qed.

(** X10. [disconnectedCallback] empties the store but removes no marker
    and cancels no timer; the sweeps that follow find nothing to
    remove, so the markers that were attached stay attached. *)
Theorem detaching_leaves_markers_behind (st : State) (times : list Z) :
  let st' := foldl (fun s t => _invalidateCursors t s)
                   (disconnectedCallback st) times in
  cursors st' = ∅
  /\ renderRoot st' = renderRoot st
  /\ markers st' = markers st
  /\ timers (disconnectedCallback st) = timers st.
Proof.
  cbv zeta. split; [|split; [|split]]; [| | |done].
  all: assert (H : forall s, cursors s = ∅ ->
         cursors (foldl (fun s t => _invalidateCursors t s) s times) = ∅
         /\ renderRoot (foldl (fun s t => _invalidateCursors t s) s times)
            = renderRoot s
         /\ markers (foldl (fun s t => _invalidateCursors t s) s times)
            = markers s);
    [ induction times as [|t times IH]; intros s Hs; [done|];
      cbn [foldl];
      destruct (invalidate_empty t s Hs) as (H1 & H2 & H3);
      destruct (IH _ H1) as (H4 & H5 & H6);
      by rewrite H4, H5, H6, H2, H3
    | by destruct (H (disconnectedCallback st) eq_refl) as (? & ? & ?) ].
Qed.

End SweepFacts.

Lemma sweep_removes_exactly_the_stale_witness :
  cursors Scenario.after_found !! "ann"
  = Some {| cursor_id := "ann"; el := 0; deadline := Some 0%Z |}
  /\ (cursors (_invalidateCursors 2001%Z Scenario.after_found) !! "ann" = None
      <-> exists d, Some 0%Z = Some d /\ (2000 < 2001 - d)%Z).
Proof.
  split; [vm_compute; reflexivity|].
  exact (proj1 (proj2 (sweep_removes_exactly_the_stale 2001%Z
                         Scenario.after_found "ann"
                         {| cursor_id := "ann"; el := 0;
                            deadline := Some 0%Z |}
                         labelled_after_found
                         ltac:(vm_compute; reflexivity)))).
Defined.

Section Adoption.

Lemma find_ext_in {A} (f g : A -> bool) (l : list A) :
  (forall x, x ∈ l -> f x = g x) -> List.find f l = List.find g l.
Proof.
  induction l as [|x l IH]; intros H; [done|].
  cbn. rewrite <- (H x) by left. destruct (f x); [done|].
  apply IH. intros y Hy. apply H. by right.
Qed.

Lemma find_app_some {A} (f : A -> bool) (l l' : list A) x :
  List.find f l = Some x -> List.find f (l ++ l') = Some x.
Proof.
  induction l as [|y l IH]; [done|]. cbn. by destruct (f y).
Qed.

Lemma find_app_none {A} (f : A -> bool) (l l' : list A) :
  List.find f l = None -> List.find f (l ++ l') = List.find f l'.
Proof.
  induction l as [|y l IH]; [done|]. cbn. by destruct (f y).
Qed.

(** X11. [_createCursor] always appends a fresh clone, labelled and
    coloured, to the render root, but the cursor it returns wraps the
    first attached element carrying the label: an older marker when
    one is still attached (the clone is then left unused), else the
    clone. *)
Theorem createCursor_wraps_first_labelled (id color : string) (st : State) :
  (forall h, h ∈ renderRoot st -> is_Some (markers st !! h)) ->
  let clone := fresh (dom (markers st)) in
  let c := (_createCursor id color st).1 in
  let st' := (_createCursor id color st).2 in
  renderRoot st' = renderRoot st ++ [clone]
  /\ (clone ∉ renderRoot st)
  /\ markers st' !! clone
     = Some {| marker_id := "cursor-" +:+ id; marker_color := color;
               transform := None |}
  /\ match getElementById st ("cursor-" +:+ id) with
     | Some older => el c = older /\ older <> clone
     | None => el c = clone
     end.
Proof.
  intros Hdom. cbv zeta. unfold _createCursor.
  set (h := fresh (dom (markers st))).
  set (name := "cursor-" +:+ id).
  set (st1 := set_renderRoot _ _).
  cbn [fst snd el].
  assert (Hfresh : markers st !! h = None).
  { apply not_elem_of_dom. apply is_fresh. }
  assert (Hnotin : h ∉ renderRoot st).
  { intros Hin. apply Hdom in Hin as [m Hm]. congruence. }
  split; [done|]. split; [done|]. split.
  { unfold st1. cbn [markers set_renderRoot set_markers].
    by rewrite lookup_insert_eq. }
  assert (Hsame : List.find (fun h' => match markers st1 !! h' with
                                      | Some m => String.eqb (marker_id m) name
                                      | None => false
                                      end) (renderRoot st)
                  = getElementById st name).
  { unfold getElementById. apply find_ext_in. intros x Hx.
    unfold st1. cbn [markers set_renderRoot set_markers].
    rewrite lookup_insert_ne; [done|]. intros ->. done. }
  change (getElementById st1 name)
    with (List.find (fun h' => match markers st1 !! h' with
                               | Some m => String.eqb (marker_id m) name
                               | None => false
                               end) (renderRoot st ++ [h])).
  destruct (getElementById st name) as [older|] eqn:Hget.
  - rewrite (find_app_some _ _ _ older Hsame).
    cbn [default from_option Datatypes.id]. split; [done|].
    intros ->. unfold getElementById in Hget.
    apply find_some in Hget as [Hin _]. by apply list_elem_of_In in Hin.
  - rewrite (find_app_none _ _ _ Hsame). cbn [List.find].
    unfold st1. cbn [markers set_renderRoot set_markers].
    rewrite lookup_insert_eq. cbn [marker_id].
    by rewrite String.eqb_refl.
Qed.

End Adoption.

Lemma createCursor_wraps_first_labelled_witness :
  renderRoot (disconnectedCallback Scenario.after_found) = [0]
  /\ cursors (disconnectedCallback Scenario.after_found) = ∅
  /\ getElementById (disconnectedCallback Scenario.after_found) "cursor-ann"
     = Some 0
  /\ el (_createCursor "ann" "green"
           (disconnectedCallback Scenario.after_found)).1 = 0
  /\ renderRoot (_createCursor "ann" "green"
                   (disconnectedCallback Scenario.after_found)).2
     = [0; fresh (dom (markers (disconnectedCallback Scenario.after_found)))].
Proof.
  split; [vm_compute; reflexivity|]. split; [reflexivity|].
  split; [vm_compute; reflexivity|].
  destruct (createCursor_wraps_first_labelled "ann" "green"
              (disconnectedCallback Scenario.after_found))
    as (Hroot & _ & _ & Hel).
  - intros h Hh.
    change (renderRoot (disconnectedCallback Scenario.after_found))
      with [0] in Hh.
    apply list_elem_of_singleton in Hh as ->. vm_compute. by eexists.
  - change (getElementById (disconnectedCallback Scenario.after_found)
              ("cursor-" +:+ "ann")) with (Some 0) in Hel.
    split; [exact (proj1 Hel)|exact Hroot].
Defined.

(* ===================================================================== *)
(** * More that holds in every state the widget reaches                    *)
(* ===================================================================== *)

Section Reachable.
Variable cfg : Config.
Variable page : Page.

Lemma sole_reaper_frame st st' :
  timers st' = timers st -> _tid st' = _tid st ->
  sole_reaper st -> sole_reaper st'.
Proof. unfold sole_reaper. by intros -> ->. Qed.

Lemma sole_reaper_invalidate now st :
  (forall t, t ∈ timers st -> 0 < timer_id t) ->
  sole_reaper st -> sole_reaper (_invalidateCursors now st).
Proof.
  intros Hpos Hsole. unfold _invalidateCursors.
  set (st1 := foldl (sweep_one now) st (map_to_list (cursors st)).*1).
  destruct (sweep_loop_tid now (map_to_list (cursors st)).*1 st)
    as (Htid & Htm & Hnx).
  fold st1 in Htid, Htm, Hnx.
  assert (Hs1 : sole_reaper st1) by (by apply (sole_reaper_frame st)).
  destruct (truthy_id (_tid st1)) eqn:Ht; [done|].
  intros t Hin Hjob. cbn in Hin |- *.
  apply elem_of_app in Hin as [Hin|Hin].
  - exfalso. pose proof (Hs1 t Hin Hjob) as E. rewrite E in Ht.
    rewrite Htm in Hin. apply Hpos in Hin.
    destruct (timer_id t); [lia|discriminate Ht].
  - by apply list_elem_of_singleton in Hin as ->.
Qed.

Lemma clear_sub id st t :
  t ∈ timers (clearTimeout id st) -> t ∈ timers st.
Proof.
  destruct id as [n|]; [|done]. cbn.
  rewrite !list_elem_of_In. by intros [? _]%filter_In.
Qed.

Lemma sole_reaper_handleMessage now msg st :
  timers_ok st -> sole_reaper st ->
  sole_reaper (_handleMessage page now msg st).1.
Proof.
  intros Hok Hsole. open_handler page now msg st ltac:(done).
  destruct (String.eqb (msg_event msg) "move"); [|done].
  set (st1 := match cursors st !! msg_id msg with
              | Some _ => st
              | None => _ end).
  assert (H1 : timers st1 = timers st /\ _tid st1 = _tid st).
  { unfold st1. by destruct (cursors st !! msg_id msg). }
  destruct H1 as [Htm Htid]. clearbody st1.
  assert (Hs1 : sole_reaper st1) by (by apply (sole_reaper_frame st)).
  destruct (cursors st1 !! msg_id msg) as [c|]; [|done].
  destruct (keepalive _ _ _ _ _) as [[c' ms]|err]; [|done].
  cbn [fst]. apply sole_reaper_invalidate.
  - cbn. rewrite Htm. intros t Hin.
    destruct Hok as (_ & Hids & _). apply Hids in Hin. lia.
  - by apply (sole_reaper_frame st1).
Qed.

Lemma sole_reaper_fire now id st :
  timers_ok st -> sole_reaper st -> sole_reaper (fire cfg page now id st).1.
Proof.
  intros Hok Hsole. unfold fire.
  destruct (List.find _ (timers st)) as [t|] eqn:Hfind; [|done].
  apply find_some in Hfind as [Hin Hid]. apply Nat.eqb_eq in Hid.
  apply list_elem_of_In in Hin.
  assert (Hs1 : sole_reaper (clearTimeout (Some id) st)).
  { intros t' Hin' Hjob. apply (Hsole t'); [|done].
    by apply (clear_sub (Some id)). }
  destruct (job t) eqn:Hjob.
  - cbn [fst]. apply sole_reaper_invalidate.
    + intros t' Hin'. cbn [timers set_tid] in Hin'.
      apply clear_sub in Hin'. destruct Hok as (_ & Hids & _).
      apply Hids in Hin'. lia.
    + intros t' Hin' Hjob'. exfalso. cbn [timers set_tid] in Hin'.
      pose proof (clear_sub _ _ _ Hin') as Hold.
      pose proof (Hsole t Hin Hjob) as E1.
      pose proof (Hsole t' Hold Hjob') as E2.
      assert (timer_id t' = id) as Hsame by congruence.
      cbn in Hin'. apply list_elem_of_In, filter_In in Hin' as [_ Hne].
      apply negb_true_iff, Nat.eqb_neq in Hne. done.
  - destruct (handleMove_frame cfg page false e (clearTimeout (Some id) st))
      as (_ & _ & Ht & _ & Htid & _).
    by apply (sole_reaper_frame (clearTimeout (Some id) st)).
Qed.

Lemma sole_reaper_react now i st :
  timers_ok st -> sole_reaper st -> sole_reaper (react cfg page now i st).1.
Proof.
  intros Hok Hsole. destruct i as [| |msg|e|id|]; cbn [react].
  - done.
  - done.
  - by apply sole_reaper_handleMessage.
  - destruct (listening st); [|done]. unfold mousemove_listener.
    assert (Hmove : sole_reaper (_handleMove cfg page true e st).1).
    { destruct (handleMove_frame cfg page true e st)
        as (_ & _ & Ht & _ & Htid & _).
      by apply (sole_reaper_frame st). }
    destruct (throttle cfg) as [wait|]; [|done].
    destruct (wait =? 0)%Z; [done|]. cbn [fst].
    unfold debounced. intros t Hin Hjob. cbn in Hin |- *.
    apply elem_of_app in Hin as [Hin|Hin].
    + apply clear_sub in Hin.
      rewrite <- (Hsole t Hin Hjob). by destruct (debounce_timer st).
    + apply list_elem_of_singleton in Hin as ->. discriminate Hjob.
  - by apply sole_reaper_fire.
  - done.
Qed.

Lemma keyed_invalidate now st : keyed st -> keyed (_invalidateCursors now st).
Proof.
  intros Hk k c Hc. rewrite invalidate_lookup in Hc.
  destruct (cursors st !! k) as [c'|] eqn:E; [|done]. cbn in Hc.
  unfold survives in Hc. destruct (expired now c'); [done|].
  injection Hc as <-. by apply Hk.
Qed.

Lemma keyed_handleMessage now msg st :
  keyed st -> keyed (_handleMessage page now msg st).1.
Proof.
  intros Hk. open_handler page now msg st ltac:(done).
  destruct (String.eqb (msg_event msg) "move"); [|done].
  set (st1 := match cursors st !! msg_id msg with
              | Some _ => st
              | None => _ end).
  assert (Hk1 : keyed st1).
  { unfold st1. destruct (cursors st !! msg_id msg) eqn:Hc; [done|].
    unfold _createCursor. intros k c. cbn [cursors set_cursors set_renderRoot
                                            set_markers].
    destruct (decide (k = msg_id msg)) as [->|Hne].
    - rewrite lookup_insert_eq. by intros [= <-].
    - rewrite lookup_insert_ne by done. apply Hk. }
  clearbody st1.
  destruct (cursors st1 !! msg_id msg) as [c|] eqn:Hc; [|done].
  unfold keepalive.
  destruct (pathLocator _ _) as [[[|p]|]|err]; try done; cbn [fst].
  all: apply keyed_invalidate; intros k c' Hk';
    cbn [cursors set_cursors set_markers] in Hk';
    destruct (decide (k = msg_id msg)) as [->|Hne];
    [ rewrite lookup_insert_eq in Hk'; injection Hk' as <-;
      cbn [cursor_id]; exact (Hk1 _ c Hc)
    | rewrite lookup_insert_ne in Hk' by done; by apply Hk1 ].
Qed.

Lemma keyed_frame st st' : cursors st' = cursors st -> keyed st -> keyed st'.
Proof. unfold keyed. by intros ->. Qed.

Lemma keyed_react now i st : keyed st -> keyed (react cfg page now i st).1.
Proof.
  intros Hk. destruct i as [| |msg|e|id|]; cbn [react].
  - done.
  - done.
  - by apply keyed_handleMessage.
  - destruct (listening st); [|done]. unfold mousemove_listener.
    assert (Hmove : keyed (_handleMove cfg page true e st).1).
    { destruct (handleMove_frame cfg page true e st) as (Hc & _).
      by apply (keyed_frame st). }
    destruct (throttle cfg) as [wait|]; [|done].
    destruct (wait =? 0)%Z; [done|]. cbn [fst].
    apply (keyed_frame st); [|done].
    unfold debounced. by destruct (debounce_timer st).
  - unfold fire.
    destruct (List.find _ (timers st)) as [t|]; [|done].
    destruct (job t).
    + cbn [fst]. apply keyed_invalidate. by apply (keyed_frame st).
    + destruct (handleMove_frame cfg page false e (clearTimeout (Some id) st))
        as (Hc & _).
      apply (keyed_frame st); [|done]. by rewrite Hc.
  - intros k c Hc. cbn in Hc. by rewrite lookup_empty in Hc.
Qed.

Lemma attached_frame st st' :
  renderRoot st' = renderRoot st -> markers st' = markers st ->
  attached st -> attached st'.
Proof. unfold attached. by intros -> ->. Qed.

Lemma attached_invalidate now st :
  attached st -> attached (_invalidateCursors now st).
Proof.
  intros Ha h Hh. rewrite invalidate_markers. apply Ha.
  rewrite invalidate_renderRoot in Hh.
  by eapply sweep_loop_renderRoot_sub.
Qed.

Lemma attached_handleMessage now msg st :
  attached st -> attached (_handleMessage page now msg st).1.
Proof.
  intros Ha. open_handler page now msg st ltac:(done).
  destruct (String.eqb (msg_event msg) "move"); [|done].
  set (st1 := match cursors st !! msg_id msg with
              | Some _ => st
              | None => _ end).
  assert (Ha1 : attached st1).
  { unfold st1. destruct (cursors st !! msg_id msg); [done|].
    unfold _createCursor. intros h.
    cbn [renderRoot markers set_cursors set_renderRoot set_markers].
    intros [Hh|Hh]%elem_of_app.
    - destruct (decide (h = fresh (dom (markers st)))) as [->|Hne].
      + rewrite lookup_insert_eq. by eexists.
      + rewrite lookup_insert_ne by done. by apply Ha.
    - apply list_elem_of_singleton in Hh as ->.
      rewrite lookup_insert_eq. by eexists. }
  clearbody st1.
  destruct (cursors st1 !! msg_id msg) as [c|]; [|done].
  unfold keepalive.
  destruct (pathLocator _ _) as [[[|p]|]|err]; try done; cbn [fst].
  - apply attached_invalidate. intros h Hh.
    cbn [renderRoot markers set_cursors set_markers] in Hh |- *.
    rewrite lookup_alter. case_decide as E.
    + destruct (Ha1 h Hh) as [m Hm]. rewrite E, Hm. by eexists.
    + by apply Ha1.
  - by apply attached_invalidate.
Qed.

Lemma attached_react now i st :
  attached st -> attached (react cfg page now i st).1.
Proof.
  intros Ha. destruct i as [| |msg|e|id|]; cbn [react].
  - done.
  - done.
  - by apply attached_handleMessage.
  - destruct (listening st); [|done]. unfold mousemove_listener.
    assert (Hmove : attached (_handleMove cfg page true e st).1).
    { unfold _handleMove. destruct (event_path e) as [|[|p] rest]; try done.
      destruct (resolve (page_doc page) p) as [[|[|tag kids sh]]|]; try done.
      by destruct (pathSelector _ _ _) as [[path|err] c]. }
    destruct (throttle cfg) as [wait|]; [|done].
    destruct (wait =? 0)%Z; [done|]. cbn [fst].
    apply (attached_frame st); [| |done];
      unfold debounced; by destruct (debounce_timer st).
  - unfold fire.
    destruct (List.find _ (timers st)) as [t|]; [|done].
    destruct (job t).
    + cbn [fst]. apply attached_invalidate. by apply (attached_frame st).
    + by apply (attached_frame st).
  - done.
Qed.

Lemma sound_react now i st : sound st -> sound (react cfg page now i st).1.
Proof.
  intros (Hinv & Hs & Hk & Ha). split; [by apply react_invariant|].
  split; [apply sole_reaper_react; [apply Hinv|done]|].
  split; [by apply keyed_react|by apply attached_react].
Qed.

Lemma sound_run_timers fuel now st :
  sound st -> sound (run_timers cfg page fuel now st).1.
Proof.
  revert st. induction fuel as [|fuel IH]; intros st Hinv; [done|].
  cbn [run_timers]. destruct (next_due now st) as [t|]; [|done].
  pose proof (sound_react (due t) (TimerFires (timer_id t)) st Hinv) as H1.
  cbn [react] in H1.
  destruct (fire cfg page (due t) (timer_id t) st) as [st1 err].
  specialize (IH st1 H1).
  by destruct (run_timers cfg page fuel now st1).
Qed.

Lemma sound_run fuel events st :
  sound st -> sound (run cfg page fuel events st).1.
Proof.
  revert st. induction events as [|[t i] events IH]; intros st Hinv; [done|].
  cbn [run].
  pose proof (sound_run_timers fuel t st Hinv) as H1.
  destruct (run_timers cfg page fuel t st) as [st1 errs1].
  pose proof (sound_react t i st1 H1) as H2.
  destruct (react cfg page t i st1) as [st2 err].
  specialize (IH st2 H2).
  by destruct (run cfg page fuel events st2).
Qed.

Lemma sound_initial : sound initial.
Proof.
  split; [split; [apply labelled_initial|apply timers_ok_initial]|].
  split; [|split].
  - intros t Hin. by apply elem_of_nil in Hin.
  - intros k c Hc. cbn in Hc. by rewrite lookup_empty in Hc.
  - intros h Hh. by apply elem_of_nil in Hh.
Qed.

Lemma NoDup_same_length {A} (l : list A) x :
  NoDup l -> (forall y, y ∈ l -> y = x) -> length l <= 1.
Proof.
  intros Hnd Hall. destruct l as [|a [|b l]]; cbn; try lia.
  exfalso. apply NoDup_cons in Hnd as [Hnot _]. apply Hnot.
  rewrite (Hall a), <- (Hall b); [left| |left]. right. left.
Qed.

(** X8. Sweeps never pile up: in every state the widget reaches, from
    the state the constructor leaves and through any timeline of
    channel events, messages, pointer events, timers and detachments,
    at most one reaper timer is pending, and it is the one [_tid]
    names. (A throttled widget listens through [debounced].) *)
Theorem at_most_one_reaper_pending (fuel : nat) (events : list (Z * input)) :
  let st := (run cfg page fuel events initial).1 in
  length (pending_reaps st) <= 1
  /\ (forall t, t ∈ pending_reaps st -> _tid st = Some (timer_id t)).
Proof.
  cbv zeta.
  destruct (sound_run fuel events initial sound_initial)
    as ((_ & Hok) & Hsole & _ & _).
  set (st := (run cfg page fuel events initial).1) in *.
  assert (Hall : forall t, t ∈ pending_reaps st ->
                           _tid st = Some (timer_id t)).
  { intros t Hin. unfold pending_reaps in Hin.
    apply list_elem_of_In, filter_In in Hin as [Hin Hjob].
    apply Hsole; [by apply list_elem_of_In|]. by destruct (job t). }
  split; [|done].
  destruct (_tid st) as [id|] eqn:Htid.
  - rewrite <- (length_fmap timer_id).
    apply (NoDup_same_length _ id).
    + apply NoDup_filter_ids. apply Hok.
    + intros y (t & -> & Hin)%list_elem_of_fmap.
      specialize (Hall t Hin). congruence.
  - destruct (pending_reaps st) as [|t l]; [cbn; lia|].
    specialize (Hall t ltac:(left)). discriminate Hall.
Qed.

(** X9. In every state the widget reaches, each entry of the store
    holds a cursor that carries its key and wraps a marker element
    labelled [cursor-<key>]; no two entries share a marker; and every
    marker attached to the render root is one of the marker elements
    created. *)
Theorem reachable_store_is_wellformed (fuel : nat)
    (events : list (Z * input)) :
  let st := (run cfg page fuel events initial).1 in
  (forall k c, cursors st !! k = Some c ->
     cursor_id c = k
     /\ exists m, markers st !! el c = Some m
                  /\ marker_id m = "cursor-" +:+ k)
  /\ (forall k1 k2 c1 c2,
        cursors st !! k1 = Some c1 -> cursors st !! k2 = Some c2 ->
        el c1 = el c2 -> k1 = k2)
  /\ (forall h, h ∈ renderRoot st -> is_Some (markers st !! h)).
Proof.
  cbv zeta.
  destruct (sound_run fuel events initial sound_initial)
    as ((Hl & _) & _ & Hk & Ha).
  split; [|split].
  - intros k c Hc. split; [by apply Hk|by apply Hl].
  - intros k1 k2 c1 c2 H1 H2 E.
    exact (labelled_distinct _ k1 k2 c1 c2 Hl H1 H2 E).
  - exact Ha.
Qed.

End Reachable.

(* ===================================================================== *)
(** * From a pointer on one client to a marker on another                  *)
(* ===================================================================== *)

(** X4. From a pointer to a remote marker. Take a pointer event over an
    element for which the round trip of the codec holds: it is not a
    host, its chain is plain, in each tree the chain crosses nothing
    before the chain's element is matched by the part written for it,
    and the address cached on it by the sender, if any, was computed on
    this tree. Then [_handleMove] whispers the element's address with
    the pointer's offsets inside the element. When that whisper
    reaches, as a message, a widget on a page with the same tree, and
    the sender's id is not the name of a member that objects inherit,
    [_handleMessage] ends without an exception and the sender's marker
    is translated to the same offsets inside the same element, as laid
    out on the receiving page. *)
Theorem whispered_move_lands_on_same_element (cfg : Config)
    (here there : Page) (e : MouseEvent) (p : list step) (tag : string)
    (kids : list node) (sender receiver : State) (now : Z) :
  page_doc there = page_doc here ->
  event_path e = composedPath_of p ->
  resolve (page_doc here) p = Some (Item (Element tag kids None)) ->
  chain_plain (page_doc here) p = true ->
  unrivalled (page_doc here) p = true ->
  cache_current (page_doc here) (cache sender) p ->
  inherited (userId cfg) = false ->
  labelled receiver ->
  exists w msg,
    whispers (_handleMove cfg here true e sender).1 = whispers sender ++ [w]
    /\ w_x w = (clientX e - (bounding here p).1)%Z
    /\ w_y w = (clientY e - (bounding here p).2)%Z
    /\ as_message w = Some msg
    /\ (_handleMessage there now msg receiver).2 = None
    /\ exists c m,
         cursors (_handleMessage there now msg receiver).1 !! userId cfg
         = Some c
         /\ deadline c = Some now
         /\ markers (_handleMessage there now msg receiver).1 !! el c
            = Some m
         /\ transform m
            = Some ((scrollLeft there + (bounding there p).1
                     + (clientX e - (bounding here p).1))%Z,
                    (scrollTop there + (bounding there p).2
                     + (clientY e - (bounding here p).2))%Z).
Proof.
  intros Hdoc Hpath Hp Hplain Hun Hcur Hni Hl.
  destruct (chain_address (page_doc here) p tag kids Hp Hplain)
    as (address & Henc & Hdec).
  specialize (Henc no_cache eq_refl).
  rewrite (chain_located (page_doc here) p tag kids Hp Hplain Hun) in Hdec.
  rewrite <- (pathSelector_current (page_doc here) (cache sender) p Hcur)
    in Henc.
  set (w := {| w_event := "move"; w_id := userId cfg; w_color := color cfg;
               w_path := Some address;
               w_x := (clientX e - (bounding here p).1)%Z;
               w_y := (clientY e - (bounding here p).2)%Z |}).
  set (msg := {| msg_event := "move"; msg_id := userId cfg;
                 msg_color := color cfg;
                 msg_location :=
                   {| loc_path := address;
                      loc_x := (clientX e - (bounding here p).1)%Z;
                      loc_y := (clientY e - (bounding here p).2)%Z |} |}).
  exists w, msg.
  assert (Hmove : whispers (_handleMove cfg here true e sender).1
                  = whispers sender ++ [w]).
  { unfold _handleMove. rewrite Hpath.
    destruct (resolve_item_child (page_doc here) p _ Hp) as (i & q & ->).
    unfold composedPath_of in *. cbn [ancestors app] in *.
    rewrite Hp.
    destruct (pathSelector (page_doc here) (cache sender) _)
      as [[path|err] c] eqn:Hsel; cbn [fst] in Henc; [|done].
    injection Henc as ->. reflexivity. }
  split; [done|]. split; [done|]. split; [done|]. split; [done|].
  assert (Hloc : pathLocator (page_doc there) (loc_path (msg_location msg))
                 = Ok (Some (Node p))).
  { by rewrite Hdoc. }
  destruct (located_move there now msg receiver p eq_refl Hni Hloc Hl)
    as (Herr & c & m & Hc & Hd & Hm & _ & Htr & _).
  split; [done|]. exists c, m. done.
Qed.

Lemma whispered_move_lands_on_same_element_witness :
  let sender := (_handleMove Scenario.unthrottled Scenario.pg true
                   (Scenario.over_span 3) initial).1 in
  chain_plain Samples.page [Child 0; Child 2; Child 1; Child 1] = true
  /\ unrivalled Samples.page [Child 0; Child 2; Child 1; Child 1] = true
  /\ cache sender (Node [Child 0; Child 2; Child 1; Child 1])
     = Some "html > body > div:nth-of-type(2) > span"
  /\ inherited (userId Scenario.unthrottled) = false
  /\ exists w msg,
       whispers (_handleMove Scenario.unthrottled Scenario.pg true
                   (Scenario.over_span 7) sender).1 = whispers sender ++ [w]
       /\ w_x w = (-3)%Z
       /\ w_y w = (-15)%Z
       /\ as_message w = Some msg
       /\ (_handleMessage Scenario.pg 40%Z msg initial).2 = None
       /\ exists c m,
            cursors (_handleMessage Scenario.pg 40%Z msg initial).1 !! "me"
            = Some c
            /\ deadline c = Some 40%Z
            /\ markers (_handleMessage Scenario.pg 40%Z msg initial).1
                 !! el c = Some m
            /\ transform m = Some (7, 5)%Z.
Proof.
  split; [vm_compute; reflexivity|]. split; [vm_compute; reflexivity|].
  split; [vm_compute; reflexivity|]. split; [reflexivity|].
  exact (whispered_move_lands_on_same_element Scenario.unthrottled
           Scenario.pg Scenario.pg (Scenario.over_span 7)
           [Child 0; Child 2; Child 1; Child 1] "span" []
           (_handleMove Scenario.unthrottled Scenario.pg true
              (Scenario.over_span 3) initial).1
           initial 40%Z eq_refl eq_refl eq_refl
           ltac:(vm_compute; reflexivity) ltac:(vm_compute; reflexivity)
           ltac:(intros _; vm_compute; reflexivity) eq_refl
           ltac:(intros k c Hk; cbn in Hk; by rewrite lookup_empty in Hk)).
Defined.

(* ===================================================================== *)
(** * How long an entry lives, and what is whispered                       *)
(* ===================================================================== *)

Section Lifetime.
Variable cfg : Config.
Variable page : Page.

Lemma earliest_some (l : list timer) :
  forall b t, earliest (Some b) l = Some t ->
    (t = b \/ t ∈ l) /\ (due t <= due b)%Z
    /\ forall t', t' ∈ l -> (due t <= due t')%Z.
Proof.
  induction l as [|x l IH]; intros b t H.
  - cbn in H. injection H as <-. split; [by left|]. split; [lia|].
    by intros t' H%elem_of_nil.
  - cbn [earliest] in H. destruct (due x <? due b)%Z eqn:E.
    + apply Z.ltb_lt in E. destruct (IH x t H) as ([->|Hin] & Hle & Hall).
      * split; [right; left|]. split; [lia|].
        intros t' [->|Ht']%elem_of_cons; [lia|by apply Hall].
      * split; [right; by right|]. split; [lia|].
        intros t' [->|Ht']%elem_of_cons; [lia|by apply Hall].
    + apply Z.ltb_ge in E. destruct (IH b t H) as ([->|Hin] & Hle & Hall).
      * split; [by left|]. split; [lia|].
        intros t' [->|Ht']%elem_of_cons; [lia|by apply Hall].
      * split; [right; by right|]. split; [lia|].
        intros t' [->|Ht']%elem_of_cons; [lia|by apply Hall].
Qed.

(** The timer that runs next is pending, due, and no other pending
    timer is due before it. *)
Lemma next_due_some T st t :
  next_due T st = Some t ->
  t ∈ timers st /\ (due t <= T)%Z
  /\ forall t', t' ∈ timers st -> (due t <= due t')%Z.
Proof.
  unfold next_due. destruct (timers st) as [|x l] eqn:El; [done|].
  cbn [earliest].
  destruct (earliest (Some x) l) as [t0|] eqn:E; [|done].
  destruct (due t0 <=? T)%Z eqn:Hle; [|done]. intros [= <-].
  apply Z.leb_le in Hle.
  destruct (earliest_some l x t0 E) as (Hin & Hx & Hall).
  split; [|split; [done|]].
  - destruct Hin as [->|Hin]; [left|by right].
  - intros t' [->|Ht']%elem_of_cons; [done|by apply Hall].
Qed.

Lemma next_due_none T st t :
  next_due T st = None -> t ∈ timers st -> (T < due t)%Z.
Proof.
  unfold next_due. destruct (timers st) as [|x l] eqn:El.
  - by intros _ H%elem_of_nil.
  - cbn [earliest].
    destruct (earliest (Some x) l) as [t0|] eqn:E.
    + destruct (earliest_some l x t0 E) as (Hin & Hx & Hall).
      destruct (due t0 <=? T)%Z eqn:Hle; [done|]. intros _.
      apply Z.leb_gt in Hle.
      intros [->|Ht]%elem_of_cons; [lia|]. specialize (Hall t Ht). lia.
    + exfalso. clear El. revert x E.
      induction l as [|y l IH]; intros x E; [done|].
      cbn [earliest] in E. destruct (due y <? due x)%Z; by eapply IH.
Qed.

Lemma weight_due T t : (due t <= T)%Z -> 0 < weight T t.
Proof.
  intros H. unfold weight. rewrite (proj2 (Z.leb_le _ _) H).
  destruct (job t); lia.
Qed.

Lemma load_elem T (l : list timer) t : t ∈ l -> weight T t <= load T l.
Proof.
  induction l as [|x l IH]; [by intros H%elem_of_nil|].
  cbn [load]. intros [->|H]%elem_of_cons; [lia|]. specialize (IH H). lia.
Qed.

Lemma load_app T (l l' : list timer) : load T (l ++ l') = load T l + load T l'.
Proof.
  induction l as [|x l IH]; [done|]. cbn [app load]. rewrite IH. lia.
Qed.

(** Cancelling a pending timer takes its weight off the load. *)
Lemma load_clear T (l : list timer) t :
  NoDup (timer_id <$> l) -> t ∈ l ->
  load T (List.filter (fun t' => negb (timer_id t' =? timer_id t)) l)
  + weight T t = load T l.
Proof.
  induction l as [|x l IH]; [by intros _ H%elem_of_nil|].
  cbn [fmap list_fmap]. intros [Hnot Hnd]%NoDup_cons Hin.
  fold (fmap (M:=list) timer_id l) in Hnot, Hnd.
  cbn [List.filter].
  apply elem_of_cons in Hin as [->|Hin].
  - rewrite Nat.eqb_refl. cbn [negb load].
    replace (List.filter _ l) with l; [lia|].
    symmetry. apply forallb_filter_id. apply forallb_forall.
    intros y Hy%list_elem_of_In. apply negb_true_iff, Nat.eqb_neq.
    intros E. apply Hnot. apply list_elem_of_fmap. by exists y.
  - assert (Hne : timer_id x <> timer_id t).
    { intros E. apply Hnot. apply list_elem_of_fmap. by exists t. }
    rewrite (proj2 (Nat.eqb_neq _ _) Hne). cbn [negb load].
    specialize (IH Hnd Hin). lia.
Qed.


Lemma find_pending (l : list timer) t :
  NoDup (timer_id <$> l) -> t ∈ l ->
  List.find (fun t' => timer_id t' =? timer_id t) l = Some t.
Proof.
  intros Hnd Hin.
  destruct (List.find _ l) as [t'|] eqn:Hfind.
  - apply find_some in Hfind as [Hin' Hid]. apply Nat.eqb_eq in Hid.
    apply list_elem_of_In in Hin'. f_equal.
    by apply (NoDup_ids_same l).
  - exfalso. apply list_elem_of_In in Hin.
    pose proof (find_none _ _ Hfind t Hin) as H. cbn in H.
    by rewrite Nat.eqb_refl in H.
Qed.

(** When no reaper is named by [_tid], a sweep arms one for 500 ms
    later. *)
Lemma invalidate_arms now st :
  _tid st = None ->
  timers (_invalidateCursors now st)
  = timers st ++ [{| timer_id := next_timer st; due := (now + 500)%Z;
                     job := Reap |}].
Proof.
  intros Hnone. unfold _invalidateCursors.
  destruct (sweep_loop_tid now (map_to_list (cursors st)).*1 st)
    as (Htid & Htm & Hnx).
  rewrite Htid, Hnone. cbn [truthy_id]. cbn. by rewrite Htm, Hnx.
Qed.

(** What firing a pending timer does. *)
Lemma fire_pending now st t :
  timers_ok st -> t ∈ timers st ->
  fire cfg page now (timer_id t) st
  = match job t with
    | Reap =>
        (_invalidateCursors now
           (set_tid None (clearTimeout (Some (timer_id t)) st)), None)
    | Trailing e => (clearTimeout (Some (timer_id t)) st, Some TypeError)
    end.
Proof.
  intros (Hnd & _) Hin. unfold fire. rewrite (find_pending _ t Hnd Hin).
  by destruct (job t).
Qed.

(** Running the timer that is due next takes one off the load. *)
Lemma fire_unloads T st t :
  timers_ok st -> next_due T st = Some t ->
  S (load T (timers (fire cfg page (due t) (timer_id t) st).1))
  = load T (timers st).
Proof.
  intros Hok Hnext. destruct (next_due_some T st t Hnext) as (Hin & Hdue & _).
  rewrite (fire_pending (due t) st t Hok Hin).
  destruct Hok as (Hnd & _).
  pose proof (load_clear T (timers st) t Hnd Hin) as Hclear.
  assert (Hw : weight T t
               = match job t with
                 | Reap => S (Z.to_nat ((T - due t) / 500))
                 | Trailing _ => 1
                 end).
  { unfold weight. by rewrite (proj2 (Z.leb_le _ _) Hdue). }
  destruct (job t) eqn:Hjob; cbn [fst].
  - rewrite invalidate_arms by done. cbn [timers set_tid clearTimeout
                                            set_timers].
    rewrite load_app. cbn [load]. unfold weight. cbn [due job].
    destruct (due t + 500 <=? T)%Z eqn:E.
    + apply Z.leb_le in E.
      assert (Z.to_nat ((T - due t) / 500)
              = S (Z.to_nat ((T - (due t + 500)) / 500))).
      { replace (T - due t)%Z with ((T - (due t + 500)) + 1 * 500)%Z by lia.
        rewrite Z.div_add by lia.
        assert (0 <= (T - (due t + 500)) / 500)%Z
          by (apply Z.div_pos; lia).
        lia. }
      lia.
    + apply Z.leb_gt in E.
      assert ((T - due t) / 500 = 0)%Z by (apply Z.div_small; lia).
      lia.
  - cbn [timers clearTimeout set_timers]. lia.
Qed.

Lemma run_timers_step fuel T st t :
  next_due T st = Some t ->
  (run_timers cfg page (S fuel) T st).1
  = (run_timers cfg page fuel T
       (fire cfg page (due t) (timer_id t) st).1).1.
Proof.
  intros H. cbn [run_timers]. rewrite H.
  destruct (fire cfg page (due t) (timer_id t) st) as [st1 err].
  cbn [fst]. by destruct (run_timers cfg page fuel T st1).
Qed.

Lemma run_timers_stop fuel T st :
  next_due T st = None -> (run_timers cfg page fuel T st).1 = st.
Proof. intros H. destruct fuel; cbn [run_timers]; [done|]. by rewrite H. Qed.

(** Up to 2000 ms after its deadline no timer removes an entry. *)
Lemma run_timers_keeps T k c t0 :
  deadline c = Some t0 -> (T <= t0 + 2000)%Z ->
  forall fuel st,
    cursors st !! k = Some c ->
    cursors (run_timers cfg page fuel T st).1 !! k = Some c.
Proof.
  intros Hd HT. induction fuel as [|fuel IH]; intros st Hc; [done|].
  destruct (next_due T st) as [t|] eqn:Hnext.
  - rewrite (run_timers_step fuel T st t Hnext). apply IH.
    destruct (next_due_some T st t Hnext) as (_ & Hdue & _).
    unfold fire. destruct (List.find _ (timers st)) as [t'|]; [|done].
    destruct (job t').
    + cbn [fst]. apply (located_cursor_kept _ _ _ _ t0); [done|done|lia].
    + destruct (handleMove_frame cfg page false e
                  (clearTimeout (Some (timer_id t)) st)) as (Hcur & _).
      by rewrite Hcur.
  - by rewrite run_timers_stop.
Qed.


(** A sweep leaves a reaper pending. *)
Lemma invalidate_pending now st :
  timers_ok st ->
  exists r, r ∈ timers (_invalidateCursors now st) /\ job r = Reap.
Proof.
  intros Hok.
  pose proof (timers_ok_invalidate now st Hok) as (_ & _ & _ & Htid & _).
  assert (Hset : exists id, _tid (_invalidateCursors now st) = Some id).
  { unfold _invalidateCursors.
    destruct (truthy_id (_tid (foldl _ _ _))) eqn:E.
    - destruct (_tid (foldl _ _ _)) as [id|]; [by exists id|done].
    - cbn. by eexists. }
  destruct Hset as [id Hid]. destruct (Htid id Hid) as (r & Hin & _ & Hjob).
  by exists r.
Qed.

Lemma watched_frame st st' :
  cursors st' = cursors st -> timers st' = timers st ->
  watched st -> watched st'.
Proof. unfold watched. by intros -> ->. Qed.

Lemma watched_handleMessage now msg st :
  timers_ok st -> watched st -> watched (_handleMessage page now msg st).1.
Proof.
  intros Hok Hw. open_handler page now msg st ltac:(done).
  destruct (String.eqb (msg_event msg) "move"); [|done].
  set (st1 := match cursors st !! msg_id msg with
              | Some _ => st
              | None => _ end).
  assert (H1 : timers_ok st1 /\ watched st1).
  { unfold st1. destruct (cursors st !! msg_id msg) eqn:Hc; [done|].
    split; [done|]. unfold _createCursor.
    intros (k & c & Hk & Hd). apply Hw.
    cbn [cursors set_cursors set_renderRoot set_markers] in Hk.
    destruct (decide (k = msg_id msg)) as [->|Hne].
    - rewrite lookup_insert_eq in Hk. injection Hk as <-. done.
    - rewrite lookup_insert_ne in Hk by done. by exists k, c. }
  destruct H1 as [Hok1 Hw1]. clearbody st1.
  destruct (cursors st1 !! msg_id msg) as [c|]; [|done].
  destruct (keepalive _ _ _ _ _) as [[c' ms]|err]; [|done].
  cbn [fst]. intros _. apply invalidate_pending.
  by apply (timers_ok_frame st1).
Qed.

Lemma watched_react now i st :
  timers_ok st -> watched st -> watched (react cfg page now i st).1.
Proof.
  intros Hok Hw. destruct i as [| |msg|e|id|]; cbn [react].
  - done.
  - done.
  - by apply watched_handleMessage.
  - destruct (listening st); [|done]. unfold mousemove_listener.
    assert (Hmove : watched (_handleMove cfg page true e st).1).
    { destruct (handleMove_frame cfg page true e st)
        as (Hc & _ & Ht & _).
      by apply (watched_frame st). }
    destruct (throttle cfg) as [wait|]; [|done].
    destruct (wait =? 0)%Z; [done|]. cbn [fst].
    intros Hloc.
    assert (Hloc' : exists k c, cursors st !! k = Some c
                                /\ deadline c <> None).
    { destruct Hloc as (k & c & Hk & Hd). exists k, c. split; [|done].
      unfold debounced in Hk. by destruct (debounce_timer st). }
    destruct (Hw Hloc') as (r & Hin & Hjob). exists r. split; [|done].
    unfold debounced. cbn. apply elem_of_app. left.
    destruct (debounce_timer st) as [d|] eqn:Hd; [|done].
    cbn. apply list_elem_of_In, filter_In.
    split; [by apply list_elem_of_In|].
    apply negb_true_iff, Nat.eqb_neq. intros E.
    destruct Hok as (_ & _ & _ & _ & Hdb).
    by apply (proj2 (Hdb d Hd) r Hin).
  - unfold fire.
    destruct (List.find _ (timers st)) as [t|] eqn:Hfind; [|done].
    apply find_some in Hfind as [Hin Hid]. apply Nat.eqb_eq in Hid.
    apply list_elem_of_In in Hin.
    destruct (job t) eqn:Hjob.
    + cbn [fst]. intros _. apply invalidate_pending.
      destruct Hok as (Hnd & Hids & Hpos & Htid & Hdb).
      split_timers_ok.
      * cbn. by apply NoDup_filter_ids.
      * intros t' H. cbn [timers set_tid] in H.
        apply (clear_sub (Some id)) in H. apply Hids in H. cbn. lia.
      * done.
      * done.
      * intros d H. split; [by apply Hdb|].
        intros t' Hin'. apply (proj2 (Hdb d H) t').
        cbn [timers set_tid] in Hin'. by apply (clear_sub (Some id)) in Hin'.
    + destruct (handleMove_frame cfg page false e (clearTimeout (Some id) st))
        as (Hc & _ & Ht & _).
      intros Hloc.
      assert (Hloc' : exists k c, cursors st !! k = Some c
                                  /\ deadline c <> None).
      { destruct Hloc as (k & c & Hk & Hd). exists k, c. split; [|done].
        by rewrite Hc in Hk. }
      destruct (Hw Hloc') as (r & Hinr & Hjobr). exists r. split; [|done].
      rewrite Ht. cbn. apply list_elem_of_In, filter_In.
      split; [by apply list_elem_of_In|].
      apply negb_true_iff, Nat.eqb_neq. intros E.
      destruct Hok as (Hnd & _).
      assert (r = t) as ->; [|congruence].
      apply (NoDup_ids_same (timers st)); try done. congruence.
  - intros (k & c & Hk & _). cbn in Hk. by rewrite lookup_empty in Hk.
Qed.

(** What every reaction preserves is preserved by a timeline. *)
Lemma run_timers_preserves (P : State -> Prop) :
  (forall now i st, P st -> P (react cfg page now i st).1) ->
  forall fuel now st, P st -> P (run_timers cfg page fuel now st).1.
Proof.
  intros Hstep. induction fuel as [|fuel IH]; intros now st H; [done|].
  destruct (next_due now st) as [t|] eqn:Hnext.
  - rewrite (run_timers_step fuel now st t Hnext). apply IH.
    apply (Hstep (due t) (TimerFires (timer_id t)) st H).
  - by rewrite run_timers_stop.
Qed.

Lemma run_preserves (P : State -> Prop) :
  (forall now i st, P st -> P (react cfg page now i st).1) ->
  forall fuel events st, P st -> P (run cfg page fuel events st).1.
Proof.
  intros Hstep fuel events.
  induction events as [|[t i] events IH]; intros st H; [done|].
  cbn [run].
  pose proof (run_timers_preserves P Hstep fuel t st H) as H1.
  destruct (run_timers cfg page fuel t st) as [st1 errs1].
  pose proof (Hstep t i st1 H1) as H2.
  destruct (react cfg page t i st1) as [st2 err].
  specialize (IH st2 H2).
  by destruct (run cfg page fuel events st2).
Qed.

Lemma steady_react now i st :
  sound st /\ watched st ->
  sound (react cfg page now i st).1 /\ watched (react cfg page now i st).1.
Proof.
  intros [Hs Hw]. split; [by apply sound_react|].
  apply watched_react; [apply Hs|done].
Qed.

Lemma steady_reachable fuel events :
  sound (run cfg page fuel events initial).1
  /\ watched (run cfg page fuel events initial).1.
Proof.
  apply (run_preserves (fun st => sound st /\ watched st)).
  - apply steady_react.
  - split; [apply sound_initial|].
    intros (k & c & Hk & _). cbn in Hk. by rewrite lookup_empty in Hk.
Qed.

(** With the timers alone, an entry that was located goes once a
    reaper fires more than 2000 ms after its deadline. *)
Lemma run_timers_reaps T k c t0 :
  deadline c = Some t0 -> (t0 + 2500 <= T)%Z ->
  forall n st,
    load T (timers st) <= n ->
    sound st /\ watched st ->
    ((cursors st !! k = None /\ el c ∉ renderRoot st)
     \/ (cursors st !! k = Some c
         /\ forall r, r ∈ timers st -> job r = Reap ->
                      (due r <= t0 + 2500)%Z)) ->
    forall fuel, n <= fuel ->
      cursors (run_timers cfg page fuel T st).1 !! k = None
      /\ el c ∉ renderRoot (run_timers cfg page fuel T st).1.
Proof.
  intros Hd HT.
  assert (Hend : forall st,
            sound st /\ watched st ->
            ((cursors st !! k = None /\ el c ∉ renderRoot st)
             \/ (cursors st !! k = Some c
                 /\ forall r, r ∈ timers st -> job r = Reap ->
                              (due r <= t0 + 2500)%Z)) ->
            (forall r, r ∈ timers st -> (due r <= T)%Z -> False) ->
            cursors st !! k = None /\ el c ∉ renderRoot st).
  { intros st [_ Hw] [Hgone|[Hc Hdue]] Hnone; [done|]. exfalso.
    destruct Hw as (r & Hin & Hjob).
    - exists k, c. split; [done|]. by rewrite Hd.
    - apply (Hnone r Hin). specialize (Hdue r Hin Hjob). lia. }
  induction n as [|n IH]; intros st Hload Hst Hdoom fuel Hfuel.
  - assert (Hnone : forall r, r ∈ timers st -> (due r <= T)%Z -> False).
    { intros r Hin Hdue. pose proof (load_elem T _ r Hin).
      pose proof (weight_due T r Hdue). lia. }
    destruct fuel as [|fuel]; [by apply Hend|].
    destruct (next_due T st) as [t|] eqn:Hnext.
    + exfalso. destruct (next_due_some T st t Hnext) as (Hin & Hdue & _).
      by apply (Hnone t).
    + rewrite run_timers_stop by done. by apply Hend.
  - destruct fuel as [|fuel]; [lia|].
    destruct (next_due T st) as [t|] eqn:Hnext.
    2: { rewrite run_timers_stop by done. apply Hend; [done|done|].
         intros r Hin Hdue. pose proof (next_due_none T st r Hnext Hin). lia. }
    rewrite (run_timers_step fuel T st t Hnext).
    destruct (next_due_some T st t Hnext) as (Hin & Hdue & _).
    destruct Hst as [Hs Hw].
    pose proof Hs as ((Hl & Hok) & Hsole & _).
    apply IH.
    + pose proof (fire_unloads T st t Hok Hnext). lia.
    + apply (steady_react (due t) (TimerFires (timer_id t)) st). by split.
    + rewrite (fire_pending (due t) st t Hok Hin).
      destruct (job t) eqn:Hjob; cbn [fst].
      * set (st1 := set_tid None (clearTimeout (Some (timer_id t)) st)).
        assert (Hc1 : cursors st1 = cursors st) by reflexivity.
        assert (Hr1 : renderRoot st1 = renderRoot st) by reflexivity.
        destruct Hdoom as [[Hgone Hdet]|[Hc Hreap]].
        -- left. split.
           ++ by rewrite invalidate_lookup, Hc1, Hgone.
           ++ intros Hin'. apply Hdet. rewrite <- Hr1.
              rewrite invalidate_renderRoot in Hin'.
              by eapply sweep_loop_renderRoot_sub.
        -- destruct (decide (2000 < due t - t0)%Z) as [Hold|Hyoung].
           ++ left. apply (located_cursor_expires _ _ _ _ t0); try done.
           ++ right. split.
              ** apply (located_cursor_kept _ _ _ _ t0); [done|done|lia].
              ** intros r. rewrite invalidate_arms by done.
                 intros [Hr|Hr]%elem_of_app Hjobr.
                 --- exfalso. cbn [timers set_tid] in Hr.
                     pose proof (clear_sub _ _ _ Hr) as Hold.
                     pose proof (Hsole t Hin Hjob) as E1.
                     pose proof (Hsole r Hold Hjobr) as E2.
                     cbn in Hr.
                     apply list_elem_of_In, filter_In in Hr as [_ Hne].
                     apply negb_true_iff, Nat.eqb_neq in Hne. congruence.
                 --- apply list_elem_of_singleton in Hr as ->. cbn. lia.
      * destruct Hdoom as [Hgone|[Hc Hreap]]; [by left|].
        right. split; [done|].
        intros r Hr Hjobr. apply Hreap; [|done]. by apply clear_sub in Hr.
    + lia.
Qed.

(** X17. How long an idle entry lives. Take a state the widget reaches
    and in it an entry that was located at [t0]. As long as only the
    timers run: up to 2000 ms after [t0] the entry stays; and if the
    pending reapers are due by [t0 + 2500] (each sweep arms the next
    one 500 ms later), then once the timers due by a time of
    [t0 + 2500] or later have run, the entry is gone and its marker is
    detached. *)
Theorem idle_cursor_lifetime (fuel0 : nat) (events : list (Z * input))
    (k : string) (c : Cursor) (t0 T : Z) :
  let st := (run cfg page fuel0 events initial).1 in
  cursors st !! k = Some c ->
  deadline c = Some t0 ->
  ((T <= t0 + 2000)%Z ->
   forall fuel, cursors (run_timers cfg page fuel T st).1 !! k = Some c)
  /\ ((forall r, r ∈ pending_reaps st -> (due r <= t0 + 2500)%Z) ->
      (t0 + 2500 <= T)%Z ->
      exists enough, forall fuel, enough <= fuel ->
        cursors (run_timers cfg page fuel T st).1 !! k = None
        /\ el c ∉ renderRoot (run_timers cfg page fuel T st).1).
Proof.
  cbv zeta. intros Hc Hd. split.
  - intros HT fuel. by apply (run_timers_keeps T k c t0).
  - intros Hreap HT.
    exists (load T (timers (run cfg page fuel0 events initial).1)).
    intros fuel Hfuel.
    apply (run_timers_reaps T k c t0 Hd HT
             (load T (timers (run cfg page fuel0 events initial).1)));
      [done|apply steady_reachable| |done].
    right. split; [done|]. intros r Hin Hjob. apply Hreap.
    unfold pending_reaps. apply list_elem_of_In, filter_In.
    split; [by apply list_elem_of_In|]. by rewrite Hjob.
Qed.

End Lifetime.

Lemma idle_cursor_lifetime_witness :
  let st := (run Scenario.unthrottled Scenario.pg 0
               [(0%Z, ChannelMessage Scenario.found)] initial).1 in
  cursors st !! "ann"
  = Some {| cursor_id := "ann"; el := 0; deadline := Some 0%Z |}
  /\ pending_reaps st = [{| timer_id := 1; due := 500%Z; job := Reap |}]
  /\ (forall fuel,
        cursors (run_timers Scenario.unthrottled Scenario.pg fuel 2000%Z st).1
          !! "ann"
        = Some {| cursor_id := "ann"; el := 0; deadline := Some 0%Z |})
  /\ exists enough, forall fuel, enough <= fuel ->
       cursors (run_timers Scenario.unthrottled Scenario.pg fuel 2500%Z st).1
         !! "ann" = None
       /\ 0 ∉ renderRoot
                (run_timers Scenario.unthrottled Scenario.pg fuel 2500%Z st).1.
Proof.
  cbv zeta.
  assert (Hc : cursors (run Scenario.unthrottled Scenario.pg 0
                          [(0%Z, ChannelMessage Scenario.found)] initial).1
                 !! "ann"
               = Some {| cursor_id := "ann"; el := 0;
                         deadline := Some 0%Z |})
    by (vm_compute; reflexivity).
  assert (Hr : pending_reaps
                 (run Scenario.unthrottled Scenario.pg 0
                    [(0%Z, ChannelMessage Scenario.found)] initial).1
               = [{| timer_id := 1; due := 500%Z; job := Reap |}])
    by (vm_compute; reflexivity).
  split; [exact Hc|]. split; [exact Hr|]. split.
  - exact (proj1 (idle_cursor_lifetime Scenario.unthrottled Scenario.pg 0
                    [(0%Z, ChannelMessage Scenario.found)] "ann" _ 0%Z
                    2000%Z Hc eq_refl) ltac:(lia)).
  - apply (proj2 (idle_cursor_lifetime Scenario.unthrottled Scenario.pg 0
                    [(0%Z, ChannelMessage Scenario.found)] "ann"
                    {| cursor_id := "ann"; el := 0; deadline := Some 0%Z |}
                    0%Z 2500%Z Hc eq_refl)); [|lia].
    intros r Hin. rewrite Hr in Hin.
    apply list_elem_of_singleton in Hin as ->. cbn. lia.
Defined.

Section Whispers.
Variable cfg : Config.
Variable page : Page.

Lemma handleMessage_whispers now msg st :
  whispers (_handleMessage page now msg st).1 = whispers st.
Proof.
  open_handler page now msg st ltac:(done).
  destruct (String.eqb (msg_event msg) "move"); [|done].
  set (st1 := match cursors st !! msg_id msg with
              | Some _ => st
              | None => _ end).
  assert (H1 : whispers st1 = whispers st).
  { unfold st1. by destruct (cursors st !! msg_id msg). }
  clearbody st1.
  destruct (cursors st1 !! msg_id msg) as [c|]; [|done].
  destruct (keepalive _ _ _ _ _) as [[c' ms]|err]; [|done].
  cbn [fst]. by rewrite invalidate_whispers.
Qed.

(** What [_handleMove] adds to the whispers: nothing, or one whisper in
    the widget's own name. *)
Lemma handleMove_whispers dispatching e st :
  whispers (_handleMove cfg page dispatching e st).1 = whispers st
  \/ exists w, whispers (_handleMove cfg page dispatching e st).1
               = whispers st ++ [w] /\ own_move cfg w.
Proof.
  unfold _handleMove.
  destruct (if dispatching then event_path e else []) as [|[|p] rest];
    try by left.
  destruct (resolve (page_doc page) p) as [[|[|tag kids sh]]|]; try by left.
  destruct (pathSelector _ _ _) as [[path|err] c]; [|by left].
  right. eexists. split; [reflexivity|]. done.
Qed.

(** What a reaction adds to the whispers. *)
Lemma react_whispers now i st :
  whispers (react cfg page now i st).1 = whispers st
  \/ (listening st = true
      /\ exists e w, i = MouseMove e
           /\ whispers (react cfg page now i st).1 = whispers st ++ [w]
           /\ own_move cfg w).
Proof.
  destruct i as [| |msg|e|id|]; cbn [react]; try by left.
  - left. apply handleMessage_whispers.
  - destruct (listening st) eqn:Hl; [|by left].
    unfold mousemove_listener.
    assert (Hmove : whispers (_handleMove cfg page true e st).1 = whispers st
              \/ (true = true
                  /\ exists e0 w, MouseMove e = MouseMove e0
                       /\ whispers (_handleMove cfg page true e st).1
                          = whispers st ++ [w]
                       /\ own_move cfg w)).
    { destruct (handleMove_whispers true e st) as [H|(w & H & Hw)];
        [by left|right]. split; [done|]. by exists e, w. }
    destruct (throttle cfg) as [wait|]; [|done].
    destruct (wait =? 0)%Z; [done|]. left. cbn [fst].
    unfold debounced. by destruct (debounce_timer st).
  - left. apply fire_whispers_nothing.
Qed.

(** X18. The widget whispers only its own moves, and only while it
    listens: in every state it reaches, each whisper sent is a [move]
    event carrying the widget's own id and colour; and no reaction of
    a widget whose pointer listener is not registered whispers
    anything. (A throttled widget listens through [debounced].) *)
Theorem whispers_are_own_moves (fuel : nat) (events : list (Z * input)) :
  Forall (own_move cfg) (whispers (run cfg page fuel events initial).1)
  /\ (forall now i st,
        listening st = false ->
        whispers (react cfg page now i st).1 = whispers st).
Proof.
  split.
  - apply (run_preserves cfg page
             (fun st => Forall (own_move cfg) (whispers st))).
    + intros now i st H.
      destruct (react_whispers now i st) as [->|(_ & e & w & _ & -> & Hw)];
        [done|].
      apply Forall_app. split; [done|]. by constructor.
    + constructor.
  - intros now i st Hl.
    destruct (react_whispers now i st) as [H|(Hl' & _)]; [done|congruence].
Qed.

End Whispers.

(* ===================================================================== *)
(** * The render root and the store                                        *)
(* ===================================================================== *)

Section Mirror.
Variable cfg : Config.
Variable page : Page.

Lemma mirrored_frame st st' :
  cursors st' = cursors st -> renderRoot st' = renderRoot st ->
  mirrored st -> mirrored st'.
Proof. unfold mirrored. by intros -> ->. Qed.

(** A sweep removes entry and marker together. *)
Lemma mirrored_invalidate now st :
  labelled st -> mirrored st -> mirrored (_invalidateCursors now st).
Proof.
  intros Hl [Hown Hshown]. split.
  - intros h Hh.
    assert (Hbefore : h ∈ renderRoot st).
    { rewrite invalidate_renderRoot in Hh.
      by eapply sweep_loop_renderRoot_sub. }
    destruct (Hown h Hbefore) as (k & c & Hc & Hel).
    exists k, c. split; [|done].
    rewrite invalidate_lookup, Hc. cbn. unfold survives.
    destruct (expired now c) eqn:He; [|done]. exfalso.
    rewrite invalidate_renderRoot in Hh. subst h. revert Hh.
    apply (sweep_loop_detaches now _ st k c); [|done|done].
    apply list_elem_of_fmap. exists (k, c). split; [done|].
    by apply elem_of_map_to_list.
  - intros k c Hc. rewrite invalidate_lookup in Hc.
    destruct (cursors st !! k) as [c0|] eqn:Hc0; [|done]. cbn in Hc.
    unfold survives in Hc. destruct (expired now c0) eqn:He; [done|].
    injection Hc as <-.
    apply (invalidate_keeps_marker now st k c0); eauto.
Qed.

(** With no attached element under the label, the cursor wraps the
    clone. *)
Lemma createCursor_unlabelled id color st :
  attached st -> getElementById st ("cursor-" +:+ id) = None ->
  el (_createCursor id color st).1 = fresh (dom (markers st)).
Proof.
  intros Ha Hnone. unfold _createCursor. cbn [fst el].
  set (h := fresh (dom (markers st))).
  set (name := "cursor-" +:+ id) in *.
  set (st1 := set_renderRoot _ _).
  assert (Hfresh : markers st !! h = None).
  { apply not_elem_of_dom. apply is_fresh. }
  assert (Hsame : List.find (fun h' => match markers st1 !! h' with
                                      | Some m => String.eqb (marker_id m) name
                                      | None => false
                                      end) (renderRoot st) = None).
  { rewrite <- Hnone. unfold getElementById. apply find_ext_in. intros x Hx.
    unfold st1. cbn [markers set_renderRoot set_markers].
    rewrite lookup_insert_ne; [done|]. intros ->.
    apply Ha in Hx as [m Hm]. congruence. }
  change (getElementById st1 name)
    with (List.find (fun h' => match markers st1 !! h' with
                               | Some m => String.eqb (marker_id m) name
                               | None => false
                               end) (renderRoot st ++ [h])).
  rewrite (find_app_none _ _ _ Hsame). cbn [List.find].
  by destruct (match markers st1 !! h with
               | Some m => String.eqb (marker_id m) name
               | None => false end).
Qed.

Lemma mirrored_handleMessage now msg st :
  labelled st -> attached st -> mirrored st ->
  mirrored (_handleMessage page now msg st).1.
Proof.
  intros Hl Ha [Hown Hshown].
  open_handler page now msg st ltac:(by split).
  destruct (String.eqb (msg_event msg) "move"); [|done].
  pose proof (upsert_entry (msg_id msg) (msg_color msg) st Hl) as Hup.
  cbv zeta in Hup.
  set (st1 := match cursors st !! msg_id msg with
              | Some _ => st
              | None => _ end) in *.
  destruct Hup as (Hl1 & _ & _ & _ & _ & Hsame & _).
  assert (H1 : mirrored st1).
  { destruct (cursors st !! msg_id msg) as [c0|] eqn:Hc0.
    - rewrite Hsame by done. by split.
    - subst st1.
      assert (Hnone : getElementById st ("cursor-" +:+ msg_id msg) = None).
      { destruct (getElementById st _) as [h0|] eqn:Hget; [|done]. exfalso.
        unfold getElementById in Hget. apply find_some in Hget as [Hin Hm].
        apply list_elem_of_In in Hin.
        destruct (Hown h0 Hin) as (k & c & Hc & Hh0).
        destruct (Hl k c Hc) as (m & Hmk & Hid).
        rewrite <- Hh0, Hmk in Hm. apply String.eqb_eq in Hm.
        rewrite Hid in Hm. apply append_inj_l in Hm. congruence. }
      pose proof (createCursor_unlabelled (msg_id msg) (msg_color msg) st
                    Ha Hnone) as Hel.
      destruct (_createCursor (msg_id msg) (msg_color msg) st)
        as [c st0] eqn:Hcr.
      cbn [fst] in Hel.
      assert (Hcur : cursors st0 = cursors st).
      { unfold _createCursor in Hcr. by injection Hcr as _ <-. }
      assert (Hroot : renderRoot st0
                      = renderRoot st ++ [fresh (dom (markers st))]).
      { unfold _createCursor in Hcr. by injection Hcr as _ <-. }
      split.
      + intros h. cbn [renderRoot set_cursors cursors]. rewrite Hroot.
        intros [Hh|Hh]%elem_of_app.
        * destruct (Hown h Hh) as (k & c' & Hc' & Hh').
          exists k, c'. split; [|done].
          rewrite lookup_insert_ne, Hcur; [done|]. congruence.
        * apply list_elem_of_singleton in Hh as ->.
          exists (msg_id msg), c. by rewrite lookup_insert_eq.
      + intros k c'. cbn [renderRoot set_cursors cursors]. rewrite Hroot.
        destruct (decide (k = msg_id msg)) as [->|Hne].
        * rewrite lookup_insert_eq. intros [= <-]. rewrite Hel.
          apply elem_of_app. right. by apply list_elem_of_singleton.
        * rewrite lookup_insert_ne, Hcur by done. intros Hc'.
          apply elem_of_app. left. by eapply Hshown. }
  clearbody st1. clear Hown Hshown Hsame.
  destruct (cursors st1 !! msg_id msg) as [c1|] eqn:Hc1; [|done].
  assert (Hput : forall d ms st2,
            st2 = set_cursors
                    (<[msg_id msg := {| cursor_id := cursor_id c1;
                                        el := el c1; deadline := d |}]>
                       (cursors st1)) (set_markers ms st1) ->
            mirrored st2).
  { intros d ms st2 ->. destruct H1 as [Hown Hshown]. split.
    - intros h Hh. cbn [renderRoot set_cursors set_markers cursors] in *.
      destruct (Hown h Hh) as (k & c & Hc & Hel).
      destruct (decide (k = msg_id msg)) as [->|Hne].
      + eexists _, _. rewrite lookup_insert_eq. split; [done|].
        cbn [el]. congruence.
      + exists k, c. by rewrite lookup_insert_ne.
    - intros k c. cbn [renderRoot set_cursors set_markers cursors].
      destruct (decide (k = msg_id msg)) as [->|Hne].
      + rewrite lookup_insert_eq. intros [= <-]. cbn [el].
        by apply (Hshown (msg_id msg)).
      + rewrite lookup_insert_ne by done. apply Hshown. }
  unfold keepalive.
  destruct (pathLocator _ _) as [[[|p]|]|err]; try done; cbn [fst].
  - apply mirrored_invalidate; [by apply labelled_keepalive|].
    by eapply Hput.
  - apply mirrored_invalidate.
    + intros k c Hk. cbn [cursors set_cursors markers set_markers] in *.
      destruct (decide (k = msg_id msg)) as [->|Hne].
      * rewrite lookup_insert_eq in Hk. injection Hk as <-. by apply Hl1.
      * rewrite lookup_insert_ne in Hk by done. by apply Hl1.
    + apply (Hput (deadline c1) (markers st1)). by destruct c1.
Qed.

Lemma mirrored_react now i st :
  i <> Detach -> sound st -> mirrored st ->
  mirrored (react cfg page now i st).1.
Proof.
  intros Hi ((Hl & _) & _ & _ & Ha) Hin.
  destruct i as [| |msg|e|id|]; cbn [react]; try done.
  - by apply mirrored_handleMessage.
  - destruct (listening st); [|done]. unfold mousemove_listener.
    assert (Hmove : mirrored (_handleMove cfg page true e st).1).
    { unfold _handleMove. destruct (event_path e) as [|[|p] rest]; try done.
      destruct (resolve (page_doc page) p) as [[|[|tag kids sh]]|]; try done.
      by destruct (pathSelector _ _ _) as [[path|err] c]. }
    destruct (throttle cfg) as [wait|]; [|done].
    destruct (wait =? 0)%Z; [done|]. cbn [fst].
    apply (mirrored_frame st); [| |done];
      unfold debounced; by destruct (debounce_timer st).
  - unfold fire.
    destruct (List.find _ (timers st)) as [t|]; [|done].
    destruct (job t).
    + cbn [fst]. apply mirrored_invalidate.
      * intros k c Hk. exact (Hl k c Hk).
      * by apply (mirrored_frame st).
    + by apply (mirrored_frame st).
Qed.

Lemma tidy_run_timers fuel now st :
  sound st /\ mirrored st ->
  sound (run_timers cfg page fuel now st).1
  /\ mirrored (run_timers cfg page fuel now st).1.
Proof.
  revert st. induction fuel as [|fuel IH]; intros st H; [done|].
  destruct (next_due now st) as [t|] eqn:Hnext.
  - rewrite (run_timers_step cfg page fuel now st t Hnext). apply IH.
    destruct H as [Hs Hin]. split.
    + apply (sound_react cfg page (due t) (TimerFires (timer_id t)) st Hs).
    + by apply (mirrored_react (due t) (TimerFires (timer_id t)) st).
  - by rewrite run_timers_stop.
Qed.

Lemma tidy_run fuel (events : list (Z * input)) :
  Forall (fun e => e.2 <> Detach) events ->
  forall st,
    sound st /\ mirrored st ->
    sound (run cfg page fuel events st).1
    /\ mirrored (run cfg page fuel events st).1.
Proof.
  induction 1 as [|[t i] events Hi Hrest IH]; intros st H; [done|].
  cbn [run].
  pose proof (tidy_run_timers fuel t st H) as H1.
  destruct (run_timers cfg page fuel t st) as [st1 errs1].
  cbn [fst snd] in *.
  assert (H2 : sound (react cfg page t i st1).1
               /\ mirrored (react cfg page t i st1).1).
  { destruct H1 as [Hs Hin]. split; [by apply sound_react|].
    by apply mirrored_react. }
  destruct (react cfg page t i st1) as [st2 err].
  specialize (IH st2 H2).
  by destruct (run cfg page fuel events st2).
Qed.

(** X22. As long as the widget is not detached, the markers attached to
    the render root are exactly the markers the stored cursors wrap:
    no reaction leaves a marker without its cursor or a cursor without
    its marker. *)
Theorem markers_shown_are_the_stored_ones (fuel : nat)
    (events : list (Z * input)) :
  Forall (fun e => e.2 <> Detach) events ->
  let st := (run cfg page fuel events initial).1 in
  forall h, h ∈ renderRoot st
            <-> exists k c, cursors st !! k = Some c /\ el c = h.
Proof.
  intros Hev. cbv zeta.
  destruct (tidy_run fuel events Hev initial) as [_ [Hown Hshown]].
  - split; [apply sound_initial|]. split.
    + by intros h Hh%elem_of_nil.
    + intros k c Hc. cbn in Hc. by rewrite lookup_empty in Hc.
  - intros h. split; [apply Hown|].
    intros (k & c & Hc & <-). by eapply Hshown.
Qed.

End Mirror.

Lemma markers_shown_are_the_stored_ones_witness :
  let st := (run Scenario.unthrottled Scenario.pg 5
               [(0%Z, ChannelMessage Scenario.found);
                (100%Z, ChannelMessage Scenario.lost)] initial).1 in
  length (renderRoot st) = 2
  /\ forall h, h ∈ renderRoot st
               <-> exists k c, cursors st !! k = Some c /\ el c = h.
Proof.
  split; [vm_compute; reflexivity|].
  apply (markers_shown_are_the_stored_ones Scenario.unthrottled Scenario.pg 5
           [(0%Z, ChannelMessage Scenario.found);
            (100%Z, ChannelMessage Scenario.lost)]).
  repeat (constructor; [discriminate|]). constructor.
Defined.

(* ===================================================================== *)
(** * Ids that are names of inherited members                              *)
(* ===================================================================== *)

Section InheritedNames.
Variable cfg : Config.
Variable page : Page.

Lemma plain_keys_frame st st' :
  cursors st' = cursors st -> plain_keys st -> plain_keys st'.
Proof. unfold plain_keys. by intros ->. Qed.

Lemma plain_keys_invalidate now st :
  plain_keys st -> plain_keys (_invalidateCursors now st).
Proof.
  intros H k Hk. by rewrite invalidate_lookup, (H k Hk).
Qed.

Lemma plain_keys_insert id c st st' :
  inherited id = false -> plain_keys st ->
  plain_keys (set_cursors (<[id := c]> (cursors st)) st').
Proof.
  intros Hid H k Hk. cbn [cursors set_cursors].
  rewrite lookup_insert_ne by congruence. by apply H.
Qed.

(** The handler stores entries under the id of the message only, and
    only when the id is not an inherited name. *)
Lemma plain_keys_handleMessage now msg st :
  plain_keys st -> plain_keys (_handleMessage page now msg st).1.
Proof.
  intros H. open_handler page now msg st ltac:(done).
  assert (Hid : inherited (msg_id msg) = false).
  { destruct Hown as [Hsome|?]; [|done].
    destruct (inherited (msg_id msg)) eqn:E; [|done].
    by rewrite (H _ E) in Hsome. }
  destruct (String.eqb (msg_event msg) "move"); [|done].
  set (st1 := match cursors st !! msg_id msg with
              | Some _ => st
              | None => _ end).
  assert (H1 : plain_keys st1).
  { unfold st1. destruct (cursors st !! msg_id msg); [done|].
    unfold _createCursor. by apply plain_keys_insert. }
  clearbody st1.
  destruct (cursors st1 !! msg_id msg) as [c|]; [|done].
  destruct (keepalive _ _ _ _ _) as [[c' ms]|err]; [|done].
  cbn [fst]. apply plain_keys_invalidate.
  by apply plain_keys_insert.
Qed.

Lemma plain_keys_react now i st :
  plain_keys st -> plain_keys (react cfg page now i st).1.
Proof.
  intros H. destruct i as [| |msg|e|id|]; cbn [react]; try done.
  - by apply plain_keys_handleMessage.
  - destruct (listening st); [|done]. unfold mousemove_listener.
    assert (Hmove : plain_keys (_handleMove cfg page true e st).1).
    { unfold _handleMove. destruct (event_path e) as [|[|p] rest]; try done.
      destruct (resolve (page_doc page) p) as [[|[|tag kids sh]]|]; try done.
      by destruct (pathSelector _ _ _) as [[path|err] c]. }
    destruct (throttle cfg) as [wait|]; [|done].
    destruct (wait =? 0)%Z; [done|]. cbn [fst].
    apply (plain_keys_frame st); [|done].
    unfold debounced. by destruct (debounce_timer st).
  - unfold fire.
    destruct (List.find _ (timers st)) as [t|]; [|done].
    destruct (job t).
    + cbn [fst]. apply plain_keys_invalidate. by apply (plain_keys_frame st).
    + by apply (plain_keys_frame st).
Qed.

(** X24. Whatever has happened before, a move message whose id is the
    name of a member that objects inherit ([constructor], [toString],
    [__proto__], ...) finds no entry of its own in the store, since no
    entry is ever stored under such a name; the handler takes the
    inherited member for the sender's cursor, creates nothing, and ends
    with a TypeError, leaving the state of the widget as it was. *)
Theorem inherited_id_raises (fuel : nat) (events : list (Z * input))
    (now : Z) (msg : Message) :
  msg_event msg = "move" ->
  inherited (msg_id msg) = true ->
  let st := (run cfg page fuel events initial).1 in
  cursors st !! msg_id msg = None
  /\ _handleMessage page now msg st = (st, Some TypeError).
Proof.
  intros Hev Hin. cbv zeta.
  assert (H : plain_keys (run cfg page fuel events initial).1).
  { apply (run_preserves cfg page plain_keys).
    - intros ? ? ?. apply plain_keys_react.
    - intros k _. cbn. apply lookup_empty. }
  split; [by apply H|].
  rewrite (handleMessage_inherited page now msg _ (H _ Hin) Hin).
  by rewrite Hev.
Qed.

End InheritedNames.

Lemma inherited_id_raises_witness :
  let st := (run Scenario.unthrottled Scenario.pg 5
               [(0%Z, ChannelMessage Scenario.found);
                (100%Z, ChannelMessage Scenario.namesake)] initial).1 in
  size (cursors st) = 1
  /\ cursors st !! "constructor" = None
  /\ _handleMessage Scenario.pg 200%Z Scenario.namesake st
     = (st, Some TypeError).
Proof.
  split; [vm_compute; reflexivity|].
  exact (inherited_id_raises Scenario.unthrottled Scenario.pg 5
           [(0%Z, ChannelMessage Scenario.found);
            (100%Z, ChannelMessage Scenario.namesake)]
           200%Z Scenario.namesake eq_refl eq_refl).
Defined.

(* ===================================================================== *)
(** * The logs element: flattened records and numbered lines               *)
(* ===================================================================== *)

Section JsonInduction.

Lemma json_ind' (P : Logs.json -> Prop)
    (Hnull : P Logs.JNull)
    (Hbool : forall b, P (Logs.JBool b))
    (Hnum : forall n, P (Logs.JNum n))
    (Hstr : forall s, P (Logs.JStr s))
    (Harr : forall items, Forall P items -> P (Logs.JArr items))
    (Hobj : forall fields, Forall (fun kv => P kv.2) fields ->
                           P (Logs.JObj fields)) :
  forall v, P v.
Proof.
  exact (fix IH (v : Logs.json) : P v :=
           match v with
           | Logs.JNull => Hnull
           | Logs.JBool b => Hbool b
           | Logs.JNum n => Hnum n
           | Logs.JStr s => Hstr s
           | Logs.JArr items =>
               Harr items
                 ((fix go (l : list Logs.json) : Forall P l :=
                     match l with
                     | [] => List.Forall_nil P
                     | x :: l' => List.Forall_cons P x l' (IH x) (go l')
                     end) items)
           | Logs.JObj fields =>
               Hobj fields
                 ((fix go (l : list (string * Logs.json))
                     : Forall (fun kv => P kv.2) l :=
                     match l with
                     | [] => List.Forall_nil _
                     | kv :: l' =>
                         List.Forall_cons (fun kv => P kv.2) kv l'
                           (IH kv.2) (go l')
                     end) fields)
           end).
Qed.

End JsonInduction.

Section FlattenLoop.

(** The loop of [flatten] as a fold over the properties visited. *)
Lemma flatten_loop_obj fields acc prefix :
  Logs.flatten_loop (Logs.JObj fields) acc prefix
  = foldl (visit prefix) acc fields.
Proof.
  cbn [Logs.flatten_loop]. revert acc.
  induction fields as [|[key val] rest IH]; intros acc; [reflexivity|].
  cbn [foldl]. rewrite <- IH. reflexivity.
Qed.

Lemma flatten_loop_arr items acc prefix :
  Logs.flatten_loop (Logs.JArr items) acc prefix
  = foldl (visit prefix) acc (Logs.indexed 0 items).
Proof.
  cbn [Logs.flatten_loop]. generalize 0. revert acc.
  induction items as [|val rest IH]; intros acc i; [reflexivity|].
  cbn [foldl Logs.indexed]. rewrite <- IH. reflexivity.
Qed.

Lemma flatten_loop_entries data acc prefix :
  Logs.typeof_object data = true ->
  Logs.flatten_loop data acc prefix
  = foldl (visit prefix) acc (Logs.entries data).
Proof.
  destruct data; try discriminate; intros _.
  - reflexivity.
  - apply flatten_loop_arr.
  - apply flatten_loop_obj.
Qed.

End FlattenLoop.

Section Objects.

Lemma array_index_canonical k n :
  Logs.array_index k = Some n ->
  k = NilEmpty.string_of_uint (N.to_uint n).
Proof.
  unfold Logs.array_index.
  destruct (NilEmpty.uint_of_string k) as [d|]; [|done].
  cbv zeta.
  destruct (String.eqb _ k) eqn:E; [|done].
  destruct (_ <? _)%N; [|done]. cbn. intros [= <-].
  symmetry. by apply String.eqb_eq.
Qed.

Lemma array_index_inj k k' n :
  Logs.array_index k = Some n -> Logs.array_index k' = Some n -> k = k'.
Proof.
  intros H1%array_index_canonical H2%array_index_canonical. congruence.
Qed.

Lemma has_key_elem k (o : Logs.obj) :
  Logs.has_key k o = true <-> k ∈ (fst <$> o).
Proof.
  unfold Logs.has_key. rewrite existsb_exists. split.
  - intros ([k' v] & Hin & E). cbn in E. apply String.eqb_eq in E as <-.
    apply list_elem_of_fmap. exists (k', v). split; [done|].
    by apply list_elem_of_In.
  - intros ([k' v] & -> & Hin)%list_elem_of_fmap.
    exists (k', v). split; [by apply list_elem_of_In|].
    apply String.eqb_refl.
Qed.

Lemma has_key_not_elem k (o : Logs.obj) :
  Logs.has_key k o = false <-> k ∉ (fst <$> o).
Proof.
  rewrite <- has_key_elem. by destruct (Logs.has_key k o).
Qed.

Lemma keys_replace k v (o : Logs.obj) :
  fst <$> Logs.replace k v o = fst <$> o.
Proof.
  induction o as [|[k' v'] rest IH]; [done|].
  cbn [Logs.replace]. destruct (String.eqb k' k) eqn:E.
  - apply String.eqb_eq in E as ->. reflexivity.
  - cbn. by rewrite IH.
Qed.

Lemma values_replace (P : string * Logs.json -> Prop) k v (o : Logs.obj) :
  P (k, v) -> Forall P o -> Forall P (Logs.replace k v o).
Proof.
  intros Hv. induction 1 as [|[k' v'] rest Hx Hrest IH]; [constructor|].
  cbn [Logs.replace]. destruct (String.eqb k' k); by constructor.
Qed.

Lemma insert_index_perm n k v (o : Logs.obj) :
  Logs.insert_index n k v o ≡ₚ (k, v) :: o.
Proof.
  induction o as [|[k' v'] rest IH]; [done|].
  cbn [Logs.insert_index].
  destruct (Logs.array_index k') as [n'|]; [|done].
  destruct (n' <? n)%N; [|done].
  rewrite IH. apply Permutation_swap.
Qed.

Lemma precedes_trans k1 k2 k3 :
  precedes k1 k2 -> precedes k2 k3 -> precedes k1 k3.
Proof.
  unfold precedes.
  destruct (Logs.array_index k1), (Logs.array_index k2),
    (Logs.array_index k3); try done. lia.
Qed.

Lemma ordered_insert_index n k v (o : Logs.obj) :
  Logs.array_index k = Some n -> k ∉ (fst <$> o) ->
  ordered (fst <$> o) -> ordered (fst <$> Logs.insert_index n k v o).
Proof.
  intros Hk. induction o as [|[k' v'] rest IH]; intros Hnew Hord.
  - cbn. split; [constructor|done].
  - cbn [fmap list_fmap fst] in Hnew, Hord.
    fold (fmap (M:=list) (@fst string Logs.json) rest) in Hnew, Hord.
    apply not_elem_of_cons in Hnew as [Hne Hnew].
    destruct Hord as [Hall Hord].
    cbn [Logs.insert_index].
    assert (Hfront : precedes k k' ->
              ordered (fst <$> (k, v) :: (k', v') :: rest)).
    { intros Hp. cbn. split; [|by split].
      constructor; [done|].
      eapply Forall_impl; [exact Hall|].
      intros x Hx. by eapply precedes_trans. }
    destruct (Logs.array_index k') as [n'|] eqn:Hk'.
    + destruct (n' <? n)%N eqn:Hlt.
      * cbn [fmap list_fmap fst].
        fold (fmap (M:=list) (@fst string Logs.json)
                (Logs.insert_index n k v rest)).
        split; [|by apply IH].
        rewrite (insert_index_perm n k v rest). cbn.
        constructor; [|done].
        unfold precedes. rewrite Hk', Hk. by apply N.ltb_lt.
      * apply Hfront. unfold precedes. rewrite Hk, Hk'.
        apply N.ltb_ge in Hlt.
        assert (n <> n').
        { intros ->. apply Hne. by apply (array_index_inj k k' n'). }
        lia.
    + apply Hfront. unfold precedes. by rewrite Hk, Hk'.
Qed.

Lemma ordered_snoc (ks : list string) k :
  Logs.array_index k = None -> ordered ks -> ordered (ks ++ [k]).
Proof.
  intros Hk. induction ks as [|x ks IH]; intros Hord.
  - cbn. split; [constructor|done].
  - destruct Hord as [Hall Hord]. cbn. split; [|by apply IH].
    apply Forall_app. split; [done|].
    constructor; [|constructor]. unfold precedes. rewrite Hk.
    by destruct (Logs.array_index x).
Qed.

(** Assigning a truthy primitive keeps a record flat. *)
Lemma flat_record_set k v (o : Logs.obj) :
  leaf v = true -> flat_record o -> flat_record (Logs.obj_set k v o).
Proof.
  intros Hv (Hnd & Hord & Hproto & Hvals). unfold Logs.obj_set.
  destruct (String.eqb k "__proto__") eqn:Ep; [done|].
  apply String.eqb_neq in Ep.
  destruct (Logs.has_key k o) eqn:Hhas.
  - unfold flat_record. rewrite keys_replace.
    repeat split; try done. by apply values_replace.
  - apply has_key_not_elem in Hhas.
    destruct (Logs.array_index k) as [n|] eqn:Hk.
    + unfold flat_record. split; [|split; [|split]].
      * rewrite (insert_index_perm n k v o). cbn. by apply NoDup_cons.
      * by apply ordered_insert_index.
      * rewrite (insert_index_perm n k v o). cbn.
        apply not_elem_of_cons. split; [congruence|done].
      * rewrite (insert_index_perm n k v o). by constructor.
    + unfold flat_record. rewrite fmap_app. cbn. split; [|split; [|split]].
      * apply NoDup_app. split; [done|]. split; [|apply NoDup_singleton].
        intros x Hx ->%list_elem_of_singleton. done.
      * by apply ordered_snoc.
      * intros [H|H]%elem_of_app; [done|].
        apply list_elem_of_singleton in H. congruence.
      * apply Forall_app. split; [done|]. by constructor.
Qed.

End Objects.

Section FlattenFlat.

Lemma flat_record_fold prefix (l : list (string * Logs.json)) :
  Forall (fun kv => forall acc prefix', flat_record acc ->
            flat_record (Logs.flatten_loop kv.2 acc prefix')) l ->
  forall acc, flat_record acc -> flat_record (foldl (visit prefix) acc l).
Proof.
  induction 1 as [|kv rest Hkv Hrest IH]; intros acc Hacc; [done|].
  cbn [foldl]. apply IH. unfold visit.
  destruct (Logs.falsy kv.2) eqn:Hf; [done|].
  destruct (Logs.typeof_object kv.2) eqn:Ht; [by apply Hkv|].
  apply flat_record_set; [|done]. unfold leaf. by rewrite Hf, Ht.
Qed.

Lemma Forall_indexed {A} (P : A -> Prop) (l : list A) i :
  Forall P l -> Forall (fun kv => P kv.2) (Logs.indexed i l).
Proof.
  intros H. revert i. induction H as [|x rest Hx Hrest IH]; intros i;
    [constructor|].
  cbn. constructor; [done|]. apply IH.
Qed.

(** The loop of [flatten] keeps a flat record flat. *)
Lemma flat_record_loop data :
  forall acc prefix, flat_record acc ->
    flat_record (Logs.flatten_loop data acc prefix).
Proof.
  induction data as [| | | |items IH|fields IH] using json_ind';
    intros acc prefix Hacc; try done.
  - rewrite flatten_loop_arr. apply flat_record_fold; [|done].
    by apply (Forall_indexed
                (fun v => forall acc prefix', flat_record acc ->
                   flat_record (Logs.flatten_loop v acc prefix'))).
  - rewrite flatten_loop_obj. by apply flat_record_fold.
Qed.

Lemma flat_record_nil : flat_record [].
Proof.
  unfold flat_record. cbn. repeat split; try constructor.
  by intros H%elem_of_nil.
Qed.

End FlattenFlat.

(** X12. What [flatten] returns. For an object, an array or [null] it
    is a record with distinct keys whose values are all truthy
    primitives: no nested object or array, no [null], [false], zero or
    empty string is left. Any other value is returned as it is. *)
Theorem flatten_gives_flat_record (data : Logs.json) :
  if Logs.typeof_object data
  then exists fields,
         Logs.flatten data [] "" = Logs.JObj fields
         /\ NoDup (fst <$> fields)
         /\ Forall (fun kv => Logs.falsy kv.2 = false
                              /\ Logs.typeof_object kv.2 = false) fields
  else Logs.flatten data [] "" = data.
Proof.
  unfold Logs.flatten. destruct (Logs.typeof_object data) eqn:Ht; [|done].
  cbn [negb]. eexists. split; [reflexivity|].
  destruct (flat_record_loop data [] "" flat_record_nil)
    as (Hnd & _ & _ & Hvals).
  split; [done|].
  eapply Forall_impl; [exact Hvals|].
  intros kv H. unfold leaf in H. apply andb_true_iff in H as [H1 H2].
  by rewrite negb_true_iff in H1, H2.
Qed.

Section Rebuild.

Lemma ordered_app_precedes (l1 l2 : list string) k :
  ordered (l1 ++ k :: l2) -> Forall (fun x => precedes x k) l1.
Proof.
  induction l1 as [|x l1 IH]; [constructor|].
  cbn. intros [Hall Hord]. constructor; [|by apply IH].
  apply Forall_app in Hall as [_ Hall]. by apply Forall_cons in Hall as [? _].
Qed.

Lemma insert_index_end n k v (o : Logs.obj) :
  Logs.array_index k = Some n ->
  Forall (fun x => precedes x k) (fst <$> o) ->
  Logs.insert_index n k v o = o ++ [(k, v)].
Proof.
  intros Hk. induction o as [|[k' v'] rest IH]; intros Hall; [done|].
  cbn in Hall. apply Forall_cons in Hall as [Hp Hall].
  cbn [Logs.insert_index]. unfold precedes in Hp. rewrite Hk in Hp.
  destruct (Logs.array_index k') as [n'|]; [|done].
  rewrite (proj2 (N.ltb_lt n' n) Hp). cbn. by rewrite IH.
Qed.

Lemma keyPrefix_empty : Logs.keyPrefix "" = "".
Proof. reflexivity. Qed.

(** Visiting the fields of a flat record in order writes them back one
    after the other. *)
Lemma rebuild_flat (b : Logs.obj) :
  forall a, flat_record (a ++ b) -> foldl (visit "") a b = a ++ b.
Proof.
  induction b as [|[k v] rest IH]; intros a Hflat.
  - cbn. by rewrite app_nil_r.
  - cbn [foldl].
    destruct Hflat as (Hnd & Hord & Hproto & Hvals).
    assert (Hv : leaf v = true).
    { apply Forall_app in Hvals as [_ Hvals].
      by apply Forall_cons in Hvals as [? _]. }
    unfold leaf in Hv. apply andb_true_iff in Hv as [Hf Ht].
    apply negb_true_iff in Hf, Ht.
    assert (Hstep : visit "" a (k, v) = a ++ [(k, v)]).
    { unfold visit. cbn [fst snd]. rewrite Hf, Ht, keyPrefix_empty.
      rewrite append_nil_l. unfold Logs.obj_set.
      rewrite fmap_app in Hnd, Hord, Hproto. cbn in Hnd, Hord, Hproto.
      assert (Hne : String.eqb k "__proto__" = false).
      { apply String.eqb_neq. intros ->. apply Hproto.
        apply elem_of_app. right. left. }
      rewrite Hne.
      assert (Hnew : Logs.has_key k a = false).
      { apply has_key_not_elem. intros Hin.
        apply NoDup_app in Hnd as (_ & Hdis & _).
        apply (Hdis k Hin). left. }
      rewrite Hnew.
      destruct (Logs.array_index k) as [n|] eqn:Hk; [|done].
      apply insert_index_end; [done|].
      by apply (ordered_app_precedes _ (fst <$> rest)). }
    rewrite Hstep. rewrite IH; [by rewrite <- app_assoc|].
    rewrite <- app_assoc. cbn [app].
    by split; [|split; [|split]].
Qed.

End Rebuild.

(** X13. [flatten] is idempotent: flattening what it returned gives
    the same record again, key for key and in the same order. *)
Theorem flatten_is_idempotent (data : Logs.json) :
  Logs.flatten (Logs.flatten data [] "") [] "" = Logs.flatten data [] "".
Proof.
  assert (H : Logs.flatten data [] ""
              = if Logs.typeof_object data
                then Logs.JObj (Logs.flatten_loop data [] "") else data).
  { unfold Logs.flatten. by destruct (Logs.typeof_object data). }
  destruct (Logs.typeof_object data) eqn:Ht; rewrite H.
  - unfold Logs.flatten. cbn [Logs.typeof_object negb].
    f_equal. rewrite flatten_loop_obj.
    apply (rebuild_flat _ []). cbn [app].
    apply flat_record_loop, flat_record_nil.
  - unfold Logs.flatten. by rewrite Ht.
Qed.

Section Compile.
Variable JSON_stringify : Logs.json -> string.

Lemma compile_leaves (l : list (string * Logs.json)) :
  Forall (fun kv => leaf kv.2 = true) l ->
  forall buf,
    foldl (Logs.compile_attr JSON_stringify) buf l
    = buf ++ (attr_text <$> List.filter unreserved l).
Proof.
  induction 1 as [|[k v] rest Hv Hrest IH]; intros buf.
  - cbn. by rewrite app_nil_r.
  - cbn [foldl List.filter]. rewrite IH.
    assert (Hu : unreserved (k, v)
                 = negb (Logs.includes Logs.RESERVED_ATTRS k)) by reflexivity.
    rewrite Hu. unfold Logs.compile_attr. cbn [fst snd] in *.
    destruct (Logs.includes Logs.RESERVED_ATTRS k); cbn [negb]; [done|].
    unfold leaf in Hv. apply andb_true_iff in Hv as [Hf Ht].
    apply negb_true_iff in Hf, Ht. rewrite Hf, Ht.
    rewrite <- app_assoc. reflexivity.
Qed.

(** X14. The text [_compileLog] gives for a flattened record: the
    [time], [level] and [msg] of the record ([undefined] where one is
    missing), then every other attribute as [key=value], in the
    record's order, separated by spaces. No attribute is skipped and
    [JSON.stringify] is never consulted. *)
Theorem compiled_line_lists_flattened_attributes (data : Logs.json)
    (fields : Logs.obj) :
  Logs.flatten data [] "" = Logs.JObj fields ->
  Logs._compileLog JSON_stringify (Logs.flatten data [] "")
  = Logs.text_of (Logs.obj_get "time" fields) +:+ " "
    +:+ Logs.text_of (Logs.obj_get "level" fields) +:+ " "
    +:+ Logs.text_of (Logs.obj_get "msg" fields) +:+ " "
    +:+ Logs.join " " (attr_text <$> List.filter unreserved fields).
Proof.
  intros Hflat. rewrite Hflat. unfold Logs._compileLog.
  cbn [Logs.field Logs.entries].
  rewrite (compile_leaves fields); [done|].
  unfold Logs.flatten in Hflat.
  destruct (Logs.typeof_object data) eqn:Ht; cbn [negb] in Hflat.
  - injection Hflat as <-.
    apply (flat_record_loop data [] "" flat_record_nil).
  - cbn in Hflat. subst data. discriminate Ht.
Qed.

End Compile.

Lemma compiled_line_lists_flattened_attributes_witness :
  Logs.flatten (Logs.JObj Records.broadcast) [] ""
  = Logs.JObj [ ("time", Logs.JStr "2024-03-01T10:00:00Z");
                ("level", Logs.JStr "INFO");
                ("msg", Logs.JStr "broadcast");
                ("stream", Logs.JStr "chat_1");
                ("context.sid", Logs.JStr "abc");
                ("context.tags.0", Logs.JStr "a") ]
  /\ Logs._compileLog (fun _ => "{}")
       (Logs.flatten (Logs.JObj Records.broadcast) [] "")
     = "2024-03-01T10:00:00Z INFO broadcast stream=chat_1 context.sid=abc"
       +:+ " context.tags.0=a".
Proof.
  split; [vm_compute; reflexivity|].
  exact (compiled_line_lists_flattened_attributes (fun _ => "{}")
           (Logs.JObj Records.broadcast) _ ltac:(vm_compute; reflexivity)).
Defined.

Section LineIds.
Variable JSON_parse : string -> option Logs.json.
Variable JSON_stringify : Logs.json -> string.
Variable RegExp_accepts : string -> bool.

Lemma increasing_snoc (ns : list nat) n :
  increasing ns -> Forall (fun m => m < n) ns -> increasing (ns ++ [n]).
Proof.
  induction ns as [|x ns IH]; intros Hinc Hall.
  - cbn. split; [constructor|done].
  - destruct Hinc as [Hx Hinc]. apply Forall_cons in Hall as [Hxn Hall].
    cbn. split; [|by apply IH].
    apply Forall_app. split; [done|]. by constructor.
Qed.

(** [_filter] leaves the lines and the count alone. *)
Lemma filter_lines_kept query st :
  Logs.lines (Logs._filter RegExp_accepts query st).1 = Logs.lines st
  /\ Logs.linesCount (Logs._filter RegExp_accepts query st).1
     = Logs.linesCount st.
Proof.
  unfold Logs._filter. destruct (truthy (Some query)); [|done].
  by destruct (RegExp_accepts _).
Qed.

(** What an action does to the count and to the lines. *)
Lemma perform_lines st a :
  let st' := Logs.perform JSON_parse JSON_stringify RegExp_accepts st a in
  Logs.linesCount st <= Logs.linesCount st'
  /\ (forall l, l ∈ Logs.lines st' ->
        l ∈ Logs.lines st \/ Logs.linesCount st < Logs.id l).
Proof.
  cbv zeta. destruct a as [text| |query]; cbn [Logs.perform].
  - unfold Logs._append. destruct (negb _); [split; [lia|by left]|].
    destruct (JSON_parse text) as [d|]; [|split; [lia|by left]].
    cbn [Logs.linesCount Logs.lines Logs.set_lines]. split; [lia|].
    intros l [H|H]%elem_of_app; [by left|].
    apply list_elem_of_singleton in H as ->. right. cbn. lia.
  - cbn. split; [lia|]. by intros l H%elem_of_nil.
  - destruct (filter_lines_kept query st) as [-> ->]. split; [lia|by left].
Qed.

Lemma numbered_perform st a :
  numbered st ->
  numbered (Logs.perform JSON_parse JSON_stringify RegExp_accepts st a).
Proof.
  intros [Hinc Hall]. destruct a as [text| |query]; cbn [Logs.perform].
  - unfold Logs._append. destruct (negb _); [done|].
    destruct (JSON_parse text) as [d|]; [|done].
    split; cbn [Logs.linesCount Logs.lines Logs.set_lines].
    + rewrite fmap_app. apply increasing_snoc; [done|].
      apply Forall_fmap. eapply Forall_impl; [exact Hall|].
      intros l Hl. unfold compose. cbn in *. lia.
    + apply Forall_app. split.
      * eapply Forall_impl; [exact Hall|]. intros l Hl. cbn in *. lia.
      * constructor; [cbn; lia|constructor].
  - split; cbn; [done|constructor].
  - unfold numbered. by destruct (filter_lines_kept query st) as [-> ->].
Qed.

Lemma numbered_run (actions : list Logs.action) st :
  numbered st ->
  numbered (Logs.run JSON_parse JSON_stringify RegExp_accepts actions st).
Proof.
  unfold Logs.run. revert st.
  induction actions as [|a actions IH]; intros st H; [done|].
  cbn [foldl]. by apply IH, numbered_perform.
Qed.

Lemma run_lines (actions : list Logs.action) st :
  let st' := Logs.run JSON_parse JSON_stringify RegExp_accepts actions st in
  Logs.linesCount st <= Logs.linesCount st'
  /\ (forall l, l ∈ Logs.lines st' ->
        l ∈ Logs.lines st \/ Logs.linesCount st < Logs.id l).
Proof.
  cbv zeta. unfold Logs.run. revert st.
  induction actions as [|a actions IH]; intros st.
  - cbn. split; [lia|by left].
  - cbn [foldl].
    destruct (IH (Logs.perform JSON_parse JSON_stringify RegExp_accepts
                    st a)) as [Hle Hin].
    destruct (perform_lines st a) as [Hle1 Hin1].
    split; [lia|].
    intros l Hl. destruct (Hin l Hl) as [H|H].
    + destruct (Hin1 l H) as [?|?]; [by left|by right].
    + right. lia.
Qed.

(** X15. Line ids are never reused. After any sequence of [_append]
    calls, resets by [disconnectedCallback] and changes of the filter,
    starting from the state the constructor leaves, the ids of the
    lines are positive, strictly increasing and at most [linesCount];
    and after any further sequence every line is either one that was
    there before or has an id above the earlier count, even when the
    lines were dropped in between. *)
Theorem line_ids_are_never_reused (earlier later : list Logs.action) :
  let st1 := Logs.run JSON_parse JSON_stringify RegExp_accepts earlier
               Logs.initial in
  let st2 := Logs.run JSON_parse JSON_stringify RegExp_accepts later st1 in
  increasing (Logs.id <$> Logs.lines st2)
  /\ Forall (fun l => 0 < Logs.id l <= Logs.linesCount st2) (Logs.lines st2)
  /\ Logs.linesCount st1 <= Logs.linesCount st2
  /\ (forall l, l ∈ Logs.lines st2 ->
        l ∈ Logs.lines st1 \/ Logs.linesCount st1 < Logs.id l).
Proof.
  cbv zeta.
  assert (H0 : numbered Logs.initial).
  { split; cbn; [done|constructor]. }
  pose proof (numbered_run later _ (numbered_run earlier _ H0)) as [H1 H2].
  destruct (run_lines later
              (Logs.run JSON_parse JSON_stringify RegExp_accepts earlier
                 Logs.initial))
    as [H3 H4].
  done.
Qed.

End LineIds.

Section FilterState.
Variable RegExp_accepts : string -> bool.
Variable RegExp_match : string -> string -> nat -> option nat.

(** Testing a line that matches at its start only: found when the
    search starts at the start, missed when it starts further on. *)
Lemma test_from_start pattern s :
  matches_at_start_only RegExp_match pattern s ->
  exists e,
    0 < e
    /\ Logs.test RegExp_match {| Logs.source := pattern; Logs.lastIndex := 0 |}
         s
       = (true, {| Logs.source := pattern; Logs.lastIndex := e |}).
Proof.
  intros [(e & He & Hpos) _]. exists e. split; [done|].
  unfold Logs.test. cbn [Logs.lastIndex Logs.source].
  by rewrite He.
Qed.

Lemma test_from_further pattern s e :
  matches_at_start_only RegExp_match pattern s -> 0 < e ->
  Logs.test RegExp_match {| Logs.source := pattern; Logs.lastIndex := e |} s
  = (false, {| Logs.source := pattern; Logs.lastIndex := 0 |}).
Proof.
  intros [_ Hnone] Hpos. unfold Logs.test. cbn [Logs.lastIndex Logs.source].
  destruct (String.length s <? e); [done|]. by rewrite (Hnone e Hpos).
Qed.

(** The lines kept, by where the search starts on the first one. *)
Lemma filter_lines_alternates pattern (items : list Logs.Line) :
  Forall (fun l => matches_at_start_only RegExp_match pattern (Logs.raw l))
         items ->
  forall st,
    truthy (Some (Logs.filter st)) = true ->
    (Logs.filterRx st
     = Some {| Logs.source := pattern; Logs.lastIndex := 0 |} ->
     (Logs.filter_lines RegExp_match items st).1 = Ok (every_other items))
    /\ (forall e, 0 < e ->
          Logs.filterRx st
          = Some {| Logs.source := pattern; Logs.lastIndex := e |} ->
          (Logs.filter_lines RegExp_match items st).1
          = Ok (every_other (tail items))).
Proof.
  induction 1 as [|item rest Hitem Hrest IH]; intros st Hf.
  - split; [done|]. by intros e _ _.
  - split.
    + intros Hrx. cbn [Logs.filter_lines]. unfold Logs._matchFilter.
      rewrite Hf, Hrx.
      destruct (test_from_start pattern _ Hitem) as (e & Hpos & ->).
      destruct (IH (Logs.set_filterRx
                      (Some {| Logs.source := pattern; Logs.lastIndex := e |})
                      st) Hf) as [_ IHe].
      specialize (IHe e Hpos eq_refl).
      destruct (Logs.filter_lines RegExp_match rest _) as [[kept|err] st'];
        cbn [fst] in IHe |- *; [|done].
      injection IHe as ->. by destruct rest.
    + intros e Hpos Hrx. cbn [Logs.filter_lines tail].
      unfold Logs._matchFilter. rewrite Hf, Hrx.
      rewrite (test_from_further pattern _ e Hitem Hpos).
      destruct (IH (Logs.set_filterRx
                      (Some {| Logs.source := pattern; Logs.lastIndex := 0 |})
                      st) Hf) as [IH0 _].
      specialize (IH0 eq_refl).
      destruct (Logs.filter_lines RegExp_match rest _) as [[kept|err] st'];
        cbn [fst] in IH0 |- *; [|done].
      by injection IH0 as ->.
Qed.

(** X20. The filter hides every other match. The expression that
    [_filter] builds has the global flag, so [test] starts where the
    match in the line tested before ended. When each line matches at
    its start only (the expression requires a match to begin at the
    start of a line or after a [>]), [_filteredLines], right after
    [_filter] has set the filter, shows the first line, the third, the
    fifth and so on, and leaves out the lines in between, although
    every line matches. *)
Theorem filter_hides_every_other_match (query : string) (st : Logs.State) :
  query <> "" ->
  RegExp_accepts ("((?:^|>)[^<>]*?)(" +:+ query +:+ ")") = true ->
  Forall (fun l => matches_at_start_only RegExp_match
                     ("((?:^|>)[^<>]*?)(" +:+ query +:+ ")") (Logs.raw l))
         (Logs.lines st) ->
  (Logs._filter RegExp_accepts query st).2 = None
  /\ (Logs._filteredLines RegExp_match
        (Logs._filter RegExp_accepts query st).1).1
     = Ok (every_other (Logs.lines st)).
Proof.
  intros Hq Hacc Hall. unfold Logs._filter.
  rewrite (truthy_nonempty query Hq), Hacc. cbn [fst snd].
  split; [done|]. unfold Logs._filteredLines.
  cbn [Logs.lines Logs.set_shouldScroll Logs.set_filterRx Logs.set_filter].
  apply (filter_lines_alternates _ _ Hall); [|done].
  cbn [Logs.filter Logs.set_shouldScroll Logs.set_filterRx Logs.set_filter].
  by apply truthy_nonempty.
Qed.

End FilterState.

Lemma filter_hides_every_other_match_witness :
  (Logs._filteredLines Records.first_character
     (Logs._filter (fun _ => true) "undef" Records.console).1).1
  = Ok (every_other (Logs.lines Records.console))
  /\ Logs.id <$> every_other (Logs.lines Records.console) = [1; 3].
Proof.
  split; [|reflexivity].
  apply (filter_hides_every_other_match (fun _ => true)
           Records.first_character "undef" Records.console
           ltac:(discriminate) eq_refl).
  assert (H : forall pattern s, s <> "" ->
            matches_at_start_only Records.first_character pattern s).
  { intros pattern s Hs. split.
    - exists 1. split; [|lia]. unfold Records.first_character.
      cbn [Nat.eqb andb]. by rewrite (proj2 (String.eqb_neq _ _) Hs).
    - intros [|i] Hi; [lia|reflexivity]. }
  unfold Records.console. cbn [Logs.lines].
  do 3 (constructor; [apply H; discriminate|]). constructor.
Defined.

Section Attributes.

Lemma obj_get_replace k k' v (o : Logs.obj) :
  Logs.obj_get k (Logs.replace k' v o)
  = if decide (k = k')
    then (if Logs.has_key k' o then Some v else None)
    else Logs.obj_get k o.
Proof.
  unfold Logs.obj_get, Logs.has_key.
  induction o as [|[k0 v0] rest IH]; [by case_decide|].
  cbn [Logs.replace existsb List.find fst].
  destruct (String.eqb k0 k') eqn:E0.
  - apply String.eqb_eq in E0 as ->. cbn [orb List.find fst].
    case_decide as Ek.
    + subst. by rewrite String.eqb_refl.
    + by rewrite (proj2 (String.eqb_neq k' k)) by congruence.
  - cbn [orb List.find fst]. apply String.eqb_neq in E0.
    destruct (String.eqb k0 k) eqn:E1.
    + apply String.eqb_eq in E1 as ->. by rewrite decide_False by congruence.
    + exact IH.
Qed.

Lemma obj_get_insert_index k n k' v (o : Logs.obj) :
  Logs.has_key k' o = false ->
  Logs.obj_get k (Logs.insert_index n k' v o)
  = if decide (k = k') then Some v else Logs.obj_get k o.
Proof.
  unfold Logs.obj_get, Logs.has_key.
  induction o as [|[k0 v0] rest IH]; intros Hnew.
  - cbn. case_decide as E.
    + subst. by rewrite String.eqb_refl.
    + by rewrite (proj2 (String.eqb_neq k' k)) by congruence.
  - cbn [existsb fst] in Hnew. apply orb_false_iff in Hnew as [H0 Hnew].
    apply String.eqb_neq in H0.
    assert (Hhead : snd <$> List.find (fun kv => String.eqb kv.1 k)
                              ((k', v) :: (k0, v0) :: rest)
                    = if decide (k = k') then Some v
                      else snd <$> List.find (fun kv => String.eqb kv.1 k)
                                     ((k0, v0) :: rest)).
    { cbn [List.find fst]. case_decide as E.
      - subst. by rewrite String.eqb_refl.
      - by rewrite (proj2 (String.eqb_neq k' k)) by congruence. }
    cbn [Logs.insert_index].
    destruct (Logs.array_index k0) as [n0|]; [|exact Hhead].
    destruct (n0 <? n)%N; [|exact Hhead].
    cbn [List.find fst]. destruct (String.eqb k0 k) eqn:E1.
    + apply String.eqb_eq in E1 as ->. by rewrite decide_False by congruence.
    + by apply IH.
Qed.

Lemma obj_get_snoc k k' v (o : Logs.obj) :
  Logs.has_key k' o = false ->
  Logs.obj_get k (o ++ [(k', v)])
  = if decide (k = k') then Some v else Logs.obj_get k o.
Proof.
  unfold Logs.obj_get, Logs.has_key.
  induction o as [|[k0 v0] rest IH]; intros Hnew.
  - cbn. case_decide as E.
    + subst. by rewrite String.eqb_refl.
    + by rewrite (proj2 (String.eqb_neq k' k)) by congruence.
  - cbn [existsb fst] in Hnew. apply orb_false_iff in Hnew as [H0 Hnew].
    apply String.eqb_neq in H0.
    cbn [app List.find fst]. destruct (String.eqb k0 k) eqn:E1.
    + apply String.eqb_eq in E1 as ->. by rewrite decide_False by congruence.
    + by apply IH.
Qed.

(** Reading a property after an assignment. *)
Lemma obj_get_set k k' v (o : Logs.obj) :
  k' <> "__proto__" ->
  Logs.obj_get k (Logs.obj_set k' v o)
  = if decide (k = k') then Some v else Logs.obj_get k o.
Proof.
  intros Hp. unfold Logs.obj_set.
  rewrite (proj2 (String.eqb_neq k' "__proto__") Hp).
  destruct (Logs.has_key k' o) eqn:Hhas.
  - by rewrite obj_get_replace, Hhas.
  - destruct (Logs.array_index k').
    + by apply obj_get_insert_index.
    + by apply obj_get_snoc.
Qed.

Lemma obj_get_set_ne k k' v (o : Logs.obj) :
  k <> k' -> Logs.obj_get k (Logs.obj_set k' v o) = Logs.obj_get k o.
Proof.
  intros Hne. destruct (decide (k' = "__proto__")) as [->|Hp].
  - reflexivity.
  - by rewrite obj_get_set, decide_False.
Qed.

Lemma dotless_no_dot k (a b : string) :
  dotless k = true -> k <> a +:+ "." +:+ b.
Proof.
  unfold dotless. intros H ->. rewrite all_chars_app in H.
  apply andb_true_iff in H as [_ H]. rewrite append_cons in H.
  cbn in H. discriminate H.
Qed.

Lemma keyPrefix_truthy prefix :
  prefix <> "" -> Logs.keyPrefix prefix = prefix +:+ ".".
Proof.
  intros H. unfold Logs.keyPrefix. by rewrite truthy_nonempty.
Qed.

(** Under a prefix, the loop of [flatten] writes keys that begin with
    the prefix and a dot: a key without a dot is not touched. *)
Lemma flatten_loop_spares data :
  forall acc prefix k,
    dotless k = true -> prefix <> "" ->
    Logs.obj_get k (Logs.flatten_loop data acc prefix) = Logs.obj_get k acc.
Proof.
  induction data as [| | | |items IH|fields IH] using json_ind';
    intros acc prefix k Hk Hp; try done.
  - rewrite flatten_loop_arr. generalize 0. revert acc.
    induction IH as [|v rest Hv Hrest IHrest]; intros acc i; [done|].
    cbn [Logs.indexed foldl]. rewrite IHrest. unfold visit. cbn [fst snd].
    destruct (Logs.falsy v); [done|].
    rewrite (keyPrefix_truthy prefix Hp).
    destruct (Logs.typeof_object v).
    + apply Hv; [done|]. rewrite append_assoc.
      by apply append_nonempty_l.
    + apply obj_get_set_ne. rewrite append_assoc. by apply dotless_no_dot.
  - rewrite flatten_loop_obj. revert acc.
    induction IH as [|[key v] rest Hv Hrest IHrest]; intros acc; [done|].
    cbn [foldl]. rewrite IHrest. unfold visit. cbn [fst snd] in *.
    destruct (Logs.falsy v); [done|].
    rewrite (keyPrefix_truthy prefix Hp).
    destruct (Logs.typeof_object v).
    + apply Hv; [done|]. rewrite append_assoc.
      by apply append_nonempty_l.
    + apply obj_get_set_ne. rewrite append_assoc. by apply dotless_no_dot.
Qed.

(** At the top level, visiting a field under another key leaves the
    key alone. *)
Lemma visit_spares k k' v acc :
  dotless k = true -> k' <> k -> k' <> "" ->
  Logs.obj_get k (visit "" acc (k', v)) = Logs.obj_get k acc.
Proof.
  intros Hk Hne Hnonempty. unfold visit. cbn [fst snd].
  destruct (Logs.falsy v); [done|].
  rewrite keyPrefix_empty, append_nil_l.
  destruct (Logs.typeof_object v).
  - by apply flatten_loop_spares.
  - apply obj_get_set_ne. congruence.
Qed.

Lemma fold_spares k (l : list (string * Logs.json)) :
  dotless k = true -> k ∉ (fst <$> l) -> "" ∉ (fst <$> l) ->
  forall acc,
    Logs.obj_get k (foldl (visit "") acc l) = Logs.obj_get k acc.
Proof.
  intros Hk. induction l as [|[k' v] rest IH]; intros Hnew Hne acc; [done|].
  cbn in Hnew, Hne. apply not_elem_of_cons in Hnew as [H1 Hnew].
  apply not_elem_of_cons in Hne as [H2 Hne].
  cbn [foldl]. rewrite IH by done. apply visit_spares; congruence.
Qed.

(** X16. A top-level attribute of a record survives [flatten] under
    its own name: when the record has distinct keys, none of them
    empty, and holds a truthy primitive under a key without a dot
    (such as [time], [level] or [msg]), the flattened record holds the
    same value under that key. *)
Theorem flatten_keeps_top_level_attribute (fields : Logs.obj) (k : string)
    (v : Logs.json) :
  NoDup (fst <$> fields) ->
  "" ∉ (fst <$> fields) ->
  dotless k = true ->
  k <> "__proto__" ->
  Logs.obj_get k fields = Some v ->
  Logs.falsy v = false ->
  Logs.typeof_object v = false ->
  Logs.field (Logs.flatten (Logs.JObj fields) [] "") k = Some v.
Proof.
  intros Hnd Hne Hk Hp Hget Hf Ht.
  unfold Logs.flatten. cbn [Logs.typeof_object negb Logs.field].
  rewrite flatten_loop_obj.
  unfold Logs.obj_get in Hget.
  destruct (List.find _ fields) as [[k0 v0]|] eqn:Hfind; [|done].
  cbn in Hget. injection Hget as ->.
  pose proof Hfind as Hfind'.
  apply find_some in Hfind' as [Hin E]. cbn in E.
  apply String.eqb_eq in E as ->.
  apply list_elem_of_In, list_elem_of_split in Hin as (pre & post & ->).
  rewrite fmap_app in Hnd, Hne. cbn in Hnd, Hne.
  apply NoDup_app in Hnd as (_ & _ & Hnd).
  apply NoDup_cons in Hnd as [Hnew _].
  rewrite foldl_app. cbn [foldl].
  rewrite fold_spares; [|done|done|].
  2: { intros H. apply Hne. apply elem_of_app. right. by right. }
  unfold visit. cbn [fst snd]. rewrite Hf, Ht, keyPrefix_empty, append_nil_l.
  by rewrite obj_get_set, decide_True.
Qed.

End Attributes.

Lemma flatten_keeps_top_level_attribute_witness :
  Logs.obj_get "level" Records.broadcast = Some (Logs.JStr "INFO")
  /\ Logs.field (Logs.flatten (Logs.JObj Records.broadcast) [] "") "level"
     = Some (Logs.JStr "INFO").
Proof.
  split; [reflexivity|].
  exact (flatten_keeps_top_level_attribute Records.broadcast "level"
           (Logs.JStr "INFO")
           ltac:(refine (bool_decide_unpack _ _); vm_compute; reflexivity)
           ltac:(refine (bool_decide_unpack _ _); vm_compute; reflexivity)
           eq_refl ltac:(discriminate) eq_refl eq_refl eq_refl).
Defined.

Section Paths.

Lemma of_nat_dotless n : dotless (of_nat n) = true.
Proof.
  unfold dotless. apply (all_chars_weaken is_digit).
  - intros c Hc. unfold is_digit in Hc.
    apply andb_true_iff in Hc as [H1 H2].
    apply Nat.leb_le in H1, H2. apply negb_true_iff.
    apply Ascii.eqb_neq. intros <-. vm_compute in H1. lia.
  - apply digits_are_digits.
Qed.

Lemma indexed_keys {A} (l : list A) i :
  fst <$> Logs.indexed i l = of_nat <$> seq i (length l).
Proof.
  revert i. induction l as [|x l IH]; intros i; [done|].
  cbn. by rewrite IH.
Qed.

Lemma indexed_values {A} (l : list A) i :
  snd <$> Logs.indexed i l = l.
Proof.
  revert i. induction l as [|x l IH]; intros i; [done|].
  cbn. by rewrite IH.
Qed.

(** What [well_keyed] says about the members of a value. *)
Lemma well_keyed_members d :
  well_keyed d = true ->
  NoDup (fst <$> members d)
  /\ Forall (fun kv => plain_key kv.1 = true /\ well_keyed kv.2 = true)
            (members d).
Proof.
  destruct d as [| | | |items|fields]; cbn [members];
    try (intros _; split; constructor).
  - cbn [well_keyed]. intros H. split.
    + rewrite indexed_keys. apply NoDup_fmap_2; [|apply NoDup_seq].
      intros n m. apply of_nat_inj.
    + generalize 0. revert H.
      induction items as [|v rest IH]; intros H i; [constructor|].
      apply andb_true_iff in H as [Hv Hrest]. cbn [Logs.indexed].
      constructor; [|by apply IH].
      cbn [fst snd]. split; [|done]. unfold plain_key.
      rewrite of_nat_dotless. cbn [andb]. apply negb_true_iff.
      apply String.eqb_neq, of_nat_nonempty.
  - cbn [well_keyed]. intros [Hnd H]%andb_true_iff. split.
    + unfold distinct_keys in Hnd. by apply bool_decide_eq_true_1 in Hnd.
    + clear Hnd. induction fields as [|[k v] rest IH]; [constructor|].
      apply andb_true_iff in H as [H Hrest].
      apply andb_true_iff in H as [Hk Hv].
      constructor; [done|by apply IH].
Qed.

Lemma flatten_loop_members d acc prefix :
  Logs.flatten_loop d acc prefix = foldl (visit prefix) acc (members d).
Proof.
  destruct d; try reflexivity.
  - apply flatten_loop_arr.
  - apply flatten_loop_obj.
Qed.

(** Under a prefix, the loop of [flatten] writes only keys that begin
    with the prefix and a dot. *)
Lemma fold_outside_prefix (l : list (string * Logs.json)) :
  Forall (fun kv => forall acc prefix K,
            prefix <> "" -> (forall s, K <> prefix +:+ "." +:+ s) ->
            Logs.obj_get K (Logs.flatten_loop kv.2 acc prefix)
            = Logs.obj_get K acc) l ->
  forall acc prefix K,
    prefix <> "" -> (forall s, K <> prefix +:+ "." +:+ s) ->
    Logs.obj_get K (foldl (visit prefix) acc l) = Logs.obj_get K acc.
Proof.
  induction 1 as [|[key v] rest Hv Hrest IHrest]; intros acc prefix K Hp HK;
    [done|].
  cbn [foldl]. rewrite IHrest by done. unfold visit. cbn [fst snd] in *.
  destruct (Logs.falsy v); [done|].
  rewrite (keyPrefix_truthy prefix Hp).
  destruct (Logs.typeof_object v).
  - apply Hv.
    + rewrite append_assoc. by apply append_nonempty_l.
    + intros s. rewrite !append_assoc. apply HK.
  - apply obj_get_set_ne. rewrite append_assoc. apply HK.
Qed.

Lemma flatten_loop_outside d :
  forall acc prefix K,
    prefix <> "" -> (forall s, K <> prefix +:+ "." +:+ s) ->
    Logs.obj_get K (Logs.flatten_loop d acc prefix) = Logs.obj_get K acc.
Proof.
  induction d as [| | | |items IH|fields IH] using json_ind';
    intros acc prefix K Hp HK; try done.
  - rewrite flatten_loop_members. apply fold_outside_prefix; [|done|done].
    by apply (Forall_indexed
                (fun d => forall acc prefix K,
                   prefix <> "" -> (forall s, K <> prefix +:+ "." +:+ s) ->
                   Logs.obj_get K (Logs.flatten_loop d acc prefix)
                   = Logs.obj_get K acc)).
  - rewrite flatten_loop_members. by apply fold_outside_prefix.
Qed.

Lemma dotless_cut_unique (k k' a b : string) :
  dotless k = true -> dotless k' = true ->
  k +:+ "." +:+ a = k' +:+ "." +:+ b -> k = k'.
Proof.
  unfold dotless. revert k'.
  induction k as [|x k IH]; intros [|y k'] Hk Hk' E.
  - done.
  - rewrite append_nil_l, !append_cons in E. injection E as <- _.
    cbn in Hk'. discriminate Hk'.
  - rewrite append_nil_l, !append_cons in E. injection E as -> _.
    cbn in Hk. discriminate Hk.
  - rewrite !append_cons in E. injection E as -> E.
    cbn in Hk, Hk'. apply andb_true_iff in Hk as [_ Hk].
    apply andb_true_iff in Hk' as [_ Hk'].
    f_equal. by apply IH.
Qed.

(** The dotted name of a path. *)
Lemma join_cons k (rest : list string) :
  rest <> [] -> Logs.join "." (k :: rest) = k +:+ "." +:+ Logs.join "." rest.
Proof. by destruct rest. Qed.

Lemma at_path_members d k rest v :
  at_path d (k :: rest) = Some v ->
  exists child, Logs.obj_get k (members d) = Some child
                /\ at_path child rest = Some v.
Proof.
  cbn [at_path]. destruct (Logs.obj_get k (members d)) as [child|]; [|done].
  intros H. by exists child.
Qed.

Lemma obj_get_split k (o : Logs.obj) v :
  Logs.obj_get k o = Some v ->
  exists pre post, o = pre ++ (k, v) :: post.
Proof.
  unfold Logs.obj_get.
  destruct (List.find _ o) as [[k0 v0]|] eqn:Hfind; [|done].
  cbn. intros [= ->]. apply find_some in Hfind as [Hin E]. cbn in E.
  apply String.eqb_eq in E as ->.
  by apply list_elem_of_In, list_elem_of_split in Hin.
Qed.

(** Visiting a member under another plain key leaves the name of a
    path through [k] alone. *)
Lemma visit_outside prefix k tail k' v' acc :
  plain_key k = true -> plain_key k' = true -> k' <> k ->
  (tail = "" \/ exists s, tail = "." +:+ s) ->
  Logs.obj_get (Logs.keyPrefix prefix +:+ k +:+ tail)
    (visit prefix acc (k', v'))
  = Logs.obj_get (Logs.keyPrefix prefix +:+ k +:+ tail) acc.
Proof.
  intros Hk Hk' Hne Htail. unfold visit. cbn [fst snd].
  apply andb_true_iff in Hk as [Hkd Hkn], Hk' as [Hkd' Hkn'].
  apply negb_true_iff, String.eqb_neq in Hkn, Hkn'.
  assert (Hdiff : forall s,
            k +:+ tail <> k' +:+ "." +:+ s).
  { intros s E. destruct Htail as [->|[s' ->]].
    - rewrite append_nil_r in E. revert E. by apply dotless_no_dot.
    - apply Hne. symmetry. by eapply dotless_cut_unique. }
  destruct (Logs.falsy v'); [done|].
  destruct (Logs.typeof_object v').
  - apply flatten_loop_outside.
    + by apply append_nonempty_r.
    + intros s E. rewrite append_assoc in E.
      apply append_inj_l in E. by apply (Hdiff s).
  - apply obj_get_set_ne. intros E. apply append_inj_l in E.
    destruct Htail as [->|[s' ->]].
    + rewrite append_nil_r in E. congruence.
    + subst k'. revert Hkd'. unfold dotless. rewrite all_chars_app.
      rewrite append_cons. cbn. by rewrite andb_false_r.
Qed.

Lemma fold_outside prefix k tail (l : list (string * Logs.json)) :
  plain_key k = true ->
  (tail = "" \/ exists s, tail = "." +:+ s) ->
  Forall (fun kv => plain_key kv.1 = true) l -> k ∉ (fst <$> l) ->
  forall acc,
    Logs.obj_get (Logs.keyPrefix prefix +:+ k +:+ tail)
      (foldl (visit prefix) acc l)
    = Logs.obj_get (Logs.keyPrefix prefix +:+ k +:+ tail) acc.
Proof.
  intros Hk Htail Hall. induction Hall as [|[k' v'] rest Hk' Hrest IH];
    intros Hnew acc; [done|].
  cbn in Hnew. apply not_elem_of_cons in Hnew as [Hne Hnew].
  cbn [foldl]. rewrite IH by done. apply visit_outside; done || congruence.
Qed.

(** The loop of [flatten] stores the leaf at the end of a path under
    the dotted name of the path. *)
Lemma fold_path (l : list (string * Logs.json)) :
  Forall (fun kv => forall path v acc prefix,
            well_keyed kv.2 = true -> path <> [] ->
            at_path kv.2 path = Some v -> leaf v = true ->
            Logs.keyPrefix prefix +:+ Logs.join "." path <> "__proto__" ->
            Logs.obj_get (Logs.keyPrefix prefix +:+ Logs.join "." path)
              (Logs.flatten_loop kv.2 acc prefix) = Some v) l ->
  NoDup (fst <$> l) ->
  Forall (fun kv => plain_key kv.1 = true /\ well_keyed kv.2 = true) l ->
  forall k rest child v acc prefix,
    Logs.obj_get k l = Some child ->
    at_path child rest = Some v ->
    leaf v = true ->
    Logs.keyPrefix prefix +:+ Logs.join "." (k :: rest) <> "__proto__" ->
    Logs.obj_get (Logs.keyPrefix prefix +:+ Logs.join "." (k :: rest))
      (foldl (visit prefix) acc l) = Some v.
Proof.
  intros IHm Hnd Hkeys k rest child v acc prefix Hget Hrest Hleaf Hproto.
  destruct (obj_get_split k _ child Hget) as (pre & post & Hsplit).
  rewrite Hsplit in IHm, Hnd, Hkeys |- *.
  rewrite fmap_app in Hnd. cbn in Hnd.
  apply NoDup_app in Hnd as (_ & _ & Hnd).
  apply NoDup_cons in Hnd as [Hnew _].
  apply Forall_app in Hkeys as [_ Hkeys].
  apply Forall_cons in Hkeys as [[Hk Hchild] Hpost]. cbn [fst snd] in *.
  apply Forall_app in IHm as [_ IHm].
  apply Forall_cons in IHm as [IHchild _]. cbn [snd] in IHchild.
  rewrite foldl_app. cbn [foldl].
  assert (Hname : exists tail,
            Logs.join "." (k :: rest) = k +:+ tail
            /\ (tail = "" \/ exists s, tail = "." +:+ s)).
  { destruct rest as [|k2 rest2].
    - exists "". split; [by rewrite append_nil_r|by left].
    - exists ("." +:+ Logs.join "." (k2 :: rest2)). split;
        [by apply join_cons|right; by eexists]. }
  destruct Hname as (tail & Hjoin & Htail).
  rewrite Hjoin.
  rewrite (fold_outside prefix k tail post Hk Htail);
    [ | eapply Forall_impl; [exact Hpost|]; by intros kv [? _] | done ].
  rewrite <- Hjoin.
  pose proof Hk as Hk0. apply andb_true_iff in Hk0 as [_ Hkn].
  apply negb_true_iff, String.eqb_neq in Hkn.
  unfold visit. cbn [fst snd].
  destruct rest as [|k2 rest2].
  - cbn in Hrest. injection Hrest as ->.
    unfold leaf in Hleaf. apply andb_true_iff in Hleaf as [Hf Ht].
    apply negb_true_iff in Hf, Ht. rewrite Hf, Ht.
    cbn [Logs.join] in *. by rewrite obj_get_set, decide_True.
  - assert (Hobj : Logs.falsy child = false
                   /\ Logs.typeof_object child = true).
    { destruct child; cbn in Hrest |- *; try discriminate Hrest; done. }
    destruct Hobj as [Hf Ht]. rewrite Hf, Ht.
    rewrite join_cons in Hproto |- * by done.
    assert (Hpre : Logs.keyPrefix (Logs.keyPrefix prefix +:+ k)
                   = Logs.keyPrefix prefix +:+ k +:+ ".").
    { rewrite keyPrefix_truthy by (by apply append_nonempty_r).
      by rewrite append_assoc. }
    specialize (IHchild (k2 :: rest2) v (foldl (visit prefix) acc pre)
                  (Logs.keyPrefix prefix +:+ k) Hchild
                  ltac:(done) Hrest Hleaf).
    rewrite Hpre, !append_assoc in IHchild.
    by apply IHchild.
Qed.

Lemma flatten_loop_path d :
  forall path v acc prefix,
    well_keyed d = true ->
    path <> [] ->
    at_path d path = Some v ->
    leaf v = true ->
    Logs.keyPrefix prefix +:+ Logs.join "." path <> "__proto__" ->
    Logs.obj_get (Logs.keyPrefix prefix +:+ Logs.join "." path)
      (Logs.flatten_loop d acc prefix) = Some v.
Proof.
  induction d as [| | | |items IH|fields IH] using json_ind';
    intros path v acc prefix Hwk Hpath Hat Hleaf Hproto;
    try (destruct path as [|k rest]; [done|]; cbn in Hat; discriminate Hat).
  - destruct (well_keyed_members _ Hwk) as [Hnd Hkeys].
    rewrite flatten_loop_members.
    destruct path as [|k rest]; [done|].
    destruct (at_path_members _ k rest v Hat) as (child & Hget & Hrest).
    apply (fold_path (members (Logs.JArr items))) with (child := child);
      try done.
    by apply (Forall_indexed
                (fun d => forall path v acc prefix,
                   well_keyed d = true -> path <> [] ->
                   at_path d path = Some v -> leaf v = true ->
                   Logs.keyPrefix prefix +:+ Logs.join "." path
                   <> "__proto__" ->
                   Logs.obj_get
                     (Logs.keyPrefix prefix +:+ Logs.join "." path)
                     (Logs.flatten_loop d acc prefix) = Some v)).
  - destruct (well_keyed_members _ Hwk) as [Hnd Hkeys].
    rewrite flatten_loop_members.
    destruct path as [|k rest]; [done|].
    destruct (at_path_members _ k rest v Hat) as (child & Hget & Hrest).
    by apply (fold_path (members (Logs.JObj fields))) with (child := child).
Qed.

(** X19. What [flatten] calls a nested attribute. In a record whose
    object keys are, at every level, distinct, non-empty and without a
    dot, the truthy primitive reached by following a path of keys and
    array indices is stored under the keys of the path joined by dots
    (the single key [__proto__] apart). *)
Theorem flatten_names_leaves_by_path (d : Logs.json) (path : list string)
    (v : Logs.json) :
  well_keyed d = true ->
  path <> [] ->
  path <> ["__proto__"] ->
  at_path d path = Some v ->
  leaf v = true ->
  Logs.field (Logs.flatten d [] "") (Logs.join "." path) = Some v.
Proof.
  intros Hwk Hne Hproto Hat Hleaf.
  assert (Hobj : Logs.typeof_object d = true).
  { destruct path as [|k rest]; [done|].
    destruct d; cbn in Hat |- *; try discriminate Hat; done. }
  unfold Logs.flatten. rewrite Hobj. cbn [negb Logs.field].
  pose proof (flatten_loop_path d path v [] "" Hwk Hne Hat Hleaf) as H.
  rewrite keyPrefix_empty, append_nil_l in H. apply H.
  destruct path as [|k [|k2 rest]]; [done| |].
  - cbn. congruence.
  - rewrite join_cons by done. intros E.
    assert (Hd : dotless "__proto__" = true) by reflexivity.
    rewrite <- E in Hd. revert Hd. unfold dotless.
    rewrite all_chars_app, append_cons. cbn. by rewrite andb_false_r.
Qed.

End Paths.

Lemma flatten_names_leaves_by_path_witness :
  at_path (Logs.JObj Records.broadcast) ["context"; "tags"; "0"]
  = Some (Logs.JStr "a")
  /\ Logs.field (Logs.flatten (Logs.JObj Records.broadcast) [] "")
       "context.tags.0" = Some (Logs.JStr "a").
Proof.
  split; [reflexivity|].
  exact (flatten_names_leaves_by_path (Logs.JObj Records.broadcast)
           ["context"; "tags"; "0"] (Logs.JStr "a")
           ltac:(vm_compute; reflexivity) ltac:(discriminate)
           ltac:(discriminate) eq_refl eq_refl).
Defined.
